(** * Markov fail/recovery state graphs: the model of [fail_recover_graph.py]

    The development embeds the [StateGraph] class of the repository:
    graph construction, the transition intensity matrix, the exact mean
    time to first failure obtained from a ratio of determinants, the
    breadth-first fault levels, the major/minor classification of edges
    with the topological visit of the major ones, and the asymptotic
    estimate built on that visit.

    Rates are symbolic expressions of sympy in the source.  They are
    taken here in an arbitrary field [F]: an equation between two
    expressions of the model holds for every value of the symbols that
    keeps the denominators away from zero, hence in the field of rational
    functions in the symbols, where sympy's [factor] does not change the
    value of an expression. *)

From HB Require Import structures.
From Stdlib Require Import String ZArith Lia Ring Field.
From mathcomp Require Import boot order algebra.

Set Implicit Arguments.
Unset Strict Implicit.
Unset Printing Implicit Defensive.

Import GRing.Theory.
Local Open Scope ring_scope.

(** ** Failures

    The source signals a broken precondition with [assert], a missing
    dictionary key with [KeyError], a matrix index out of range with
    [IndexError] and an attribute read on [None] with [AttributeError]:
    each aborts the call.  [OutOfFuel] is no Python exception: it marks a
    loop of the model cut short by its fuel, which the fuel lemmas below
    show never happens. *)

Inductive error : Type :=
| AssertionError
| KeyError
| IndexError
| AttributeError
| OutOfFuel.

Inductive result (A : Type) : Type :=
| Ok of A
| Fail of error.

Arguments Ok {A} _.
Arguments Fail {A} _.

Definition bind {A B : Type} (m : result A) (k : A -> result B) : result B :=
  match m with
  | Ok a => k a
  | Fail e => Fail e
  end.

Notation "'let*' x ':=' m 'in' k" := (bind m (fun x => k))
  (at level 200, x name, m at level 100, k at level 200).

Definition assert (b : bool) : result unit :=
  if b then Ok tt else Fail AssertionError.

Notation "'check' b 'in' k" := (bind (assert b) (fun _ => k))
  (at level 200, b at level 100, k at level 200).

Definition is_ok {A : Type} (m : result A) : bool :=
  if m is Ok _ then true else false.

(** [foldM] runs a Python [for] loop whose body may raise. *)
Fixpoint foldM {A S : Type} (f : A -> S -> result S) (l : seq A) (s : S)
  : result S :=
  match l with
  | [::] => Ok s
  | a :: l' => let* s' := f a s in foldM f l' s'
  end.

(** [mapM] collects the results of a body that may raise. *)
Fixpoint mapM {A B : Type} (f : A -> result B) (l : seq A) : result (seq B) :=
  match l with
  | [::] => Ok [::]
  | a :: l' => let* b := f a in let* bs := mapM f l' in Ok (b :: bs)
  end.

(** ** Dictionaries and sets

    A Python [dict] is an association list read from the front: a later
    binding of a key hides the earlier ones, so every list denotes a
    dictionary.  The keys are listed without repetition. *)

Section Dict.

Variables (K : eqType) (V : Type).

Definition dict : Type := seq (K * V).

Fixpoint dget (d : dict) (k : K) : option V :=
  match d with
  | [::] => None
  | (k', v) :: d' => if k' == k then Some v else dget d' k
  end.

Definition dset (d : dict) (k : K) (v : V) : dict := (k, v) :: d.

Definition dkeys (d : dict) : seq K := undup [seq p.1 | p <- d].

Definition dvalues (d : dict) : seq V := pmap (dget d) (dkeys d).

Definition dlen (d : dict) : nat := size (dkeys d).

(** [d[k]], which raises [KeyError] on a missing key. *)
Definition dfind (d : dict) (k : K) : result V :=
  if dget d k is Some v then Ok v else Fail KeyError.

(** [d[k]] of a [defaultdict] whose factory yields [v0]. *)
Definition dget_default (v0 : V) (d : dict) (k : K) : V :=
  if dget d k is Some v then v else v0.

End Dict.

(** Equality of two Python sets given by their elements. *)
Definition set_eq {K : eqType} (a b : seq K) : bool :=
  all (fun x => x \in b) a && all (fun x => x \in a) b.

(** [set.add]. *)
Definition set_add {K : eqType} (s : seq K) (x : K) : seq K :=
  if x \in s then s else x :: s.

(** ** The data model *)

(** State identifiers are hashable, totally ordered Python values; the
    natural numbers stand for them. *)
Definition Id : Type := nat.

Lemma string_eqP : Equality.axiom String.eqb.
Proof.
move=> x y; apply: (iffP idP) => [/String.eqb_eq //|->].
exact: String.eqb_refl.
Qed.

HB.instance Definition _ := hasDecEq.Build string string_eqP.

Section Model.

(** The field of the symbolic rates. *)
Variable F : fieldType.

(** [Transition = namedtuple('Transition', ('target', 'rate', 'label'))] *)
Record Transition : Type := mkTransition {
  target : Id;
  rate : F;
  label : string
}.

Definition Transition_to_tuple (t : Transition) : Id * F * string :=
  (target t, rate t, label t).

Definition tuple_to_Transition (p : Id * F * string) : Transition :=
  mkTransition p.1.1 p.1.2 p.2.

Lemma Transition_tupleK : cancel Transition_to_tuple tuple_to_Transition.
Proof. by case. Qed.

HB.instance Definition _ :=
  Equality.copy Transition (can_type Transition_tupleK).

(** [State = namedtuple('State', ('id', 'faults', 'recovers'))].  The
    source compares states with [is]; [oid] is the identity of the Python
    object, a fresh number given by [add_state] to every tuple it makes. *)
Record State : Type := mkState {
  oid : nat;
  id : Id;
  faults : seq Transition;
  recovers : seq Transition
}.

Definition State_to_tuple (n : State)
  : nat * Id * seq Transition * seq Transition :=
  (oid n, id n, faults n, recovers n).

Definition tuple_to_State (p : nat * Id * seq Transition * seq Transition)
  : State :=
  mkState p.1.1.1 p.1.1.2 p.1.2 p.2.

Lemma State_tupleK : cancel State_to_tuple tuple_to_State.
Proof. by case. Qed.

HB.instance Definition _ := Equality.copy State (can_type State_tupleK).

Record StateGraph : Type := mkStateGraph {
  root : option State;
  nodes : dict Id State;
  term_nodes : seq Id;
  next_oid : nat
}.

Definition fault (tgt : Id) (rt : F) (lbl : option string) : Transition :=
  mkTransition tgt rt (if lbl is Some l then l else "fault"%string).

Definition recover (tgt : Id) (rt : F) (lbl : option string) : Transition :=
  mkTransition tgt rt (if lbl is Some l then l else "recover"%string).

(** ** Construction *)

(** [StateGraph.__init__] *)
Definition empty_graph : StateGraph := mkStateGraph None [::] [::] 0%N.

(** [StateGraph.add_state]: the node is stored under its id first, then a
    root is checked and recorded. *)
Definition add_state (g : StateGraph) (i : Id) (fs rs : seq Transition)
    (is_root : bool) : result StateGraph :=
  let n := mkState (next_oid g) i fs rs in
  let nodes' := dset (nodes g) i n in
  if is_root then
    check (~~ isSome (root g)) in
    check (nilp rs) in
    Ok (mkStateGraph (Some n) nodes' (term_nodes g) (next_oid g).+1)
  else Ok (mkStateGraph (root g) nodes' (term_nodes g) (next_oid g).+1).

(** [StateGraph.add_term_state] *)
Definition add_term_state (g : StateGraph) (i : Id) : result StateGraph :=
  check (i \notin dkeys (nodes g)) in
  Ok (mkStateGraph (root g) (nodes g) (set_add (term_nodes g) i) (next_oid g)).

(** A call of the construction interface and a run of several calls. *)
Inductive build_call : Type :=
| AddState of Id & seq Transition & seq Transition & bool
| AddTermState of Id.

Definition run_call (c : build_call) (g : StateGraph) : result StateGraph :=
  match c with
  | AddState i fs rs is_root => add_state g i fs rs is_root
  | AddTermState i => add_term_state g i
  end.

Definition build (cs : seq build_call) : result StateGraph :=
  foldM run_call cs empty_graph.

(** The two id spaces share no id. *)
Definition disjoint_ids (g : StateGraph) : bool :=
  all (fun i => i \notin term_nodes g) (dkeys (nodes g)).

(** [StateGraph.get_states].  [sorted] compares the state tuples, which
    the ids decide since the values of a dictionary keyed by id have
    distinct ids; [n is not self.root] compares object identities. *)
Definition get_states (g : StateGraph) : result (seq State) :=
  if root g is Some r then
    let ns := sort (fun a b => (id a <= id b)%N) (dvalues (nodes g)) in
    Ok (r :: [seq n <- ns | oid n != oid r])
  else Fail AssertionError.

(** ** The transition intensity matrix *)

(** A sympy matrix is a list of rows. *)
Definition matrix : Type := seq (seq F).

(** [zeros(n)] *)
Definition zeros (n : nat) : matrix := nseq n (nseq n 0).

(** [M[i, j]], read with zero outside of the matrix. *)
Definition mget (M : matrix) (i j : nat) : F := nth 0 (nth [::] M i) j.

(** [M[i, j] = v] *)
Definition mset (M : matrix) (i j : nat) (v : F) : result matrix :=
  if (i < size M)%N && (j < size (nth [::] M i))%N then
    Ok (set_nth [::] M i (set_nth 0 (nth [::] M i) j v))
  else Fail IndexError.

(** [enumerate] *)
Definition enumerate {A : Type} (l : seq A) : seq (nat * A) :=
  zip (iota 0%N (size l)) l.

(** [{n.id: i for i, n in enumerate(nodes)}] *)
Definition nodes_map (ns : seq State) : dict Id nat :=
  foldl (fun d p => dset d (id p.2) p.1) [::] (enumerate ns).

(** The body of the loop on the fault transitions of row [i]. *)
Definition tim_fault (g : StateGraph) (nm : dict Id nat) (i : nat)
    (x : Transition) (st : F * matrix) : result (F * matrix) :=
  let total := st.1 + rate x in
  if target x \notin term_nodes g then
    let* j := dfind nm (target x) in
    let* M := mset st.2 i j (rate x) in
    Ok (total, M)
  else Ok (total, st.2).

(** The body of the loop on the recovery transitions of row [i]. *)
Definition tim_recover (nm : dict Id nat) (i : nat)
    (x : Transition) (st : F * matrix) : result (F * matrix) :=
  let total := st.1 + rate x in
  let* j := dfind nm (target x) in
  let* M := mset st.2 i j (rate x) in
  Ok (total, M).

(** The body of the loop on the states. *)
Definition tim_row (g : StateGraph) (nm : dict Id nat) (p : nat * State)
    (M : matrix) : result matrix :=
  let* st1 := foldM (tim_fault g nm p.1) (faults p.2) (0, M) in
  let* st2 := foldM (tim_recover nm p.1) (recovers p.2) st1 in
  mset st2.2 p.1 p.1 (- st2.1).

(** [StateGraph.transition_intensity_matrix] *)
Definition transition_intensity_matrix (g : StateGraph) : result matrix :=
  let* ns := get_states g in
  foldM (tim_row g (nodes_map ns)) (enumerate ns) (zeros (size ns)).

(** What the matrix is meant to hold, read off the graph.  [written g n]
    lists the transitions of [n] whose rate is stored in a column, in the
    order of the stores; [total_rate n] is the sum of all the rates that
    leave [n]. *)
Definition written (g : StateGraph) (n : State) : seq Transition :=
  [seq x <- faults n | target x \notin term_nodes g] ++ recovers n.

Definition total_rate (n : State) : F :=
  \sum_(x <- faults n ++ recovers n) rate x.

(** The transitions of [n] that are stored in the column of the state
    [m]. *)
Definition written_to (g : StateGraph) (n m : State) : seq Transition :=
  [seq x <- written g n | target x == id m].

(** Default values for the reads of lists by position. *)
Definition State0 : State := mkState 0%N 0%N [::] [::].

Definition Transition0 : Transition := mkTransition 0%N 0 EmptyString.

(** The entry of row [i] and column [j] for the states [ns]. *)
Definition generator_entry (g : StateGraph) (ns : seq State) (i j : nat) : F :=
  let n := nth State0 ns i in
  let m := nth State0 ns j in
  if i == j then - total_rate n
  else last 0 [seq rate x | x <- written_to g n m].

(** Well-formed graphs: every node is stored under its own id, the stored
    nodes are distinct objects, the root is the node stored under its id,
    every fault leads to a terminal id or to a stored node, and every
    recovery leads to a stored node. *)
Definition keyed_by_id (g : StateGraph) : bool :=
  all (fun p => id p.2 == p.1) (nodes g).

Definition distinct_objects (g : StateGraph) : bool :=
  uniq [seq oid n | n <- dvalues (nodes g)].

Definition root_stored (g : StateGraph) : bool :=
  if root g is Some r then dget (nodes g) (id r) == Some r else false.

Definition targets_known (g : StateGraph) : bool :=
  all (fun n =>
         all (fun x => (target x \in term_nodes g)
                       || (target x \in dkeys (nodes g))) (faults n)
         && all (fun x => target x \in dkeys (nodes g)) (recovers n))
      (dvalues (nodes g)).

Definition well_formed (g : StateGraph) : bool :=
  [&& keyed_by_id g, distinct_objects g, root_stored g & targets_known g].

(** ** The exact mean time to first failure *)

(** The square matrix of size [n] read from a list of rows. *)
Definition mx_of (n : nat) (M : matrix) : 'M[F]_n :=
  \matrix_(i < n, j < n) mget M i j.

(** [M.det()]: the determinant is the one of linear algebra; how sympy
    computes it is not part of the repository. *)
Definition det (M : matrix) : F := \det (mx_of (size M) M).

(** [for i in range(M.rows): M[i, 0] = 1] *)
Definition set_col0_ones (M : matrix) : result matrix :=
  foldM (fun i M' => mset M' i 0%N 1) (iota 0%N (size M)) M.

(** [StateGraph.mttff_exact]; [factor] keeps the value of its argument. *)
Definition mttff_exact (g : StateGraph) : result F :=
  let* M := transition_intensity_matrix g in
  let D := det M in
  let* M1 := set_col0_ones M in
  let D1 := det M1 in
  Ok (- D1 / D).

(** ** The fault levels *)

(** [StateGraph.find_node] *)
Definition find_node (g : StateGraph) (i : Id) : result (option State) :=
  if i \notin term_nodes g then
    let* n := dfind (nodes g) i in Ok (Some n)
  else Ok None.

(** The key under which the traversals know the node a transition leads
    to: the sentinel [None] stands for every terminal id. *)
Definition fault_target_key (g : StateGraph) (t : Transition) : option Id :=
  if target t \notin term_nodes g then Some (target t) else None.

(** The node that answers to an id in the traversals: the root for its
    own id, which the traversals meet first, and the stored node for any
    other id. *)
Definition node_at (g : StateGraph) (i : Id) : option State :=
  match root g with
  | Some r => if id r == i then Some r else dget (nodes g) i
  | None => dget (nodes g) i
  end.

(** A fault transition leads from the key [k] to the key [k']. *)
Definition fault_edge (g : StateGraph) (k k' : option Id) : Prop :=
  exists i m t,
    [/\ k = Some i, node_at g i = Some m, t \in faults m
      & k' = fault_target_key g t].

(** [fault_path g d k]: [d] fault transitions lead from the root to [k]. *)
Inductive fault_path (g : StateGraph) : nat -> option Id -> Prop :=
| fault_path_root r : root g = Some r -> fault_path g 0 (Some (id r))
| fault_path_step d k k' :
    fault_path g d k -> fault_edge g k k' -> fault_path g d.+1 k'.

(** [d] is the length of the shortest path of faults from the root to
    [k]. *)
Definition fault_distance (g : StateGraph) (d : nat) (k : option Id) : Prop :=
  fault_path g d k /\ forall d', fault_path g d' k -> (d <= d')%N.

(** [n.id if n is not None else None] *)
Definition node_key (n : option State) : option Id := omap id n.

(** [for t in n.faults: discovered.append((self.find_node(t.target), lvl + 1))]
    as the list of the appended pairs. *)
Definition fault_successors (g : StateGraph) (n : State) (lvl : nat)
  : result (seq (option State * nat)) :=
  mapM (fun t => let* x := find_node g (target t) in Ok (x, lvl.+1)) (faults n).

Section VisitNodes.

Variable S : Type.
Variable cb : option State -> nat -> S -> result S.
Variable g : StateGraph.

(** The [while] loop of [visit_nodes].  [drop next discovered] is what
    the loop still has to read; one unit of fuel pays for one turn. *)
Fixpoint visit_loop (fuel : nat) (discovered : seq (option State * nat))
    (next : nat) (visited : seq (option Id)) (s : S)
  : result (seq (option Id) * S) :=
  match drop next discovered with
  | [::] => Ok (visited, s)
  | (n, lvl) :: _ =>
    match fuel with
    | 0%N => Fail OutOfFuel
    | fuel'.+1 =>
      if node_key n \in visited then
        visit_loop fuel' discovered next.+1 visited s
      else
        let* s' := cb n lvl s in
        let* succ := (if n is Some m then fault_successors g m lvl else Ok [::]) in
        visit_loop fuel' (discovered ++ succ) next.+1
          (set_add visited (node_key n)) s'
    end
  end.

(** The states the traversal may meet: the root and the values of the
    node dictionary. *)
Definition known_states : seq State :=
  (if root g is Some r then [:: r] else [::]) ++ dvalues (nodes g).

(** Enough fuel for every turn of the loop. *)
Definition visit_fuel : nat :=
  (sumn [seq size (faults n) | n <- known_states]).+2.

(** [StateGraph.visit_nodes] *)
Definition visit_nodes (s : S) : result S :=
  let* r := visit_loop visit_fuel [:: (root g, 0%N)] 0%N [::] s in
  check (set_eq r.1 (None :: [seq Some i | i <- dkeys (nodes g)])) in
  Ok r.2.

End VisitNodes.

(** The visitor of [fault_level_map]. *)
Definition level_visitor (n : option State) (lvl : nat)
    (level_map : dict (option Id) nat) : result (dict (option Id) nat) :=
  Ok (dset level_map (node_key n) lvl).

(** [StateGraph.fault_level_map] *)
Definition fault_level_map (g : StateGraph) : result (dict (option Id) nat) :=
  visit_nodes level_visitor g [::].

(** [StateGraph.fault_resilence] *)
Definition fault_resilence (g : StateGraph) : result Z :=
  let* level_map := fault_level_map g in
  let* lvl := dfind level_map None in
  Ok (Z.pred (Z.of_nat lvl)).

(** ** Major edges and their topological visit *)

Section MajorEdges.

Variable g : StateGraph.
Variable level_map : dict (option Id) nat.

(** [is_fault_minor] *)
Definition is_fault_minor (lvl : nat) (t : Transition) : result bool :=
  let* tlvl :=
    dfind level_map
      (if target t \notin term_nodes g then Some (target t) else None) in
  if (tlvl <= lvl)%N then Ok true
  else let* _ := assert (tlvl == lvl.+1) in Ok false.

(** [is_recovery_minor] *)
Definition is_recovery_minor (lvl : nat) (t : Transition) : result bool :=
  let* tlvl := dfind level_map (Some (target t)) in
  check (tlvl <= lvl)%N in
  Ok (tlvl < lvl)%N.

(** [inc_degree] is a [defaultdict(int)]. *)
Definition inc_degree_t : Type := dict Id Z.

Definition inc_get (inc : inc_degree_t) (i : Id) : Z :=
  dget_default Z0 inc i.

(** One turn of a loop of [degree_counter]. *)
Definition count_edge (minor : nat -> Transition -> result bool) (lvl : nat)
    (t : Transition) (inc : inc_degree_t) : result inc_degree_t :=
  let* b := minor lvl t in
  if b then Ok inc else Ok (dset inc (target t) (Z.succ (inc_get inc (target t)))).

(** [degree_counter] *)
Definition degree_counter (n : option State) (lvl : nat)
    (inc : inc_degree_t) : result inc_degree_t :=
  if n is Some m then
    let* inc1 := foldM (count_edge is_fault_minor lvl) (faults m) inc in
    foldM (count_edge is_recovery_minor lvl) (recovers m) inc1
  else Ok inc.

Section Visit.

Variable S : Type.
Variable cb : option State -> State -> Transition -> S -> S.

(** What the second loop of [visit_major_edges] changes: the in-degrees,
    the queue and the state of the callback. *)
Record visit_state : Type := mkVisitState {
  vs_inc : inc_degree_t;
  vs_queue : seq State;
  vs_cb : S
}.

(** [visit_transition] *)
Definition visit_transition (n : State) (t : Transition) (st : visit_state)
  : result visit_state :=
  let* tgt := find_node g (target t) in
  let s := cb tgt n t (vs_cb st) in
  if tgt is Some m then
    let d := Z.pred (inc_get (vs_inc st) (target t)) in
    let inc := dset (vs_inc st) (target t) d in
    if Z.eqb d Z0 then Ok (mkVisitState inc (rcons (vs_queue st) m) s)
    else Ok (mkVisitState inc (vs_queue st) s)
  else Ok (mkVisitState (vs_inc st) (vs_queue st) s).

(** One turn of a loop on the transitions of the node taken from the queue. *)
Definition visit_edge (minor : nat -> Transition -> result bool) (lvl : nat)
    (n : State) (t : Transition) (st : visit_state) : result visit_state :=
  let* b := minor lvl t in
  if b then Ok st else visit_transition n t st.

(** The body of the [while] loop: the node [n] was taken from the queue. *)
Definition visit_node (n : State) (st : visit_state) : result visit_state :=
  let* lvl := dfind level_map (Some (id n)) in
  let* st1 := foldM (visit_edge is_fault_minor lvl n) (faults n) st in
  foldM (visit_edge is_recovery_minor lvl n) (recovers n) st1.

(** The [while] loop of [visit_major_edges]; it returns the last value of
    [next] with the state. *)
Fixpoint major_loop (fuel : nat) (next : nat) (st : visit_state)
  : result (nat * visit_state) :=
  match drop next (vs_queue st) with
  | [::] => Ok (next, st)
  | n :: _ =>
    match fuel with
    | 0%N => Fail OutOfFuel
    | fuel'.+1 => let* st' := visit_node n st in major_loop fuel' next.+1 st'
    end
  end.

End Visit.

End MajorEdges.

Arguments mkVisitState {S} _ _ _.
Arguments vs_inc {S} _.
Arguments vs_queue {S} _.
Arguments vs_cb {S} _.

Section VisitMajorEdges.

Variable S : Type.
Variable cb : option State -> State -> Transition -> S -> S.
Variable g : StateGraph.

(** [visit_major_edges] up to the end of its [while] loop: the number of
    nodes taken from the queue and the last state. *)
Definition major_run (s : S) : result (nat * visit_state S) :=
  let* level_map := fault_level_map g in
  let* inc_degree := visit_nodes (degree_counter g level_map) g [::] in
  let* r := (if root g is Some r then Ok r else Fail AttributeError) in
  check (Z.eqb (inc_get inc_degree (id r)) Z0) in
  major_loop g level_map cb (dlen inc_degree).+2 0%N
    (mkVisitState inc_degree [:: r] s).

(** [StateGraph.visit_major_edges] *)
Definition visit_major_edges (s : S) : result S :=
  let* r := major_run s in
  check (r.1 == dlen (nodes g)) in
  Ok (vs_cb r.2).

End VisitMajorEdges.

(** The major edges, read off the graph and the level map.  A
    classification that answers [False] makes the edge major. *)
Definition is_major (c : result bool) : bool :=
  if c is Ok false then true else false.

(** The level that the loop reads for a node. *)
Definition level_of (level_map : dict (option Id) nat) (n : State) : nat :=
  odflt 0%N (dget level_map (Some (id n))).

(** The major edges that leave [n], faults first. *)
Definition major_edges (g : StateGraph) (level_map : dict (option Id) nat)
    (n : State) : seq Transition :=
  [seq t <- faults n
  | is_major (is_fault_minor g level_map (level_of level_map n) t)]
  ++ [seq t <- recovers n
     | is_major (is_recovery_minor level_map (level_of level_map n) t)].

(** The node that [find_node] answers for the target of [t]. *)
Definition target_node (g : StateGraph) (t : Transition) : option State :=
  if target t \notin term_nodes g then dget (nodes g) (target t) else None.

(** A call of the callback: the target, the source and the transition. *)
Definition call : Type := (option State * State * Transition)%type.

Definition apply_call {S : Type}
    (cb : option State -> State -> Transition -> S -> S) (c : call) (s : S)
  : S :=
  cb c.1.1 c.1.2 c.2 s.

(** The calls made for the node [n] when it leaves the queue. *)
Definition calls_of (g : StateGraph) (level_map : dict (option Id) nat)
    (n : State) : seq call :=
  [seq (target_node g t, n, t) | t <- major_edges g level_map n].

(** The callback that lists its calls. *)
Definition record_call (tgt : option State) (n : State) (t : Transition)
    (acc : seq call) : seq call :=
  rcons acc (tgt, n, t).

(** The nodes of the graph as the traversals meet them, one for each key
    of the node dictionary. *)
Definition graph_nodes (g : StateGraph) : seq State :=
  pmap (node_at g) (dkeys (nodes g)).

(** ** The asymptotic mean time to first failure *)

(** The state of the visitor: [term_rate] and [population_map], a
    [defaultdict(Zero)].  Reading a missing key of the latter stores a
    zero under it, which is what the key read as before. *)
Record flow : Type := mkFlow {
  term_rate : F;
  population_map : dict Id F
}.

Definition population (v : flow) (i : Id) : F :=
  dget_default 0 (population_map v) i.

(** [visitor.__init__] *)
Definition flow_init (r : State) : flow := mkFlow 0 (dset [::] (id r) 1).

(** [visitor.visit].  The quotient is the one of the field [F], which
    agrees with sympy's as long as [recovery_rate] is not zero. *)
Definition flow_visit (n : option State) (parent : State) (tr : Transition)
    (v : flow) : flow :=
  if n is Some m then
    let recovery_rate := foldl (fun a r => a + rate r) 0 (recovers m) in
    mkFlow (term_rate v)
      (dset (population_map v) (id m)
         (population v (id m)
          + population v (id parent) * rate tr / recovery_rate))
  else
    mkFlow (term_rate v + population v (id parent) * rate tr)
      (population_map v).

(** [StateGraph.mttff_asymptotic] *)
Definition mttff_asymptotic (g : StateGraph) : result F :=
  let* r := (if root g is Some r then Ok r else Fail AttributeError) in
  let* v := visit_major_edges flow_visit g (flow_init r) in
  Ok (1 / term_rate v).

End Model.

Arguments empty_graph {F}.
Arguments State0 {F}.
Arguments Transition0 {F}.
Arguments build {F} _.

(** ** The mirrored disk of the example driver *)

Section MirroredDisk.

Variable F : fieldType.
Variables e r : F.

(** The calls of the [__main__] block. *)
Definition mirror_calls : seq (build_call F) :=
  [:: AddState 0%N [:: fault 1%N (2%:R * e) None] [::] true;
      AddState 1%N [:: fault 2%N e None] [:: recover 0%N r None] false;
      AddTermState F 2%N].

Definition mirror_root : State F :=
  mkState 0%N 0%N [:: fault 1%N (2%:R * e) None] [::].

Definition mirror_degraded : State F :=
  mkState 1%N 1%N [:: fault 2%N e None] [:: recover 0%N r None].

(** The graph these calls build. *)
Definition mirror_graph : StateGraph F :=
  mkStateGraph (Some mirror_root)
    [:: (1%N, mirror_degraded); (0%N, mirror_root)] [:: 2%N] 2%N.

End MirroredDisk.

(** ** A root with two faults to the same node *)

Section DoubleFault.

Variable F : fieldType.
Variables a b c : F.

Definition double_root : State F :=
  mkState 0%N 0%N [:: fault 1%N a None; fault 1%N b None] [::].

Definition double_next : State F :=
  mkState 1%N 1%N [:: fault 2%N c None] [::].

(** The graph built by [add_state(0, (fault(1, a), fault(1, b)), (), True)],
    [add_state(1, (fault(2, c),), ())] and [add_term_state(2)]. *)
Definition double_graph : StateGraph F :=
  mkStateGraph (Some double_root)
    [:: (1%N, double_next); (0%N, double_root)] [:: 2%N] 2%N.

End DoubleFault.

(** ** The N-K storage model of [nk_fail_model.py] *)

Section NKModel.

Variable F : fieldType.

(** The parameters of [nk_fail_graph]: [N] blocks, of which [R] are
    redundant, the error rate [e] and the recovery rate [r].  [R] counts
    the turns of the loop; the integer [i] of the loop enters the rate
    [(N - i) * e] as an element of the field. *)
Variables (N : F) (R : nat) (e r : F).

(** The calls that [nk_fail_graph] makes, in their order. *)
Definition nk_calls : seq (build_call F) :=
  AddState 0%N [:: fault 1%N (N * e) None] [::] true
  :: [seq AddState i [:: fault i.+1 ((N - i%:R) * e) None]
            [:: recover i.-1 r None] false
     | i <- iota 1 R]
  ++ [:: AddTermState F R.+1].

(** [nk_fail_graph] *)
Definition nk_fail_graph : result (StateGraph F) := build nk_calls.

End NKModel.
(** * Properties *)

(** Linear arithmetic over the boolean comparisons of [ssrnat]. *)
Ltac nat_hyps :=
  repeat match goal with
  | H : is_true (leq _ _) |- _ => move/leP: H => H
  | H : is_true (~~ leq _ _) |- _ => move: H; rewrite -ltnNge => /leP H
  | H : leq _ _ = false |- _ =>
      move/negbT: H; rewrite -ltnNge => /leP H
  | H : is_true (@eq_op _ _ _) |- _ => move/eqP: H => H
  | H : is_true (~~ @eq_op _ _ _) |- _ => move/eqP: H => H
  end.

Ltac nat_goal :=
  match goal with
  | |- is_true (leq _ _) => apply/leP
  | |- is_true (@eq_op _ _ _) => apply/eqP
  | |- _ => idtac
  end.

Ltac natlia :=
  nat_hyps; nat_goal;
  rewrite -?plusE -?minusE -?multE; first [lia | exfalso; lia].

(** ** Dictionaries *)

Section DictFacts.

Variables (K : eqType) (V : Type).
Implicit Types (d : dict K V) (k : K) (v : V).

Lemma dget_dset d k v k' :
  dget (dset d k v) k' = if k == k' then Some v else dget d k'.
Proof. by []. Qed.

Lemma dget_mem d k : (k \in dkeys d) = isSome (dget d k).
Proof.
rewrite /dkeys mem_undup; elim: d => [|[k' v] d IH] //=.
by rewrite in_cons eq_sym; case: eqP.
Qed.

Lemma dfind_dget d k v : dfind d k = Ok v <-> dget d k = Some v.
Proof. by rewrite /dfind; case: (dget d k) => [w|]; split=> // -[->]. Qed.

Lemma dkeys_uniq d : uniq (dkeys d).
Proof. exact: undup_uniq. Qed.

End DictFacts.

(** ** Classification of the edges *)

Section Classification.

Variable F : fieldType.
Variable g : StateGraph F.
Variable level_map : dict (option Id) nat.

Lemma is_fault_minorE lvl (t : Transition F) tlvl :
  dget level_map (fault_target_key g t) = Some tlvl ->
  is_fault_minor g level_map lvl t =
    if (tlvl <= lvl)%N then Ok true
    else if tlvl == lvl.+1 then Ok false else Fail AssertionError.
Proof.
rewrite /is_fault_minor /fault_target_key /dfind => -> /=.
by case: (_ <= _)%N => //; case: (_ == _).
Qed.

Lemma is_recovery_minorE lvl (t : Transition F) tlvl :
  dget level_map (Some (target t)) = Some tlvl ->
  is_recovery_minor level_map lvl t =
    if (tlvl <= lvl)%N then Ok (tlvl < lvl)%N else Fail AssertionError.
Proof. by rewrite /is_recovery_minor /dfind => -> /=; case: (_ <= _)%N. Qed.

(** C6: seen from a node of level [lvl], a fault transition whose target
    has the level [tlvl] (the level of [None] when the target is a
    terminal id, the level of the target id otherwise) is minor exactly
    when [tlvl <= lvl], major exactly when [tlvl = lvl + 1], and the
    assertion fails for every other level; a recovery transition whose
    target id has the level [tlvl] is minor exactly when [tlvl < lvl],
    major exactly when [tlvl = lvl], and the assertion fails exactly when
    [tlvl > lvl].  Each half asks only for the level that its function
    reads. *)
Theorem edge_classification lvl (t : Transition F) :
  (forall ftlvl,
     dget level_map (fault_target_key g t) = Some ftlvl ->
     [/\ is_fault_minor g level_map lvl t = Ok true <-> (ftlvl <= lvl)%N,
         is_fault_minor g level_map lvl t = Ok false <-> ftlvl = lvl.+1
       & is_fault_minor g level_map lvl t = Fail AssertionError
           <-> (lvl.+1 < ftlvl)%N])
  /\ (forall rtlvl,
        dget level_map (Some (target t)) = Some rtlvl ->
        [/\ is_recovery_minor level_map lvl t = Ok true <-> (rtlvl < lvl)%N,
            is_recovery_minor level_map lvl t = Ok false <-> rtlvl = lvl
          & is_recovery_minor level_map lvl t = Fail AssertionError
              <-> (lvl < rtlvl)%N]).
Proof.
split=> [ftlvl /is_fault_minorE->|rtlvl /is_recovery_minorE->]; split.
- by case: (leqP ftlvl lvl) => _; [split | case: eqP => _; split].
- case: (leqP ftlvl lvl) => [le|lt]; first by split=> // E; move: le; rewrite E ltnn.
  by case: eqP => [->|ne]; split.
- case: (leqP ftlvl lvl) => [le|lt]; first by split=> // lt; natlia.
  case: eqP => [E|ne]; first by split=> //; rewrite E ltnn.
  by split=> // _; natlia.
- case: (leqP rtlvl lvl) => [le|lt]; last by split=> // lt'; natlia.
  by split=> [[]|->].
- case: (leqP rtlvl lvl) => [le|lt]; last by split=> // E; natlia.
  split=> [[/negbT]|->]; last by rewrite ltnn.
  by rewrite -leqNgt => ge; natlia.
- by case: (leqP rtlvl lvl) => [le|lt]; split=> // lt; natlia.
Qed.

End Classification.

(** The classification on the mirrored disk, at the node of level 1: its
    fault leads to the terminal id 2, whose level is the one of [None],
    2, and is major; its recovery leads to the root, of level 0, and is
    minor. *)
Lemma edge_classification_witness :
  let g := mirror_graph (1 : rat) 2%:R in
  let lm := [:: (None, 2%N); (Some 1%N, 1%N); (Some 0%N, 0%N)] in
  let tf := fault 2%N (1 : rat) None in
  let tr := recover 0%N (2%:R : rat) None in
  [/\ dget lm (fault_target_key g tf) = Some 2%N,
      is_fault_minor g lm 1 tf = Ok false <-> 2%N = 2%N,
      dget lm (Some (target tr)) = Some 0%N
    & is_recovery_minor lm 1 tr = Ok true <-> (0 < 1)%N].
Proof.
move=> g lm tf tr.
have [Hf _] := @edge_classification rat g lm 1%N tf.
have [_ Hr] := @edge_classification rat g lm 1%N tr.
have [_ H1 _] := Hf 2%N erefl.
have [H2 _ _] := Hr 0%N erefl.
by split.
Defined.

(** ** Ring and field identities over the rates *)

Section FieldTac.

Variable F : fieldType.

Lemma rate_ring_theory :
  @ring_theory F 0 1 +%R *%R (fun x y => x - y) -%R eq.
Proof.
split=> //.
- exact: add0r.
- exact: addrC.
- exact: addrA.
- exact: mul1r.
- exact: mulrC.
- exact: mulrA.
- exact: mulrDl.
- exact: subrr.
Qed.

Lemma rate_field_theory :
  @field_theory F 0 1 +%R *%R (fun x y => x - y) -%R (fun x y => x / y)
    GRing.inv eq.
Proof.
split=> //.
- exact: rate_ring_theory.
- by apply/eqP; rewrite oner_eq0.
- by move=> x /eqP nz; rewrite mulVf.
Qed.

(** The determinant of a matrix with two rows. *)
Lemma det_mx22 (A : 'M[F]_2) : \det A = A 0 0 * A 1 1 - A 0 1 * A 1 0.
Proof.
rewrite (expand_det_row _ ord0) !big_ord_recl big_ord0 addr0.
rewrite /cofactor !det_mx11 !mxE /=.
have -> : lift ord0 (0 : 'I_1) = 1 :> 'I_2 by apply/val_inj.
have -> : lift (1 : 'I_2) (0 : 'I_1) = 0 :> 'I_2 by apply/val_inj.
by rewrite /bump /= !addn0 expr0 expr1 mul1r mulN1r mulrN.
Qed.

End FieldTac.

(** ** The mirrored disk *)

Section MirroredDiskFacts.

Variable F : fieldType.
Variables e r : F.

Add Field rate_field : (rate_field_theory F).

Lemma mirror_build : build (mirror_calls e r) = Ok (mirror_graph e r).
Proof. by []. Qed.

Lemma mirror_states :
  get_states (mirror_graph e r) = Ok [:: mirror_root e; mirror_degraded e r].
Proof. by []. Qed.

Lemma mirror_matrix :
  transition_intensity_matrix (mirror_graph e r)
  = Ok [:: [:: - (0 + 2%:R * e); 2%:R * e]; [:: r; - (0 + e + r)]].
Proof. by []. Qed.

Lemma mirror_level_map :
  fault_level_map (mirror_graph e r)
  = Ok [:: (None, 2%N); (Some 1%N, 1%N); (Some 0%N, 0%N)].
Proof. by []. Qed.

Lemma two_sq_neq0 : 2%:R * e ^+ 2 != 0 -> e != 0 /\ 2%:R != 0 :> F.
Proof.
rewrite mulf_eq0 negb_or expf_eq0 /= => /andP[-> ->]; split=> //.
Qed.

(** C1: on the mirrored disk the exact mean time to first failure is
    (r + 3e) / (2e^2). *)
Theorem mirror_mttff_exact :
  2%:R * e ^+ 2 != 0 ->
  (let* g := build (mirror_calls e r) in mttff_exact g)
  = Ok ((r + 3%:R * e) / (2%:R * e ^+ 2)).
Proof.
move=> nz; rewrite mirror_build /= /mttff_exact mirror_matrix /=.
congr (Ok (_ / _)).
  rewrite /det /= det_mx22 !mxE /mget /=.
  by rewrite !mulrS mulr0n; ring.
rewrite /det /= det_mx22 !mxE /mget /= expr2.
by rewrite !mulrS mulr0n; ring.
Qed.

Lemma mirror_asymptotic_raw :
  mttff_asymptotic (mirror_graph e r)
  = Ok (1 / (0 + (0 + 1 * (2%:R * e) / (0 + r)) * e)).
Proof. by []. Qed.

(** C2: on the mirrored disk the asymptotic mean time to first failure is
    r / (2e^2), the inverse of the rate accumulated into the terminal
    state by the population 1 of the root. *)
Theorem mirror_mttff_asymptotic :
  r != 0 -> 2%:R * e ^+ 2 != 0 ->
  (let* g := build (mirror_calls e r) in mttff_asymptotic g)
  = Ok (r / (2%:R * e ^+ 2)).
Proof.
move=> r0 nz; rewrite mirror_build /= mirror_asymptotic_raw; congr Ok.
rewrite !add0r !mul1r expr2 -mulrA [r^-1 * e]mulrC !mulrA.
by rewrite [in LHS]invfM invrK mulrC.
Qed.

End MirroredDiskFacts.

Lemma mirror_mttff_exact_witness :
  2%:R * (1 : rat) ^+ 2 != 0
  /\ (let* g := build (mirror_calls 1 (2%:R : rat)) in mttff_exact g)
     = Ok ((2%:R + 3%:R * 1) / (2%:R * 1 ^+ 2)).
Proof. by split; [|apply: mirror_mttff_exact]; vm_compute. Defined.

Lemma mirror_mttff_asymptotic_witness :
  [/\ (2%:R : rat) != 0, 2%:R * (1 : rat) ^+ 2 != 0
    & (let* g := build (mirror_calls 1 (2%:R : rat)) in mttff_asymptotic g)
      = Ok (2%:R / (2%:R * 1 ^+ 2))].
Proof. by split; [| |apply: mirror_mttff_asymptotic]; vm_compute. Defined.

(** ** Construction *)

Section Construction.

Variable F : fieldType.
Implicit Types (g : StateGraph F) (i : Id).

Lemma add_term_state_ok g i g' :
  add_term_state g i = Ok g' -> i \notin dkeys (nodes g).
Proof. by rewrite /add_term_state; case: (_ \notin _). Qed.

Lemma add_term_state_rejects g i :
  i \in dkeys (nodes g) -> add_term_state g i = Fail AssertionError.
Proof. by rewrite /add_term_state => ->. Qed.

Lemma mem_set_add (K : eqType) (s : seq K) (x y : K) :
  (y \in set_add s x) = (y == x) || (y \in s).
Proof.
rewrite /set_add; case: ifP => xs; last by rewrite in_cons.
by case: eqP => // ->; rewrite xs.
Qed.

(** [add_term_state] keeps the two id spaces apart. *)
Lemma add_term_state_disjoint g i g' :
  disjoint_ids g -> add_term_state g i = Ok g' -> disjoint_ids g'.
Proof.
rewrite /add_term_state /disjoint_ids /assert; case: ifP => //= ni dis [<-] /=.
apply/allP=> k kin; rewrite mem_set_add negb_or (allP dis _ kin) andbT.
by apply: contraNneq ni => <-.
Qed.

(** [add_state] takes any id: nothing compares it with the terminal ids. *)
Lemma add_state_any_id g i fs :
  i \in term_nodes g ->
  exists2 g', add_state g i fs [::] false = Ok g'
            & (i \in dkeys (nodes g')) && (i \in term_nodes g').
Proof.
move=> it; eexists; first by [].
by rewrite /= it andbT dget_mem /= eqxx.
Qed.

(** C9 fails on the code: the second call gives the node map an id that
    the first call made terminal, and the run completes. *)
Theorem add_state_admits_terminal_id :
  exists g : StateGraph F,
    [/\ build [:: AddTermState F 2%N; AddState 2%N [::] [::] false] = Ok g,
        2%N \in dkeys (nodes g), 2%N \in term_nodes g
      & disjoint_ids g = false].
Proof. by eexists; split; first by []. Qed.

(** The graphs that the interface builds store every node under its
    id. *)
Lemma run_call_keyed c g g' :
  keyed_by_id g -> run_call c g = Ok g' -> keyed_by_id g'.
Proof.
case: c => [i fs rs is_root|i] kd /=.
  rewrite /add_state; case: is_root; last by case=> <-; rewrite /keyed_by_id /= eqxx.
  rewrite /assert; case: (~~ _) => //=; case: (nilp rs) => //= -[<-].
  by rewrite /keyed_by_id /= eqxx.
by rewrite /add_term_state /assert; case: (_ \notin _) => //= -[<-].
Qed.

Lemma build_keyed cs g : build cs = Ok g -> keyed_by_id g.
Proof.
rewrite /build; have: keyed_by_id (@empty_graph F) by [].
elim: cs empty_graph => [|c cs IH] g0 kd /=; first by case=> <-.
by case E: (run_call c g0) => [g1|] //=; apply: IH; apply: run_call_keyed E.
Qed.

End Construction.

(** ** The transition intensity matrix *)

Section MatrixFacts.

Variable F : fieldType.
Implicit Types (M : matrix F) (g : StateGraph F) (ns : seq (State F)).

(** A matrix with [n] rows of [n] entries. *)
Definition square (n : nat) M : bool :=
  (size M == n) && all (fun row => size row == n) M.

Lemma square_zeros n : square n (zeros F n).
Proof.
rewrite /square /zeros size_nseq eqxx /=.
by apply/allP=> row /nseqP[-> _]; rewrite size_nseq.
Qed.

Lemma square_row n M i : square n M -> (i < n)%N -> size (nth [::] M i) = n.
Proof.
case/andP=> /eqP sz /allP rows lt; apply/eqP/rows/mem_nth.
by rewrite sz.
Qed.

Lemma mset_ok n M i j v :
  square n M -> (i < n)%N -> (j < n)%N ->
  exists2 M', mset M i j v = Ok M' & square n M'.
Proof.
move=> sq li lj; have [/eqP sz /allP rows] := andP sq.
rewrite /mset sz li (square_row sq li) lj /=; eexists; first by [].
rewrite /square size_set_nth sz (maxn_idPr _) // eqxx /=.
apply/allP=> row /(nthP [::])[k]; rewrite size_set_nth sz (maxn_idPr _) //.
move=> lk <-; rewrite nth_set_nth /=; case: (k =P i) => [_|_].
  by rewrite size_set_nth (square_row sq li) (maxn_idPr _).
by rewrite (square_row sq lk).
Qed.

Lemma mset_square n M i j v M' :
  square n M -> mset M i j v = Ok M' ->
  [/\ (i < n)%N, (j < n)%N & square n M'].
Proof.
move=> sq E; have [/eqP sz _] := andP sq.
have li : (i < n)%N by move: E; rewrite /mset sz; case: (i < n)%N.
have lj : (j < n)%N.
  by move: E; rewrite /mset sz li (square_row sq li) /=; case: (j < n)%N.
have [M'' E' sq'] := mset_ok v sq li lj.
by move: E' sq'; rewrite E => -[<-].
Qed.

Lemma mget_mset M i j v M' i' j' :
  mset M i j v = Ok M' ->
  mget M' i' j' = if (i' == i) && (j' == j) then v else mget M i' j'.
Proof.
rewrite /mset; case: ifP => // _ [<-]; rewrite /mget nth_set_nth /=.
by case: eqP => [->|] //=; rewrite nth_set_nth /=.
Qed.

Lemma mget_zeros n i j : mget (zeros F n) i j = 0.
Proof.
rewrite /mget /zeros nth_nseq; case: ifP => _; last by rewrite nth_nil.
by rewrite nth_nseq; case: ifP.
Qed.

(** The rate a list of stores leaves in column [j]: the last one stored
    there, or what the column held. *)
Definition col_last (nm : dict Id nat) (j : nat) (old : F)
    (ws : seq (Transition F)) : F :=
  last old [seq rate x | x <- ws & dget nm (target x) == Some j].

Lemma col_last_cons nm j old x ws :
  col_last nm j old (x :: ws)
  = col_last nm j (if dget nm (target x) == Some j then rate x else old) ws.
Proof. by rewrite /col_last /=; case: ifP. Qed.

Lemma col_last_cat nm j old ws1 ws2 :
  col_last nm j old (ws1 ++ ws2) = col_last nm j (col_last nm j old ws1) ws2.
Proof. by rewrite /col_last filter_cat map_cat last_cat. Qed.

Section Row.

Variables (g : StateGraph F) (nm : dict Id nat) (n i : nat).

Lemma tim_fault_fold xs tot M tot' M' :
  square n M ->
  foldM (tim_fault g nm i) xs (tot, M) = Ok (tot', M') ->
  [/\ square n M', tot' = tot + \sum_(x <- xs) rate x
    & forall i' j',
        mget M' i' j'
        = if i' == i then
            col_last nm j' (mget M i j')
              [seq x <- xs | target x \notin term_nodes g]
          else mget M i' j'].
Proof.
elim: xs tot M => [|x xs IH] tot M sq /=.
  case=> <- <-; split=> //; first by rewrite big_nil addr0.
  by move=> i' j'; case: eqP => [->|].
rewrite {1}/tim_fault /=; case: ifP => nt /=.
  case E: (dfind nm (target x)) => [j|] //=.
  case E2: (mset M i j (rate x)) => [M1|] //= /IH.
  have [li lj sq1] := mset_square sq E2 => /(_ sq1) [sq' -> H].
  split=> //; first by rewrite big_cons addrA.
  move=> i' j'; rewrite H !(mget_mset _ _ E2) eqxx /= col_last_cons.
  move/dfind_dget: E => ->; rewrite (inj_eq Some_inj) [j == j']eq_sym ?eqxx.
  by case: eqP => // ->.
move/(IH _ _ sq) => [sq' -> H]; split=> //.
by rewrite big_cons addrA.
Qed.

Lemma tim_recover_fold xs tot M tot' M' :
  square n M ->
  foldM (tim_recover nm i) xs (tot, M) = Ok (tot', M') ->
  [/\ square n M', tot' = tot + \sum_(x <- xs) rate x
    & forall i' j',
        mget M' i' j'
        = if i' == i then col_last nm j' (mget M i j') xs
          else mget M i' j'].
Proof.
elim: xs tot M => [|x xs IH] tot M sq /=.
  case=> <- <-; split=> //; first by rewrite big_nil addr0.
  by move=> i' j'; case: eqP => [->|].
rewrite {1}/tim_recover /=.
case E: (dfind nm (target x)) => [j|] //=.
case E2: (mset M i j (rate x)) => [M1|] //= /IH.
have [li lj sq1] := mset_square sq E2 => /(_ sq1) [sq' -> H].
split=> //; first by rewrite big_cons addrA.
move=> i' j'; rewrite H !(mget_mset _ _ E2) eqxx /= col_last_cons.
move/dfind_dget: E => ->; rewrite (inj_eq Some_inj) [j == j']eq_sym ?eqxx.
by case: eqP => // ->.
Qed.

(** The entry a row is left with. *)
Definition row_value (st : State F) (old : F) (j : nat) : F :=
  if j == i then - total_rate st else col_last nm j old (written g st).

Lemma tim_row_spec st M M' :
  square n M -> tim_row g nm (i, st) M = Ok M' ->
  [/\ square n M', (i < n)%N
    & forall i' j',
        mget M' i' j'
        = if i' == i then row_value st (mget M i j') j' else mget M i' j'].
Proof.
move=> sq; rewrite /tim_row /=.
case E1: (foldM _ _ _) => [[tot1 M1]|] //=.
case E2: (foldM _ _ _) => [[tot2 M2]|] //= E3.
have [sq1 t1 H1] := tim_fault_fold sq E1.
have [sq2 t2 H2] := tim_recover_fold sq1 E2.
have [li _ sq'] := mset_square sq2 E3; split=> // i' j'.
rewrite (mget_mset _ _ E3) /row_value; case: (i' =P i) => [->|/eqP ne] /=.
  case: eqP => [_|_].
    by rewrite t2 t1 add0r /total_rate big_cat.
  by rewrite H2 eqxx H1 eqxx /written col_last_cat.
by rewrite H2 (negbTE ne) H1 (negbTE ne).
Qed.

End Row.

Notation st0 := (@State0 F).

Lemma tim_rows g nm n k (l : seq (State F)) M M' :
  square n M ->
  foldM (tim_row g nm) (zip (iota k (size l)) l) M = Ok M' ->
  square n M'
  /\ forall i j,
       mget M' i j
       = if (k <= i < k + size l)%N then
           row_value g nm i (nth st0 l (i - k)) (mget M i j) j
         else mget M i j.
Proof.
elim: l k M => [|st l IH] k M sq /=.
  by case=> <-; split=> // i j; rewrite addn0 leqNgt andNb.
case E: (tim_row g nm (k, st) M) => [M1|] //=.
have [sq1 lk H1] := tim_row_spec sq E => /(IH _ _ sq1) [sq' H].
split=> // i j; rewrite H H1 addnS -addSn.
case: (ltngtP k i) => [lt|gt|E'] /=.
- case: ifP => // _.
  by have ->: (i - k = (i - k.+1).+1)%N by natlia.
- by [].
- by rewrite -E' addSn ltnS leq_addr subnn.
Qed.

Lemma tim_entries g ns M :
  get_states g = Ok ns -> transition_intensity_matrix g = Ok M ->
  square (size ns) M
  /\ forall i j, (i < size ns)%N ->
       mget M i j = row_value g (nodes_map ns) i (nth st0 ns i) 0 j.
Proof.
rewrite /transition_intensity_matrix => -> /= /(tim_rows (square_zeros _)).
case=> sq H; split=> // i j li.
by rewrite H add0n li /= subn0 mget_zeros.
Qed.

(** [nodes_map] sends an id to the last position that holds it. *)
Lemma dget_foldl_index (ps : seq (nat * State F)) (d : dict Id nat) k :
  dget (foldl (fun d p => dset d (id p.2) p.1) d ps) k
  = foldl (fun acc p => if id p.2 == k then Some p.1 else acc) (dget d k) ps.
Proof. by elim: ps d => [|p ps IH] d //=; rewrite IH. Qed.

Lemma foldl_index_uniq (l : seq (State F)) s acc k :
  uniq [seq id n | n <- l] ->
  foldl (fun acc p => if id p.2 == k then Some p.1 else acc) acc
    (zip (iota s (size l)) l)
  = if k \in [seq id n | n <- l] then
      Some (s + index k [seq id n | n <- l])%N
    else acc.
Proof.
elim: l s acc => [|a l IH] s acc //= /andP[na ul].
rewrite IH // in_cons [k == _]eq_sym; case: eqP => [<-|_] /=.
  by rewrite (negbTE na) addn0.
by rewrite addSnnS.
Qed.

Lemma dget_nodes_map ns k :
  uniq [seq id n | n <- ns] ->
  dget (nodes_map ns) k
  = if k \in [seq id n | n <- ns] then Some (index k [seq id n | n <- ns])
    else None.
Proof.
by move=> u; rewrite /nodes_map /enumerate dget_foldl_index foldl_index_uniq.
Qed.

Lemma nodes_map_column ns k j :
  uniq [seq id n | n <- ns] -> (j < size ns)%N ->
  (dget (nodes_map ns) k == Some j) = (k == id (nth st0 ns j)).
Proof.
move=> u lj; rewrite dget_nodes_map // -(nth_map _ 0%N) //.
case: ifP => [kin|/negbT kn].
  rewrite (inj_eq Some_inj); apply/eqP/eqP => [<-|->]; first by rewrite nth_index.
  by rewrite index_uniq // size_map.
by symmetry; apply: contraNF kn => /eqP->; rewrite mem_nth // size_map.
Qed.

Lemma col_last_written_to g ns n j old :
  uniq [seq id n | n <- ns] -> (j < size ns)%N ->
  col_last (nodes_map ns) j old (written g n)
  = last old [seq rate x | x <- written_to g n (nth st0 ns j)].
Proof.
move=> u lj; rewrite /col_last /written_to; congr (last _ (map _ _)).
by apply: eq_filter => x; rewrite nodes_map_column.
Qed.

End MatrixFacts.

(** ** The order of the states *)

Section StatesFacts.

Variable F : fieldType.
Implicit Types (g : StateGraph F) (d : dict Id (State F)).

Lemma keyed_dget d k v :
  all (fun p => id p.2 == p.1) d -> dget d k = Some v -> id v = k.
Proof.
elim: d => [|[k' v'] d IH] //= /andP[/eqP E /IH H].
by case: eqP => [<- [<-]|_ /H].
Qed.

Lemma ids_dvalues d :
  all (fun p => id p.2 == p.1) d -> [seq id n | n <- dvalues d] = dkeys d.
Proof.
move=> kd; rewrite /dvalues.
have: {subset dkeys d <= dkeys d} by [].
elim: {1 3 4}(dkeys d) => [|k s IH] //= sub.
have: k \in dkeys d by apply: sub; rewrite mem_head.
rewrite dget_mem; case E: (dget d k) => [v|] //= _.
rewrite (keyed_dget kd E) IH // => x xs; apply: sub.
by rewrite in_cons xs orbT.
Qed.

Lemma dget_dvalues d k v : dget d k = Some v -> v \in dvalues d.
Proof.
move=> E; rewrite /dvalues mem_pmap; apply/mapP; exists k => //.
by rewrite dget_mem E.
Qed.

Lemma id_leq_total : total (fun a b : State F => (id a <= id b)%N).
Proof. by move=> a b; exact: leq_total. Qed.

Lemma id_leq_trans : transitive (fun a b : State F => (id a <= id b)%N).
Proof. by move=> a b c; exact: leq_trans. Qed.

(** On a well-formed graph [get_states] lists every stored node once: the
    root, then the others by increasing id. *)
Lemma get_states_wf g :
  well_formed g ->
  exists r rest,
    [/\ root g = Some r, get_states g = Ok (r :: rest),
        perm_eq (r :: rest) (dvalues (nodes g)),
        perm_eq [seq id n | n <- r :: rest] (dkeys (nodes g))
      & sorted ltn [seq id n | n <- rest]].
Proof.
case/and4P=> kd uo rs tk; move: rs; rewrite /root_stored /get_states.
case: (root g) => [r|] // /eqP rs; exists r.
set srt := sort _ _; set rest := filter _ _; exists rest.
have psrt : perm_eq srt (dvalues (nodes g)) by rewrite perm_sort.
have usrt : uniq [seq oid n | n <- srt] by rewrite (perm_uniq (perm_map _ psrt)).
have rin : r \in srt by rewrite (perm_mem psrt) (dget_dvalues rs).
have restE : rest = rem r srt.
  rewrite rem_filter ?(map_uniq usrt) //; apply: eq_in_filter => n nin /=.
  by rewrite (inj_in_eq (uniq_map_inj_in usrt)).
have pall : perm_eq (r :: rest) (dvalues (nodes g)).
  by apply: perm_trans psrt; rewrite restE perm_sym perm_to_rem.
have pids : perm_eq [seq id n | n <- r :: rest] (dkeys (nodes g)).
  by rewrite -(ids_dvalues kd) perm_map.
split=> //; rewrite ltn_sorted_uniq_leq; apply/andP; split.
  have := dkeys_uniq (nodes g); rewrite -(perm_uniq pids) /=.
  by case/andP.
rewrite sorted_map; apply: sorted_filter; first exact: id_leq_trans.
exact/sort_sorted/id_leq_total.
Qed.

Lemma get_states_uniq g ns :
  well_formed g -> get_states g = Ok ns -> uniq [seq id n | n <- ns].
Proof.
move=> /get_states_wf[r [rest [_ -> _ pids _]]] [<-].
by rewrite (perm_uniq pids) dkeys_uniq.
Qed.

End StatesFacts.

(** ** The matrix of a well-formed graph *)

Section MatrixSpec.

Variable F : fieldType.
Implicit Types (M : matrix F) (g : StateGraph F) (ns : seq (State F)).

Notation st0 := (@State0 F).

(** The target of [x] has a column among the [n] first ones. *)
Definition resolved (nm : dict Id nat) (n : nat) (x : Transition F) : bool :=
  if dget nm (target x) is Some j then (j < n)%N else false.

Lemma tim_fault_total g nm n i xs tot M :
  square n M -> (i < n)%N ->
  all (fun x => (target x \in term_nodes g) || resolved nm n x) xs ->
  exists st, foldM (tim_fault g nm i) xs (tot, M) = Ok st /\ square n st.2.
Proof.
move=> + li; elim: xs tot M => [|x xs IH] tot M sq /=; first by eexists.
case/andP=> rx /IH {}IH; rewrite {1}/tim_fault /=.
case: ifP rx => [/negbTE-> /=|_ _]; last exact: IH.
rewrite /resolved /dfind; case: (dget nm _) => [j|] //= lj.
by have [M1 -> /= sq1] := mset_ok (rate x) sq li lj; exact: IH.
Qed.

Lemma tim_recover_total nm n i xs tot M :
  square n M -> (i < n)%N -> all (resolved nm n) xs ->
  exists st, foldM (tim_recover nm i) xs (tot, M) = Ok st /\ square n st.2.
Proof.
move=> + li; elim: xs tot M => [|x xs IH] tot M sq /=; first by eexists.
case/andP=> rx /IH {}IH; rewrite {1}/tim_recover /=.
move: rx; rewrite /resolved /dfind; case: (dget nm _) => [j|] //= lj.
by have [M1 -> /= sq1] := mset_ok (rate x) sq li lj; exact: IH.
Qed.

(** Every transition of [st] that is stored has a column. *)
Definition row_resolved g nm n (st : State F) : bool :=
  all (fun x => (target x \in term_nodes g) || resolved nm n x) (faults st)
  && all (resolved nm n) (recovers st).

Lemma tim_row_total g nm n i st M :
  square n M -> (i < n)%N -> row_resolved g nm n st ->
  exists2 M', tim_row g nm (i, st) M = Ok M' & square n M'.
Proof.
move=> sq li /andP[rf rr]; rewrite /tim_row /=.
have [[t1 M1] [-> /= sq1]] := tim_fault_total 0 sq li rf.
have [[t2 M2] [-> /= sq2]] := tim_recover_total t1 sq1 li rr.
exact: mset_ok.
Qed.

Lemma tim_rows_total g nm n k (l : seq (State F)) M :
  square n M -> (k + size l <= n)%N -> all (row_resolved g nm n) l ->
  exists M', foldM (tim_row g nm) (zip (iota k (size l)) l) M = Ok M'.
Proof.
elim: l k M => [|st l IH] k M sq /=; first by eexists.
rewrite addnS => lt /andP[rs ra].
have lk : (k < n)%N by apply: leq_trans lt; rewrite ltnS leq_addr.
have [M1 -> /= sq1] := tim_row_total sq lk rs.
by apply: IH => //; rewrite addSn.
Qed.

Lemma wf_row_resolved g ns :
  well_formed g -> get_states g = Ok ns ->
  all (row_resolved g (nodes_map ns) (size ns)) ns.
Proof.
move=> wf E; have u := get_states_uniq wf E.
have [r [rest [_]]] := get_states_wf wf; rewrite E => -[<-] pall pids _.
have res x : target x \in dkeys (nodes g) -> resolved (nodes_map ns) (size ns) x.
  rewrite -(perm_mem pids) /resolved dget_nodes_map // => tin.
  by rewrite tin; move: tin; rewrite -index_mem size_map.
case/and4P: wf => _ _ _ /allP tk; apply/allP=> n nin.
have /tk/andP[tf tr] : n \in dvalues (nodes g) by rewrite -(perm_mem pall).
apply/andP; split; apply/allP=> x xin.
  by case/orP: (allP tf _ xin) => [->|/res->] //; rewrite orbT.
exact/res/(allP tr).
Qed.

Lemma tim_wf_total g ns :
  well_formed g -> get_states g = Ok ns ->
  exists M, transition_intensity_matrix g = Ok M.
Proof.
move=> wf E; rewrite /transition_intensity_matrix E /=.
apply: tim_rows_total (square_zeros _ _) _ (wf_row_resolved wf E).
by rewrite add0n.
Qed.

Lemma tim_entry g ns M i j :
  uniq [seq id n | n <- ns] ->
  get_states g = Ok ns -> transition_intensity_matrix g = Ok M ->
  (i < size ns)%N -> (j < size ns)%N ->
  mget M i j = generator_entry g ns i j.
Proof.
move=> u E EM li lj; have [_ ->//] := tim_entries E EM.
rewrite /row_value /generator_entry eq_sym; case: eqP => // _.
exact: col_last_written_to.
Qed.

(** C4: on a well-formed graph the matrix is built; it is square, its
    rows and columns follow [get_states] (the root, then the other stored
    nodes by increasing id), its diagonal holds the negated sums of the
    rates leaving the states, and the entry of row [i] and column [j] is a
    rate of a transition of state [i] stored for state [j], the last one
    stored, or zero when there is none; the rate of a fault to a terminal
    id is stored nowhere.  On the mirrored disk the matrix is
    [[-2e, 2e], [r, -(e + r)]]. *)
Theorem transition_intensity_matrix_spec :
  (forall g, well_formed g ->
     exists r rest M,
       let ns := r :: rest in
       [/\ root g = Some r, get_states g = Ok ns,
           perm_eq [seq id n | n <- ns] (dkeys (nodes g))
         & sorted ltn [seq id n | n <- rest]]
       /\ [/\ transition_intensity_matrix g = Ok M, square (size ns) M
            & forall i j, (i < size ns)%N -> (j < size ns)%N ->
                mget M i j = generator_entry g ns i j])
  /\ (forall e r : F,
        (let* g := build (mirror_calls e r) in transition_intensity_matrix g)
        = Ok [:: [:: - (2%:R * e); 2%:R * e]; [:: r; - (e + r)]]).
Proof.
split=> [g wf|e r]; last by rewrite mirror_build /= mirror_matrix !add0r.
have [r [rest [rE E pall pids srt]]] := get_states_wf wf.
have [M EM] := tim_wf_total wf E; exists r, rest, M => /=.
split=> //; split=> // [|i j li lj]; first by have [] := tim_entries E EM.
exact: (tim_entry (get_states_uniq wf E)).
Qed.

(** C10: when two or more transitions of the state of row [i] are stored
    for the state of column [j], another one, the entry holds the rate of
    the last of them in the order faults then recoveries, and the diagonal
    entry of the row is still the negated sum of all the rates leaving the
    state. *)
Theorem duplicate_target_keeps_last g ns M i j :
  uniq [seq id n | n <- ns] ->
  get_states g = Ok ns -> transition_intensity_matrix g = Ok M ->
  (i < size ns)%N -> (j < size ns)%N -> i != j ->
  let n := nth st0 ns i in
  let hits := written_to g n (nth st0 ns j) in
  (1 < size hits)%N ->
  mget M i j = rate (last Transition0 hits)
  /\ mget M i i = - total_rate n.
Proof.
move=> u E EM li lj ne n hits sz.
rewrite !(tim_entry u E EM) // /generator_entry (negbTE ne) eqxx; split=> //.
rewrite -/n -/hits; case: hits sz => [|x hits] //= _.
by rewrite last_map.
Qed.

End MatrixSpec.

Lemma double_graph_build (F : fieldType) (a b c : F) :
  build [:: AddState 0%N [:: fault 1%N a None; fault 1%N b None] [::] true;
            AddState 1%N [:: fault 2%N c None] [::] false;
            AddTermState F 2%N]
  = Ok (double_graph a b c).
Proof. by []. Qed.

(** Two faults of rates [a] and [b] from the root to the same node leave
    [b] in the matrix, not [a + b], next to the diagonal [-(a + b)]. *)
Lemma double_graph_matrix (F : fieldType) (a b c : F) :
  transition_intensity_matrix (double_graph a b c)
  = Ok [:: [:: - (a + b); b]; [:: 0; - c]].
Proof.
by rewrite /transition_intensity_matrix /= /tim_row /= !add0r.
Qed.

Lemma transition_intensity_matrix_spec_witness :
  well_formed (mirror_graph (1 : rat) 2%:R)
  /\ exists M, transition_intensity_matrix (mirror_graph (1 : rat) 2%:R) = Ok M.
Proof.
split; first by [].
have [H _] := transition_intensity_matrix_spec rat.
have [r [rest [M [_ [EM _ _]]]]] := H (mirror_graph 1 2%:R) isT.
by exists M.
Defined.

Lemma duplicate_target_keeps_last_witness :
  let g := double_graph (1 : rat) 2%:R 3%:R in
  let ns := [:: double_root 1 2%:R; double_next 3%:R] in
  [/\ uniq [seq id n | n <- ns], get_states g = Ok ns
    & (1 < size (written_to g (nth State0 ns 0) (nth State0 ns 1)))%N]
  /\ exists M,
       [/\ transition_intensity_matrix g = Ok M, mget M 0 1 = 2%:R
         & mget M 0 0 = - total_rate (double_root 1 2%:R)].
Proof.
move=> g ns; split; first by [].
exists [:: [:: - ((1 : rat) + 2%:R); 2%:R]; [:: 0; - 3%:R]].
have EM := double_graph_matrix (1 : rat) 2%:R 3%:R.
have [] := @duplicate_target_keeps_last rat g ns _ 0%N 1%N isT erefl EM isT isT isT isT.
by [].
Defined.

(** ** The exact mean time to first failure and the hitting times *)

Section Exact.

Variable F : fieldType.
Implicit Types (M : matrix F) (g : StateGraph F).

Lemma set_col0_ones_range n k m M :
  square n M -> (0 < n)%N -> (k + m <= n)%N ->
  exists M1,
    [/\ foldM (fun i M' => mset M' i 0%N 1) (iota k m) M = Ok M1, square n M1
      & forall i j,
          mget M1 i j
          = if (k <= i < k + m)%N && (j == 0%N) then 1 else mget M i j].
Proof.
move=> + n0; elim: m k M => [|m IH] k M sq /=.
  by exists M; split=> // i j; rewrite addn0 leqNgt andNb.
rewrite addnS => lt.
have lk : (k < n)%N by apply: leq_trans lt; rewrite ltnS leq_addr.
have [M' E sq'] := mset_ok 1 sq lk n0; rewrite E /=.
have [|M1 [-> sq1 H]] := IH k.+1 M' sq'; first by rewrite addSn.
exists M1; split=> // i j; rewrite H (mget_mset _ _ E) addSn.
case: (ltngtP k i) => [lt'|gt|<-] //=.
by rewrite ltnS leq_addr.
Qed.

Lemma set_col0_onesP n M :
  square n M -> (0 < n)%N ->
  exists M1,
    [/\ set_col0_ones M = Ok M1, size M1 = n
      & forall i j, (i < n)%N ->
          mget M1 i j = if j == 0%N then 1 else mget M i j].
Proof.
move=> sq n0; have /eqP sz : size M == n by case/andP: sq.
have [|M1 [E sq1 H]] := @set_col0_ones_range n 0 n M sq n0; first by [].
exists M1; rewrite /set_col0_ones sz; split=> // [|i j li].
  by case/andP: sq1 => /eqP.
by rewrite H add0n li.
Qed.

Lemma det_mx_of m n M : m = n -> \det (mx_of m M) = \det (mx_of n M).
Proof. by move=> ->. Qed.

(** The matrix whose column [j0] is made of ones. *)
Definition ones_col n (j0 : 'I_n) (A : 'M[F]_n) : 'M[F]_n :=
  \matrix_(i, j) if j == j0 then 1 else A i j.

Lemma cofactor_ones_col n (j0 : 'I_n) (A : 'M[F]_n) i :
  cofactor (ones_col j0 A) i j0 = cofactor A i j0.
Proof.
rewrite /cofactor; congr (_ * \det _).
apply/matrixP=> a b; rewrite !mxE.
by rewrite eq_sym (negbTE (neq_lift _ _)).
Qed.

(** Cramer's rule for the right-hand side made of [-1]. *)
Lemma cramer_ones n (j0 : 'I_n) (A : 'M[F]_n) (h : 'cV[F]_n) :
  A *m h = const_mx (-1) ->
  \det A * h j0 0 = - \det (ones_col j0 A).
Proof.
move=> E.
have : (\adj A *m A *m h) j0 0 = (\adj A *m (const_mx (-1) : 'cV_n)) j0 0.
  by rewrite -mulmxA E.
rewrite mul_adj_mx mul_scalar_mx !mxE => ->.
rewrite (expand_det_col (ones_col j0 A) j0) -sumrN.
apply: eq_bigr => i _.
by rewrite !mxE eqxx mul1r mulrN1 cofactor_ones_col.
Qed.

(** C3: when the determinant of the transition intensity matrix [M] is
    not zero, the system [M h = -1] has one solution [h], and
    [mttff_exact] returns its component at the root, which is the first
    state. *)
Theorem mttff_exact_hitting_time g M :
  transition_intensity_matrix g = Ok M -> det M != 0 ->
  (0 < size M)%N
  /\ exists h : 'cV[F]_(size M),
       [/\ mx_of (size M) M *m h = const_mx (-1),
           forall h' : 'cV[F]_(size M),
             mx_of (size M) M *m h' = const_mx (-1) -> h' = h
         & forall i0 : 'I_(size M), i0 = 0%N :> nat ->
             mttff_exact g = Ok (h i0 0)].
Proof.
move=> EM nz.
have [ns Ens] : exists ns, get_states g = Ok ns.
  by move: EM; rewrite /transition_intensity_matrix; case: (get_states g) => // ns; exists ns.
have [sq _] := tim_entries Ens EM.
have /eqP sz : size M == size ns by case/andP: sq.
have n0 : (0 < size M)%N.
  by rewrite sz; move: Ens; rewrite /get_states; case: (root g) => // r [<-].
split=> //; rewrite -sz in sq.
set A := mx_of (size M) M.
have uA : A \in unitmx by rewrite unitmxE unitfE.
exists (invmx A *m const_mx (-1)); split.
- by rewrite mulKVmx.
- by move=> h' <-; rewrite mulKmx.
move=> i0 i00; set h := invmx A *m _.
have Eh : A *m h = const_mx (-1) by rewrite mulKVmx.
have [M1 [E1 sz1 H1]] := set_col0_onesP sq n0.
rewrite /mttff_exact EM /= E1 /=; congr Ok.
have -> : det M1 = \det (ones_col i0 A).
  rewrite /det (det_mx_of M1 sz1); congr (\det _).
  apply/matrixP=> i j; rewrite !mxE H1 // -(inj_eq val_inj) /= i00.
  by [].
have -> : det M = \det A by [].
by rewrite -(cramer_ones i0 Eh) mulrAC divff // mul1r.
Qed.

End Exact.

Lemma mttff_exact_hitting_time_witness :
  let g := mirror_graph (1 : rat) 2%:R in
  exists M,
    [/\ transition_intensity_matrix g = Ok M, det M != 0 & (0 < size M)%N].
Proof.
move=> g.
exists [:: [:: - (0 + 2%:R * (1 : rat)); 2%:R * 1]; [:: 2%:R; - (0 + 1 + 2%:R)]].
have EM := mirror_matrix (1 : rat) 2%:R.
have nz : det [:: [:: - (0 + 2%:R * (1 : rat)); 2%:R * 1];
                  [:: 2%:R; - (0 + 1 + 2%:R)]] != 0.
  by rewrite /det det_mx22 !mxE /mget /=; vm_compute.
by have [n0 _] := mttff_exact_hitting_time EM nz.
Defined.

(** ** The traversal along the faults *)

Section Traversal.

Variable F : fieldType.

Notation item := (option (State F) * nat)%type.

Section Queue.

Variables (S : Type) (cb : option (State F) -> nat -> S -> result S).
Variable g : StateGraph F.

(** The loop of [visit_nodes] on what it still has to read. *)
Fixpoint visit_queue (fuel : nat) (q : seq item) (visited : seq (option Id))
    (s : S) : result (seq (option Id) * S) :=
  match q with
  | [::] => Ok (visited, s)
  | (n, lvl) :: q' =>
    match fuel with
    | 0%N => Fail OutOfFuel
    | fuel'.+1 =>
      if node_key n \in visited then visit_queue fuel' q' visited s
      else
        let* s' := cb n lvl s in
        let* succ := (if n is Some m then fault_successors g m lvl
                      else Ok [::]) in
        visit_queue fuel' (q' ++ succ) (node_key n :: visited) s'
    end
  end.

Lemma drop_next (T : Type) (s t : seq T) n x q :
  drop n s = x :: q -> drop n.+1 (s ++ t) = q ++ t.
Proof.
move=> E; have lt : (n < size s)%N.
  by rewrite ltnNge; apply/negP=> /drop_oversize; rewrite E.
by rewrite -add1n -drop_drop drop_cat lt E /= drop0.
Qed.

Lemma visit_loop_queue fuel discovered next visited s :
  visit_loop cb g fuel discovered next visited s
  = visit_queue fuel (drop next discovered) visited s.
Proof.
elim: fuel discovered next visited s => [|fuel IH] discovered next visited s /=.
  by case: (drop _ _) => [|[n lvl] q].
case E: (drop _ _) => [|[n lvl] q] //.
case: ifP => [_|/negbT nv].
  by rewrite IH -[discovered]cats0 (drop_next _ E) cats0.
case: (cb n lvl s) => //= s'.
case: (if n is Some m then _ else _) => //= succ.
by rewrite IH (drop_next _ E) /set_add (negbTE nv).
Qed.

End Queue.

(** The callback that lists the visited nodes with their levels. *)
Definition record_visit (n : option (State F)) (lvl : nat) (acc : seq item)
  : result (seq item) :=
  Ok (rcons acc (n, lvl)).

(** The nodes that [visit_nodes] hands to its callback, in the order of
    the calls. *)
Definition visit_order (g : StateGraph F) : result (seq item) :=
  visit_nodes record_visit g [::].

Section Fold.

Variables (S : Type) (cb : option (State F) -> nat -> S -> result S).
Variable g : StateGraph F.

Definition on_item (p : item) (s : S) : result S := cb p.1 p.2 s.

Lemma visit_queue_fold fuel q visited acc v l s :
  visit_queue record_visit g fuel q visited acc = Ok (v, l) ->
  exists2 l', l = acc ++ l'
    & visit_queue cb g fuel q visited s
      = let* s' := foldM on_item l' s in Ok (v, s').
Proof.
elim: fuel q visited acc s => [|fuel IH] [|[n lvl] q] visited acc s //=.
- by case=> -> ->; exists [::]; rewrite ?cats0.
- by case=> -> ->; exists [::]; rewrite ?cats0.
case: ifP => _; first exact: IH.
case: (if n is Some m then _ else _) => //= succ.
rewrite /record_visit /= => /IH H.
case E: (cb n lvl s) => [s'|e] /=.
  have [l' -> ->] := H s'; exists ((n, lvl) :: l'); first by rewrite -cats1 -catA.
  by rewrite /= /on_item /= E.
have [l' -> _] := H s; exists ((n, lvl) :: l'); first by rewrite -cats1 -catA.
by rewrite /= /on_item /= E.
Qed.

Lemma visit_queue_order fuel q visited acc v s s' :
  visit_queue cb g fuel q visited s = Ok (v, s') ->
  exists l, visit_queue record_visit g fuel q visited acc = Ok (v, acc ++ l).
Proof.
elim: fuel q visited acc s => [|fuel IH] [|[n lvl] q] visited acc s //=.
- by case=> -> _; exists [::]; rewrite cats0.
- by case=> -> _; exists [::]; rewrite cats0.
case: ifP => _; first exact: IH.
case: (cb n lvl s) => //= s1.
case: (if n is Some m then _ else _) => //= succ.
move/(IH _ _ (rcons acc (n, lvl))) => [l ->].
by exists ((n, lvl) :: l); rewrite -cats1 -catA.
Qed.

(** [visit_nodes] runs its callback over the visit order. *)
Lemma visit_nodes_fold l s :
  visit_order g = Ok l -> visit_nodes cb g s = foldM on_item l s.
Proof.
rewrite /visit_order /visit_nodes !visit_loop_queue.
case E: (visit_queue record_visit _ _ _ _ _) => [[v l1]|] //.
have [l' /= El ->] := visit_queue_fold s E.
rewrite /assert; case: ifP => //= ok [<-]; rewrite El.
by case: (foldM _ _ _) => //= s'; rewrite ok.
Qed.

Lemma visit_nodes_order s s' :
  visit_nodes cb g s = Ok s' -> exists l, visit_order g = Ok l.
Proof.
rewrite /visit_order /visit_nodes !visit_loop_queue.
case E: (visit_queue cb _ _ _ _ _) => [[v s1]|] //.
have [l ->] /= := visit_queue_order [::] E.
by rewrite /assert; case: ifP => //= _ _; exists l.
Qed.

End Fold.

Lemma mapM_mem (A B : eqType) (f : A -> result B) l bs :
  mapM f l = Ok bs ->
  size bs = size l
  /\ forall b, (b \in bs) <-> (exists2 a, a \in l & f a = Ok b).
Proof.
elim: l bs => [|a l IH] bs /=.
  by case=> <-; split=> // b; rewrite in_nil; split=> // -[].
case E: (f a) => [b0|] //=; case E': (mapM f l) => [bs'|] //= -[<-].
have [sz H] := IH _ E'; split=> /= [|b]; first by rewrite sz.
rewrite in_cons; split=> [/orP[/eqP->|/H[a' ain Ea]]|[a']].
- by exists a => //; rewrite mem_head.
- by exists a' => //; rewrite in_cons ain orbT.
rewrite in_cons => /orP[/eqP->|ain] Ea.
  by move: Ea; rewrite E => -[->]; rewrite eqxx.
by apply/orP; right; apply/H; exists a'.
Qed.

Lemma mapM_all (A B : eqType) (f : A -> result B) l bs a :
  mapM f l = Ok bs -> a \in l -> exists2 b, f a = Ok b & b \in bs.
Proof.
elim: l bs => [|a0 l IH] bs //=.
case E: (f a0) => [b0|] //=; case E': (mapM f l) => [bs'|] //= -[<-].
rewrite in_cons => /orP[/eqP->|/(IH _ E')[b Eb bin]].
  by exists b0 => //; rewrite mem_head.
by exists b => //; rewrite in_cons bin orbT.
Qed.

Lemma visit_queue_fail (S : Type)
    (cb : option (State F) -> nat -> S -> result S) g fuel q visited acc s e :
  (forall n lvl s0, exists s1, cb n lvl s0 = Ok s1) ->
  visit_queue record_visit g fuel q visited acc = Fail e ->
  visit_queue cb g fuel q visited s = Fail e.
Proof.
move=> tot; elim: fuel q visited acc s => [|fuel IH] [|[n lvl] q] visited acc s //=.
  by case=> <-.
case: ifP => _; first exact: IH.
have [s1 ->] /= := tot n lvl s.
by case: (if n is Some m then _ else _) => [succ|e0] /=; [exact: IH|case=> <-].
Qed.

Lemma visit_nodes_fail (S : Type)
    (cb : option (State F) -> nat -> S -> result S) g s e :
  (forall n lvl s0, exists s1, cb n lvl s0 = Ok s1) ->
  visit_order g = Fail e -> visit_nodes cb g s = Fail e.
Proof.
move=> tot; rewrite /visit_order /visit_nodes !visit_loop_queue.
case E: (visit_queue record_visit _ _ _ _ _) => [[v l]|e']; last first.
  by case=> <-; rewrite (visit_queue_fail _ tot E).
have [l' _ ->] := visit_queue_fold cb s E.
have [s' ->] : exists s', foldM (on_item cb) l' s = Ok s'.
  elim: l' s {E} => [|p l' IH] s /=; first by exists s.
  by have [s1] := tot p.1 p.2 s; rewrite {1}/on_item => -> /=.
by rewrite /= /assert; case: ifP => //= _ [<-].
Qed.

Lemma dget_uniq (K V : eqType) (d : dict K V) k v :
  uniq [seq p.1 | p <- d] -> (dget d k = Some v) <-> ((k, v) \in d).
Proof.
elim: d => [|[k' v'] d IH] //= /andP[nk /IH {}IH].
rewrite in_cons xpair_eqE [k == k']eq_sym; case: eqP => [<-|_] /=; last exact: IH.
split=> [[->]|/orP[/eqP->|kin]] //; first by rewrite eqxx.
by case/negP: nk; apply/mapP; exists (k', v).
Qed.

Lemma dkeys_mem (K : eqType) (V : Type) (d : dict K V) k :
  (k \in dkeys d) = (k \in [seq p.1 | p <- d]).
Proof. by rewrite /dkeys mem_undup. Qed.

(** ** The levels are the distances from the root *)

Section Levels.

Variable g : StateGraph F.
Variable r : State F.
Hypothesis keyed : keyed_by_id g.
Hypothesis rootE : root g = Some r.

Notation key := (fun p : item => node_key p.1).

Lemma find_node_key i x :
  find_node g i = Ok x ->
  node_key x = (if i \notin term_nodes g then Some i else None)
  /\ (forall m, x = Some m -> dget (nodes g) i = Some m /\ id m = i).
Proof.
rewrite /find_node /dfind; case: ifP => _; last by case=> <-.
case E: (dget _ _) => [m|] //= -[<-]; have Ei := keyed_dget keyed E.
by rewrite /= Ei; split=> // m' [<-].
Qed.

Lemma fault_successorsP m lvl succ :
  fault_successors g m lvl = Ok succ ->
  size succ = size (faults m)
  /\ forall p,
       (p \in succ)
       <-> (exists t, [/\ t \in faults m, find_node g (target t) = Ok p.1
                        & p.2 = lvl.+1]).
Proof.
move/mapM_mem=> [sz H]; split=> // p; split=> [/H[t tin]|[t [tin Et El]]].
  by case E: (find_node _ _) => [x|] //= [<-]; exists t.
by apply/H; exists t => //; rewrite Et /= -El; case: (p).
Qed.

Lemma fault_successors_all m lvl succ t :
  fault_successors g m lvl = Ok succ -> t \in faults m ->
  exists2 x, find_node g (target t) = Ok x & (x, lvl.+1) \in succ.
Proof.
move=> Es tin; have [p] := mapM_all Es tin.
by case E: (find_node _ _) => [x|] //= [<-]; exists x.
Qed.

(** What holds at every turn of the loop: [q] is still to be read, [acc]
    lists the visited nodes with their levels in the order of the visits,
    and [visited] holds their keys. *)
Record bfs_inv (q : seq item) (visited : seq (option Id)) (acc : seq item)
  : Prop := BfsInv {
  inv_visited : visited =i [seq key p | p <- acc];
  inv_uniq : uniq [seq key p | p <- acc];
  inv_root :
    (Some r, 0%N) \in acc \/ (q = [:: (Some r, 0%N)] /\ acc = [::]);
  inv_acc_eff : forall m l, (Some m, l) \in acc -> node_at g (id m) = Some m;
  inv_q_eff :
    forall m l, (Some m, l) \in q -> Some (id m) \notin visited ->
      node_at g (id m) = Some m;
  inv_path : forall p, p \in acc ++ q -> fault_path g p.2 (key p);
  inv_before : forall a b, a \in acc -> b \in q -> (a.2 <= b.2)%N;
  inv_sorted : pairwise leq [seq p.2 | p <- q];
  inv_span :
    forall p, p \in q -> (p.2 <= (head 0%N [seq p.2 | p <- q]).+1)%N;
  inv_closed :
    forall p k', p \in acc -> fault_edge g (key p) k' ->
      exists2 p', p' \in acc ++ q & key p' = k' /\ (p'.2 <= p.2.+1)%N
}.

Lemma node_at_root : node_at g (id r) = Some r.
Proof. by rewrite /node_at rootE eqxx. Qed.

Lemma bfs_init : bfs_inv [:: (Some r, 0%N)] [::] [::].
Proof.
split=> //.
- by right.
- by move=> m l; rewrite inE => /eqP[-> _] _; exact: node_at_root.
- by move=> p; rewrite inE => /eqP-> /=; exact: fault_path_root.
- by move=> p; rewrite inE => /eqP->.
Qed.

Lemma sorted_head_le (q : seq item) p0 p :
  pairwise leq [seq p.2 | p <- p0 :: q] -> p \in q -> (p0.2 <= p.2)%N.
Proof.
rewrite /= => /andP[/allP H _] pin; apply: H.
by apply/mapP; exists p.
Qed.

Lemma bfs_skip n l q visited acc :
  bfs_inv ((n, l) :: q) visited acc -> node_key n \in visited ->
  bfs_inv q visited acc.
Proof.
case=> Iv Iu Ir Iae Iqe Ip Ib Is Isp Ic nv.
have sub p : p \in q -> p \in (n, l) :: q by rewrite in_cons orbC => ->.
have sub2 p : p \in acc ++ q -> p \in acc ++ (n, l) :: q.
  by rewrite !mem_cat => /orP[->|/sub->] //; rewrite orbT.
split=> //.
- case: Ir => [|[_ Ea]]; first by left.
  by move: nv; rewrite Iv Ea.
- by move=> m l' /sub; exact: Iqe.
- by move=> p /sub2; exact: Ip.
- by move=> a b ain /sub; exact: Ib.
- by move: Is => /= /andP[].
- move=> p pin; apply: leq_trans (Isp _ (sub _ pin)) _ => /=.
  case: q pin Is {Iqe Ip Ib Isp Ic sub sub2 Ir} => [|p0 q] // _ /= /andP[/andP[le _] _].
  by rewrite ltnS.
- move=> p k' pin /(Ic _ _ pin) [p']; rewrite mem_cat in_cons orbA.
  rewrite [(p' \in acc) || _]orbC -orbA => /orP[/eqP-> [<- le]|pin' Hp']; last first.
    by exists p' => //; rewrite mem_cat.
  move: nv; rewrite Iv => /mapP[p'' pin'' /= E].
  exists p''; first by rewrite mem_cat pin''.
  split=> //; apply: leq_trans le.
  by apply: (Ib p'' (n, l)) => //; rewrite mem_head.
Qed.

Lemma pairwise_const (c : nat) (s : seq nat) :
  (forall x, x \in s -> x = c) -> pairwise leq s.
Proof.
elim: s => [|x s IH] //= H; apply/andP; split.
  apply/allP=> y yin; rewrite (H x) ?mem_head // (H y) //.
  by rewrite in_cons yin orbT.
by apply: IH => y yin; apply: H; rewrite in_cons yin orbT.
Qed.

Lemma find_node_target_key t x :
  find_node g (target t) = Ok x -> node_key x = fault_target_key g t.
Proof. by case/find_node_key. Qed.

Lemma bfs_visit n l q visited acc succ :
  bfs_inv ((n, l) :: q) visited acc -> node_key n \notin visited ->
  (if n is Some m then fault_successors g m l else Ok [::]) = Ok succ ->
  bfs_inv (q ++ succ) (node_key n :: visited) (rcons acc (n, l)).
Proof.
case=> Iv Iu Ir Iae Iqe Ip Ib Is Isp Ic nv Es.
have sub p : p \in q -> p \in (n, l) :: q by rewrite in_cons orbC => ->.
have hd : (n, l) \in (n, l) :: q by rewrite mem_head.
have succ_in p : p \in succ ->
    p.2 = l.+1 /\ exists m t,
      [/\ n = Some m, t \in faults m & find_node g (target t) = Ok p.1].
  case: (n) (Es) => [m|] /=; last by case=> <-.
  by case/fault_successorsP=> _ H /H[t [tin Et El]]; split=> //; exists m, t.
have succ_of m t : n = Some m -> t \in faults m ->
    exists2 x, find_node g (target t) = Ok x & (x, l.+1) \in succ.
  by move=> En; move: Es; rewrite En; exact: fault_successors_all.
have eff_n m : n = Some m -> node_at g (id m) = Some m.
  move=> En; apply: (Iqe m l); first by rewrite En mem_head.
  by move: nv; rewrite En.
have root_vis : Some (id r) \in node_key n :: visited.
  case: Ir => [rin|[[-> _ _] _]]; last by rewrite mem_head.
  by rewrite in_cons Iv; apply/orP; right; apply/mapP; exists (Some r, 0%N).
split.
- by move=> k; rewrite map_rcons mem_rcons !in_cons Iv.
- by rewrite map_rcons rcons_uniq -Iv nv.
- left; rewrite mem_rcons in_cons.
  by case: Ir => [->|[[-> -> _] _]]; rewrite ?orbT ?eqxx.
- move=> m l'; rewrite mem_rcons in_cons => /orP[/eqP[En _]|]; last exact: Iae.
  exact: eff_n.
- move=> m l'; rewrite mem_cat in_cons negb_or => /orP[/sub/Iqe H /andP[_]|].
    exact: H.
  move/succ_in=> /= [_ [m' [t [En tin /find_node_key[_ /(_ _ erefl)[Ed Ei]]]]]].
  move=> nin; rewrite /node_at rootE; case: eqP => [E|_]; last by rewrite Ei.
  by move: root_vis; rewrite in_cons E; case/andP: nin => /negbTE-> /negbTE->.
- move=> p; rewrite cat_rcons -cat_cons catA mem_cat => /orP[|pin]; first exact: Ip.
  have [El [m [t [En tin Et]]]] := succ_in _ pin.
  rewrite El; apply: fault_path_step (_ : fault_path g l (Some (id m))) _.
    by have := Ip (n, l); rewrite mem_cat hd orbT En; apply.
  exists (id m), m, t; split=> //; first exact: eff_n.
  exact: find_node_target_key.
- move=> a b; rewrite mem_rcons in_cons mem_cat.
  case/orP=> [/eqP->|ain] /orP[bin|/succ_in[-> _]] //=.
  + exact: (sorted_head_le Is).
  + exact: Ib (sub _ bin).
  + by apply: leqW; apply: (Ib a (n, l)).
- rewrite map_cat pairwise_cat; apply/and3P; split.
  + apply/allrelP=> x y /mapP[p pin ->] /mapP[p' /succ_in[-> _] ->].
    exact: (Isp _ (sub _ pin)).
  + by move: Is => /= /andP[].
  + by apply: (@pairwise_const l.+1) => x /mapP[p /succ_in[-> _] ->].
- move=> p pin.
  have le1 : (p.2 <= l.+1)%N.
    move: pin; rewrite mem_cat => /orP[/sub/Isp //|/succ_in[-> _] //].
  apply: leq_trans le1 _; rewrite ltnS.
  case: (q) Is pin => [|p0 q'] /=; last by case/andP=> /andP[].
  move=> _; case: (succ) succ_in => [|p0 s'] // H _ /=.
  by have [-> _] := H p0 (mem_head _ _).
- move=> p k'; rewrite mem_rcons in_cons => /orP[/eqP->|pin].
    case=> i [m0 [t [/= Ek Em0 tin ->]]].
    case En: (n) Ek => [m|] //= -[Ei].
    move: Em0; rewrite -Ei (eff_n _ En) => -[Em0]; rewrite -Em0 in tin.
    have [x Ex xin] := succ_of _ _ En tin.
    exists (x, l.+1); first by rewrite !mem_cat xin !orbT.
    by split=> //=; exact: find_node_target_key.
  move/(Ic _ _ pin)=> [p' pin' Hp']; exists p' => //.
  by rewrite cat_rcons -cat_cons catA mem_cat pin'.
Qed.

(** *** The fuel is enough *)

(** The turns the loop may still take: one for each item to read, and
    one for each fault of a known state that is still to be visited. *)
Definition potential (q : seq item) (visited : seq (option Id)) : nat :=
  (size q
   + sumn [seq size (faults m)
          | m <- known_states g & Some (id m) \notin visited])%N.

Lemma sumn_filter_le (T : Type) (f : T -> nat) (p p' : pred T) (U : seq T) :
  (forall x, p' x -> p x) ->
  (sumn [seq f x | x <- U & p' x] <= sumn [seq f x | x <- U & p x])%N.
Proof.
move=> sub; elim: U => [|a U IH] //=.
case Ea': (p' a); first by rewrite (sub _ Ea') /= leq_add2l.
by case: (p a) => //=; apply: leq_trans IH (leq_addl _ _).
Qed.

Lemma sumn_filter_drop (T : eqType) (f : T -> nat) (p p' : pred T)
    (U : seq T) (m : T) :
  (forall x, p' x -> p x) -> m \in U -> p m -> ~~ p' m ->
  (sumn [seq f x | x <- U & p' x] + f m
   <= sumn [seq f x | x <- U & p x])%N.
Proof.
move=> sub + pm npm; elim: U => [|a U IH] //=.
rewrite in_cons => /orP[/eqP<-|/IH {}IH].
  by rewrite (negbTE npm) pm /= addnC leq_add2l; exact: sumn_filter_le.
case Ea': (p' a); first by rewrite (sub _ Ea') /= -addnA leq_add2l.
by case: (p a) => //=; apply: leq_trans IH (leq_addl _ _).
Qed.

Lemma node_at_known i m : node_at g i = Some m -> m \in known_states g.
Proof.
rewrite /node_at /known_states rootE mem_cat inE.
case: eqP => [_ [->]|_ /dget_dvalues->]; first by rewrite eqxx.
by rewrite orbT.
Qed.

Lemma fault_successors_fail m lvl e :
  fault_successors g m lvl = Fail e -> e = KeyError.
Proof.
rewrite /fault_successors; elim: (faults m) => [|t ts IH] //=.
rewrite {1}/find_node; case: ifP => _ /=; last first.
  by case: (mapM _ ts) IH => //= e' IH [<-]; exact: IH.
rewrite /dfind; case: (dget _ _) => [x|] /=; last by case.
by case: (mapM _ ts) IH => //= e' IH [<-]; exact: IH.
Qed.

(** The loop that records the visits ends: it returns with the invariant,
    or a target is unknown. *)
Lemma bfs_run fuel q visited acc :
  bfs_inv q visited acc -> (potential q visited < fuel)%N ->
  match visit_queue record_visit g fuel q visited acc with
  | Ok res => bfs_inv [::] res.1 res.2
  | Fail e => e = KeyError
  end.
Proof.
elim: fuel q visited acc => [|fuel IH] [|[n l] q] visited acc //= I.
rewrite /potential /= addSn ltnS => lt.
case: ifP => [nv|/negbT nv]; first exact: IH (bfs_skip I nv) _.
case Es: (if n is Some m then _ else _) => [succ|e] /=; last first.
  by case: (n) Es => // m /fault_successors_fail.
apply: IH (bfs_visit I nv Es) _; apply: leq_ltn_trans lt.
rewrite /potential size_cat -addnA leq_add2l.
case: (n) Es nv I => [m|] /=.
  case/fault_successorsP=> -> _ nv I; rewrite addnC.
  apply: sumn_filter_drop => [x||//|].
  - by rewrite in_cons negb_or => /andP[].
  - exact: (@node_at_known (id m) _ (inv_q_eff I (mem_head _ _) nv)).
  - by rewrite mem_head.
case=> <- _ _ /=; rewrite add0n; apply: sumn_filter_le => x.
by rewrite in_cons.
Qed.

(** *** What the end of the loop gives *)

Lemma bfs_final_reach v acc d k :
  bfs_inv [::] v acc -> fault_path g d k ->
  exists2 p, p \in acc & key p = k /\ (p.2 <= d)%N.
Proof.
move=> I; elim=> [r' Er'|{}d {}k k' _ [p pin [Ek le]] E].
  move: Er'; rewrite rootE => -[<-].
  by case: (inv_root I) => [rin|[]] //; exists (Some r, 0%N).
move: E; rewrite -Ek => /(inv_closed I pin)[p']; rewrite cats0 => pin' [Ek' le'].
by exists p' => //; split=> //; apply: leq_trans le' _; rewrite ltnS.
Qed.

Lemma bfs_final_distance v acc p :
  bfs_inv [::] v acc -> p \in acc -> fault_distance g p.2 (key p).
Proof.
move=> I pin; split=> [|d' /(bfs_final_reach I)[p' pin' [Ek le]]].
  by apply: (inv_path I); rewrite cats0.
suff -> : p = p' by [].
have := inv_uniq I; move: pin pin' Ek; elim: (acc) => [|a s IH] //=.
rewrite !in_cons => /orP[/eqP->|pin] /orP[/eqP->|pin'] // Ek /andP[na u].
- by case/negP: na; rewrite -Ek; apply/mapP; exists p'.
- by case/negP: na; rewrite Ek; apply/mapP; exists p.
- exact: IH.
Qed.

Lemma set_eqP (K : eqType) (a b : seq K) : reflect (a =i b) (set_eq a b).
Proof.
apply: (iffP andP) => [[/allP ab /allP ba] x|E].
  by apply/idP/idP => [/ab|/ba].
by split; apply/allP=> x; rewrite E.
Qed.

Lemma potential_init :
  (potential [:: (Some r, 0%N)] [::] < visit_fuel g)%N.
Proof.
rewrite /potential /visit_fuel /= add1n !ltnS.
by rewrite (@eq_filter _ _ predT) ?filter_predT.
Qed.

(** The visit order of a graph: when the traversal returns, it lists
    once every key of the graph and the sentinel, with the invariant. *)
Lemma visit_orderP :
  match visit_order g with
  | Ok acc =>
      exists2 v, bfs_inv [::] v acc
               & v =i None :: [seq Some i | i <- dkeys (nodes g)]
  | Fail e => e = KeyError \/ e = AssertionError
  end.
Proof.
rewrite /visit_order /visit_nodes visit_loop_queue rootE drop0.
have := bfs_run bfs_init potential_init.
case: (visit_queue _ _ _ _ _ _) => [[v acc]|e] /=; last by left.
by rewrite /assert; case: set_eqP => /= [E I|_ _]; [exists v | right].
Qed.

(** *** The level map *)

(** The level map made from the visits [acc]. *)
Definition levels_of (acc : seq item) : dict (option Id) nat :=
  rev [seq (key p, p.2) | p <- acc].

Lemma level_visitor_fold acc lm :
  foldM (on_item (@level_visitor F)) acc lm = Ok (levels_of acc ++ lm).
Proof.
rewrite /levels_of; elim: acc lm => [|p acc IH] lm //=.
by rewrite IH /dset rev_cons cat_rcons.
Qed.

Lemma fault_level_map_order acc :
  visit_order g = Ok acc -> fault_level_map g = Ok (levels_of acc).
Proof.
move=> Eo; rewrite /fault_level_map (visit_nodes_fold _ _ Eo).
by rewrite level_visitor_fold cats0.
Qed.

Lemma levels_of_keys acc :
  [seq p.1 | p <- levels_of acc] =i [seq key p | p <- acc].
Proof.
by move=> k; rewrite /levels_of map_rev mem_rev -map_comp.
Qed.

Lemma levels_of_dget acc k d :
  uniq [seq key p | p <- acc] ->
  dget (levels_of acc) k = Some d
  <-> exists2 p, p \in acc & key p = k /\ p.2 = d.
Proof.
move=> u; have u' : uniq [seq p.1 | p <- levels_of acc].
  by rewrite /levels_of map_rev rev_uniq -map_comp.
rewrite (dget_uniq _ _ u') /levels_of mem_rev.
split=> [/mapP[p pin [-> ->]]|[p pin [<- <-]]]; first by exists p.
by apply/mapP; exists p.
Qed.

(** C5: on a graph that has a root, when [fault_level_map] returns, the
    keys of the map are the ids of the stored nodes and the sentinel, the
    level of an id is the length of the shortest path of faults from the
    root to it, and the level of the sentinel is the smallest number of
    faults after which a terminal id is reached; when a stored id cannot
    be reached from the root by faults the call fails, on the assertion
    that closes the traversal or earlier on an unknown target. *)
Theorem fault_level_map_spec :
  (forall lm, fault_level_map g = Ok lm ->
     [/\ forall k, (k \in dkeys lm)
                   = (k \in None :: [seq Some i | i <- dkeys (nodes g)]),
         forall i, i \in dkeys (nodes g) ->
           exists2 d, dget lm (Some i) = Some d
                    & fault_distance g d (Some i)
       & exists2 d, dget lm None = Some d & fault_distance g d None])
  /\ ((exists2 i, i \in dkeys (nodes g)
               & forall d, ~ fault_path g d (Some i)) ->
      fault_level_map g = Fail AssertionError
      \/ fault_level_map g = Fail KeyError).
Proof.
have tot (n : option (State F)) lvl (s0 : dict (option Id) nat) :
    exists s1, level_visitor n lvl s0 = Ok s1 by eexists.
have := visit_orderP; case Eo: (visit_order g) => [acc|e]; last first.
  move=> He; split=> [lm|_]; first by rewrite /fault_level_map (visit_nodes_fail _ tot Eo).
  by rewrite /fault_level_map (visit_nodes_fail _ tot Eo); case: He => ->; [right|left].
case=> v I Ev; rewrite (fault_level_map_order Eo).
have level k : k \in v ->
    exists2 d, dget (levels_of acc) k = Some d & fault_distance g d k.
  rewrite (inv_visited I) => /mapP[p pin ->]; exists p.2.
    by apply/(levels_of_dget _ _ (inv_uniq I)); exists p.
  exact: bfs_final_distance I pin.
split=> [lm [<-]|[i iin unreach]].
  split=> [k|i iin|].
  - by rewrite dkeys_mem levels_of_keys -(inv_visited I) Ev.
  - by apply: level; rewrite Ev in_cons /=; apply/mapP; exists i.
  - by apply: level; rewrite Ev mem_head.
have [|d _ [/unreach]] // := level (Some i).
by rewrite Ev in_cons /=; apply/mapP; exists i.
Qed.

End Levels.

End Traversal.

Lemma fault_level_map_spec_witness :
  let g := mirror_graph (1 : rat) 2%:R in
  [/\ keyed_by_id g, root g = Some (mirror_root 1)
    & exists2 d, dget [:: (None, 2%N); (Some 1%N, 1%N); (Some 0%N, 0%N)] None
                 = Some d
               & fault_distance g d None].
Proof.
move=> g; split=> //.
have [H _] := @fault_level_map_spec rat g (mirror_root 1) isT erefl.
by have [_ _] := H _ (mirror_level_map 1 2%:R).
Defined.

(** ** The visit of the major edges *)

Section MajorVisit.

Variable F : fieldType.

Lemma foldM_cat (A S : Type) (f : A -> S -> result S) l1 l2 s :
  foldM f (l1 ++ l2) s = let* s1 := foldM f l1 s in foldM f l2 s1.
Proof. by elim: l1 s => [|a l1 IH] s //=; case: (f a s). Qed.

(** *** The callback does not steer the visit *)

Section Replay.

Variables (S : Type) (cb : option (State F) -> State F -> Transition F -> S -> S).
Variables (g : StateGraph F) (lm : dict (option Id) nat) (s0 : S).

(** The state of the visit that runs [cb], from the one that lists the
    calls. *)
Definition replay (st : visit_state F (seq (call F))) : visit_state F S :=
  mkVisitState (vs_inc st) (vs_queue st)
    (foldl (fun s c => apply_call cb c s) s0 (vs_cb st)).

Lemma visit_transition_replay n t st :
  visit_transition g cb n t (replay st)
  = let* st' := visit_transition g (@record_call F) n t st in Ok (replay st').
Proof.
rewrite /visit_transition; case: (find_node g (target t)) => //= -[m|] /=.
  by case: Z.eqb => /=; rewrite /replay /record_call /= foldl_rcons.
by rewrite /replay /record_call /= foldl_rcons.
Qed.

Lemma foldM_replay (A : Type)
    (f : A -> visit_state F S -> result (visit_state F S))
    (f' : A -> visit_state F (seq (call F))
          -> result (visit_state F (seq (call F)))) l st :
  (forall a st, f a (replay st) = let* st' := f' a st in Ok (replay st')) ->
  foldM f l (replay st) = let* st' := foldM f' l st in Ok (replay st').
Proof.
move=> H; elim: l st => [|a l IH] st //=.
by rewrite H; case: (f' a st) => //= st'; rewrite IH.
Qed.

Lemma visit_edge_replay minor lvl n t st :
  visit_edge g cb minor lvl n t (replay st)
  = let* st' := visit_edge g (@record_call F) minor lvl n t st in
    Ok (replay st').
Proof.
rewrite /visit_edge; case: (minor lvl t) => //= -[] //.
exact: visit_transition_replay.
Qed.

Lemma visit_node_replay n st :
  visit_node g lm cb n (replay st)
  = let* st' := visit_node g lm (@record_call F) n st in Ok (replay st').
Proof.
rewrite /visit_node; case: (dfind lm _) => //= lvl.
rewrite (foldM_replay _ _ (visit_edge_replay _ lvl n)).
case: (foldM _ (faults n) st) => //= st1.
exact: (foldM_replay _ _ (visit_edge_replay _ lvl n)).
Qed.

Lemma major_loop_replay fuel next st :
  major_loop g lm cb fuel next (replay st)
  = let* r := major_loop g lm (@record_call F) fuel next st in
    Ok (r.1, replay r.2).
Proof.
elim: fuel next st => [|fuel IH] next st /=.
  by case: (drop _ _).
case: (drop _ _) => [|n _] //.
by rewrite visit_node_replay; case: (visit_node _ _ _ _ st) => //= st'.
Qed.

End Replay.

Lemma major_loop_eq (S : Type)
    (cb : option (State F) -> State F -> Transition F -> S -> S)
    g lm fuel next (st : visit_state F S) :
  major_loop g lm cb fuel next st
  = match drop next (vs_queue st) with
    | [::] => Ok (next, st)
    | n :: _ =>
      match fuel with
      | 0%N => Fail OutOfFuel
      | fuel'.+1 =>
        let* st' := visit_node g lm cb n st in
        major_loop g lm cb fuel' next.+1 st'
      end
    end.
Proof. by case: fuel. Qed.

Local Arguments major_loop : simpl never.

(** The visit with [cb] makes the calls that the recording visit lists. *)
Lemma major_run_replay (S : Type)
    (cb : option (State F) -> State F -> Transition F -> S -> S) g s :
  major_run cb g s
  = let* r := major_run (@record_call F) g [::] in
    Ok (r.1, replay cb s r.2).
Proof.
rewrite /major_run.
case: (fault_level_map g) => //= lm.
case: (visit_nodes _ _ _) => //= inc.
case: (root g) => //= r; case: (assert _) => //= _.
rewrite -[mkVisitState inc [:: r] s]/(replay cb s (mkVisitState inc [:: r] [::])).
by rewrite major_loop_replay; case: (major_loop _ _ _ _ _ _).
Qed.

Lemma visit_major_edges_replay (S : Type)
    (cb : option (State F) -> State F -> Transition F -> S -> S) g s :
  visit_major_edges cb g s
  = let* calls := visit_major_edges (@record_call F) g [::] in
    Ok (foldl (fun s c => apply_call cb c s) s calls).
Proof.
rewrite /visit_major_edges major_run_replay.
case: (major_run _ _ _) => [[nx st]|e] //=.
by case: (assert _).
Qed.

(** *** What the first two passes give *)

Local Delimit Scope Z_scope with ZZ.
Local Arguments Z.of_nat : simpl never.

Lemma inc_get_dset (inc : inc_degree_t) k z k' :
  inc_get (dset inc k z) k' = if k == k' then z else inc_get inc k'.
Proof. by rewrite /inc_get /dget_default /=; case: eqP. Qed.

Section CountEdges.

Variables (minor : nat -> Transition F -> result bool) (lvl : nat).

Lemma count_edge_fold ts inc inc' :
  foldM (count_edge minor lvl) ts inc = Ok inc' ->
  all (fun t => is_ok (minor lvl t)) ts
  /\ forall k,
       inc_get inc' k
       = (inc_get inc k
          + Z.of_nat (count (fun t => target t == k)
                        [seq t <- ts | is_major (minor lvl t)]))%ZZ.
Proof.
elim: ts inc => [|t ts IH] inc /=.
  by case=> <-; split=> // k; rewrite Z.add_0_r.
rewrite {1}/count_edge; case: (minor lvl t) => //= -[] /= /IH[-> H]; split=> // k.
rewrite H /= inc_get_dset; case: eqP => [->|_] /=; last by rewrite add0n.
by rewrite add1n Nat2Z.inj_succ; lia.
Qed.

End CountEdges.

Section FirstPasses.

Variables (g : StateGraph F) (r : State F).
Hypothesis keyed : keyed_by_id g.
Hypothesis rootE : root g = Some r.

Variables (acc : seq (option (State F) * nat)) (v : seq (option Id)).
Hypothesis Hinv : bfs_inv g r [::] v acc.
Hypothesis Hv : v =i None :: [seq Some i | i <- dkeys (nodes g)].

Notation lm := (levels_of acc).

(** The nodes that the traversal along the faults visits. *)
Definition visited_nodes : seq (State F) := pmap fst acc.

Notation N := visited_nodes.

Lemma visited_nodesP n : reflect (exists l, (Some n, l) \in acc) (n \in N).
Proof.
rewrite /visited_nodes mem_pmap; apply: (iffP mapP) => [[[x l] pin /= E]|[l pin]].
  by exists l; rewrite E.
by exists (Some n, l).
Qed.

Lemma visited_level n l : (Some n, l) \in acc -> level_of lm n = l.
Proof.
move=> pin; rewrite /level_of.
have -> // : dget lm (Some (id n)) = Some l.
by apply/(levels_of_dget _ _ (inv_uniq Hinv)); exists (Some n, l).
Qed.

Lemma visited_in_acc n : n \in N -> (Some n, level_of lm n) \in acc.
Proof. by case/visited_nodesP=> l pin; rewrite (visited_level pin). Qed.

Lemma visited_eff n : n \in N -> node_at g (id n) = Some n.
Proof. by case/visited_nodesP=> l; exact: (inv_acc_eff Hinv). Qed.

Lemma visited_ids k :
  (k \in [seq id n | n <- N]) = (Some k \in [seq node_key p.1 | p <- acc]).
Proof.
apply/mapP/mapP => [[n /visited_nodesP[l pin] ->]|[[[n|] l] pin //= [->]]].
  by exists (Some n, l).
by exists n => //; apply/visited_nodesP; exists l.
Qed.

Lemma visited_keys : [seq id n | n <- N] =i dkeys (nodes g).
Proof.
move=> k; rewrite visited_ids -(inv_visited Hinv) Hv in_cons /=.
by rewrite mem_map // => x y [].
Qed.

Lemma visited_uniq : uniq [seq id n | n <- N].
Proof.
have := inv_uniq Hinv; rewrite /visited_nodes.
elim: (acc) => [|[[n|] l] s IH] //= /andP[nk /IH {}IH] //.
rewrite IH andbT; apply: contra nk => /mapP[m].
rewrite mem_pmap => /mapP[[x l'] pin /= Ex] Ei.
by apply/mapP; exists (x, l') => //=; rewrite -Ex /= Ei.
Qed.

Lemma visited_root : r \in N.
Proof.
apply/visited_nodesP; exists 0%N.
by case: (inv_root Hinv) => [|[]].
Qed.

Lemma node_at_id i m : node_at g i = Some m -> id m = i.
Proof.
rewrite /node_at rootE; case: eqP => [<- [<-] //|_].
exact: keyed_dget.
Qed.

Lemma graph_nodes_ids : [seq id n | n <- graph_nodes g] = dkeys (nodes g).
Proof.
rewrite /graph_nodes.
have: {subset dkeys (nodes g) <= dkeys (nodes g)} by [].
elim: {1 3 4}(dkeys (nodes g)) => [|k s IH] //= sub.
have kin : k \in dkeys (nodes g) by apply: sub; rewrite mem_head.
have [n En] : exists n, node_at g k = Some n.
  rewrite /node_at rootE; case: eqP => _; first by exists r.
  by move: kin; rewrite dget_mem; case: (dget _ _) => // n; exists n.
rewrite En /= (node_at_id En) IH // => x xs; apply: sub.
by rewrite in_cons xs orbT.
Qed.

(** The visited nodes are the nodes of the graph. *)
Lemma visited_perm : perm_eq N (graph_nodes g).
Proof.
have uN := map_uniq visited_uniq.
have uG : uniq (graph_nodes g).
  apply: (@map_uniq _ _ (fun n : State F => id n)).
  by rewrite graph_nodes_ids dkeys_uniq.
apply: uniq_perm => // n; apply/idP/idP => [nin|].
  rewrite /graph_nodes mem_pmap; apply/mapP; exists (id n).
    by rewrite -visited_keys; apply/mapP; exists n.
  by rewrite visited_eff.
rewrite /graph_nodes mem_pmap => /mapP[k kin /esym En].
have : k \in [seq id n | n <- N] by rewrite visited_keys.
case/mapP=> m min Ek; move: (visited_eff min); rewrite -Ek En => -[->].
exact: min.
Qed.

(** The number of major edges that lead from the nodes [s] to [k]. *)
Definition cnt (k : Id) (s : seq (State F)) : nat :=
  sumn [seq count (fun t => target t == k) (major_edges g lm n) | n <- s].

(** Every transition of [n] is classified at the level of [n]. *)
Definition classified (n : State F) : Prop :=
  all (fun t => is_ok (is_fault_minor g lm (level_of lm n) t)) (faults n)
  /\ all (fun t => is_ok (is_recovery_minor lm (level_of lm n) t))
        (recovers n).

Lemma degree_fold (l : seq (option (State F) * nat)) inc inc' :
  (forall n lv, (Some n, lv) \in l -> level_of lm n = lv) ->
  foldM (on_item (degree_counter g lm)) l inc = Ok inc' ->
  (forall n, n \in pmap fst l -> classified n)
  /\ forall k,
       inc_get inc' k = (inc_get inc k + Z.of_nat (cnt k (pmap fst l)))%ZZ.
Proof.
elim: l inc => [|[[n|] lv] l IH] inc /= Hl.
- by case=> <-; split=> // k; rewrite /cnt /= Z.add_0_r.
- rewrite {1}/on_item /= -(Hl n lv (mem_head _ _)).
  case E1: (foldM _ (faults n) inc) => [inc1|] //=.
  case E2: (foldM _ (recovers n) inc1) => [inc2|] //= /IH[].
    by move=> m lv' pin; apply: Hl; rewrite in_cons pin orbT.
  have [ok1 H1] := count_edge_fold E1; have [ok2 H2] := count_edge_fold E2.
  move=> Hc Hi; split=> [m|k].
    by rewrite in_cons => /orP[/eqP->|/Hc].
  rewrite Hi H2 H1 /cnt /= /major_edges count_cat -!plusE !Nat2Z.inj_add.
  lia.
- rewrite {1}/on_item /=; apply: IH => m lv' pin.
  by apply: Hl; rewrite in_cons pin orbT.
Qed.

Variable inc0 : inc_degree_t.
Hypothesis Hinc : foldM (on_item (degree_counter g lm)) acc [::] = Ok inc0.

Lemma visited_classified n : n \in N -> classified n.
Proof.
have [H _] := degree_fold (fun n lv => @visited_level n lv) Hinc.
exact: H.
Qed.

Lemma inc0E k : inc_get inc0 k = Z.of_nat (cnt k N).
Proof.
by have [_ ->] := degree_fold (fun n lv => @visited_level n lv) Hinc.
Qed.

Lemma level_key k tl : dfind lm k = Ok tl -> k \in v.
Proof.
move/dfind_dget=> E; rewrite (inv_visited Hinv) -levels_of_keys -dkeys_mem.
by rewrite dget_mem E.
Qed.

Lemma is_major_ok (c : result bool) : is_major c -> c = Ok false.
Proof. by case: c => // -[]. Qed.

(** A major edge that does not end in a terminal id ends in a stored
    node. *)
Lemma major_known n t :
  t \in major_edges g lm n -> target t \notin term_nodes g ->
  target t \in dkeys (nodes g).
Proof.
rewrite mem_cat !mem_filter => /orP[] /andP[/is_major_ok + _] nt.
  rewrite /is_fault_minor nt; case E: (dfind _ _) => [tl|] //= _.
  by move/level_key: E; rewrite Hv in_cons /= mem_map // => x y [].
rewrite /is_recovery_minor; case E: (dfind _ _) => [tl|] //= _.
by move/level_key: E; rewrite Hv in_cons /= mem_map // => x y [].
Qed.

Lemma major_find_node n t :
  t \in major_edges g lm n -> find_node g (target t) = Ok (target_node g t).
Proof.
move=> tin; rewrite /find_node /target_node; case: ifP => // nt.
have := major_known tin nt; rewrite dget_mem /dfind.
by case: (dget _ _).
Qed.

Lemma major_target_node n t :
  t \in major_edges g lm n -> target t \notin term_nodes g ->
  exists2 m, target_node g t = Some m
           & id m = target t /\ dget (nodes g) (target t) = Some m.
Proof.
move=> tin nt; have := major_known tin nt; rewrite dget_mem /target_node nt.
case E: (dget _ _) => [m|] // _; exists m => //; split=> //.
exact: keyed_dget E.
Qed.

Lemma visit_edge_filter (S : Type)
    (cb : option (State F) -> State F -> Transition F -> S -> S)
    minor lvl n ts (st : visit_state F S) :
  all (fun t => is_ok (minor lvl t)) ts ->
  foldM (visit_edge g cb minor lvl n) ts st
  = foldM (visit_transition g cb n) [seq t <- ts | is_major (minor lvl t)] st.
Proof.
elim: ts st => [|t ts IH] st //= /andP[ok /IH {}IH].
rewrite {1}/visit_edge; case: (minor lvl t) ok => // -[] _ /=; first exact: IH.
by case: (visit_transition _ _ _ _ _).
Qed.

(** The body of the loop runs [visit_transition] over the major edges of
    the node. *)
Lemma visit_node_major (S : Type)
    (cb : option (State F) -> State F -> Transition F -> S -> S)
    n (st : visit_state F S) :
  n \in N ->
  visit_node g lm cb n st
  = foldM (visit_transition g cb n) (major_edges g lm n) st.
Proof.
move=> nin; have [okf okr] := visited_classified nin.
have E : dfind lm (Some (id n)) = Ok (level_of lm n).
  apply/dfind_dget/(levels_of_dget _ _ (inv_uniq Hinv)).
  by exists (Some n, level_of lm n) => //; exact: visited_in_acc.
rewrite /visit_node E /= /major_edges foldM_cat visit_edge_filter //.
by case: (foldM _ _ st) => //= st1; rewrite visit_edge_filter.
Qed.

(** *** The loop on the queue *)

Hypothesis Hr0 : inc_get inc0 (id r) = Z0.

(** The targets of the transitions [ts] that are not terminal ids: the
    keys whose in-degree the visit of [ts] decreases. *)
Definition nt (ts : seq (Transition F)) : seq Id :=
  [seq target t | t <- ts & target t \notin term_nodes g].

Lemma count_nt k ts :
  (count_mem k (nt ts) <= count (fun t => target t == k) ts)%N.
Proof.
rewrite /nt count_map count_filter; apply: sub_count => t /=.
by case/andP=> /eqP->.
Qed.

Lemma sumn_uniq_sub (T : eqType) (f : T -> nat) (s U : seq T) :
  uniq s -> uniq U -> {subset s <= U} ->
  (sumn [seq f x | x <- s] <= sumn [seq f x | x <- U])%N.
Proof.
move=> us uU sub.
have p : perm_eq s [seq x <- U | x \in s].
  apply: uniq_perm => // [|x]; first exact: filter_uniq.
  by rewrite mem_filter; case xs: (x \in s) => //=; rewrite (sub _ xs).
rewrite (perm_sumn (perm_map f p)) -[X in (_ <= sumn (map _ X))%N]filter_predT.
exact: sumn_filter_le.
Qed.

Lemma cnt_sub k (s : seq (State F)) :
  uniq s -> {subset s <= N} -> (cnt k s <= cnt k N)%N.
Proof.
by move=> us sub; apply: sumn_uniq_sub => //; exact: map_uniq visited_uniq.
Qed.

Lemma cnt_root k : (0 < cnt k N)%N -> k != id r.
Proof.
apply: contraTneq => ->; move: Hr0; rewrite inc0E -lt0n.
by case: (cnt _ _).
Qed.

(** What holds between two calls of [visit_transition]: [E] lists the
    keys of the calls made so far for a stored target. *)
Record kinv (E : seq Id) (inc : inc_degree_t) (Q : seq (State F)) : Prop :=
  Kinv {
  k_inc :
    forall k, inc_get inc k = (inc_get inc0 k - Z.of_nat (count_mem k E))%ZZ;
  k_head : exists Q', Q = r :: Q';
  k_uniq : uniq [seq id n | n <- Q];
  k_sub : {subset Q <= N};
  k_mem :
    forall k, (k \in [seq id n | n <- behead Q])
              <-> (0 < count_mem k E)%N /\ count_mem k E = cnt k N
}.

Lemma kinv_init : kinv [::] inc0 [:: r].
Proof.
split=> //.
- by move=> k; rewrite /= Z.sub_0_r.
- by exists [::].
- by move=> n; rewrite inE => /eqP->; exact: visited_root.
- by move=> k; split=> // -[].
Qed.

Lemma kinv_fresh E inc Q k :
  kinv E inc Q -> (count_mem k E < cnt k N)%N ->
  k \notin [seq id n | n <- Q].
Proof.
move=> I lt; have [Q' EQ] := k_head I.
have pos : (0 < cnt k N)%N by apply: leq_ltn_trans lt.
rewrite EQ /= in_cons negb_or cnt_root //=.
apply/negP=> kin.
have /(k_mem I)[_ Eq] : k \in [seq id n | n <- behead Q] by rewrite EQ.
by rewrite Eq ltnn in lt.
Qed.

Lemma count_mem_rcons (E : seq Id) k k' :
  count_mem k' (rcons E k) = (count_mem k' E + (k == k'))%N.
Proof. by rewrite -cats1 count_cat /= addn0. Qed.

Lemma stored_visited k m :
  dget (nodes g) k = Some m -> k != id r -> m \in N.
Proof.
move=> Em nr; have : k \in [seq id n | n <- N].
  by rewrite visited_keys dget_mem Em.
case/mapP=> m' min Ek; move: (visited_eff min).
rewrite /node_at rootE -Ek eq_sym (negbTE nr) Em => -[->].
exact: min.
Qed.

(** A call on a major edge that ends in a terminal id. *)
Lemma visit_transition_term n t inc Q (calls : seq (call F)) :
  t \in major_edges g lm n -> target t \in term_nodes g ->
  visit_transition g (@record_call F) n t (mkVisitState inc Q calls)
  = Ok (mkVisitState inc Q (rcons calls (target_node g t, n, t))).
Proof.
move=> tin tt; rewrite /visit_transition (major_find_node tin).
by rewrite /target_node tt.
Qed.

(** A call on a major edge that ends in a stored node. *)
Lemma kinv_step E inc Q (calls : seq (call F)) n t :
  kinv E inc Q -> t \in major_edges g lm n ->
  target t \notin term_nodes g ->
  (count_mem (target t) E < cnt (target t) N)%N ->
  exists inc' Qx,
    [/\ visit_transition g (@record_call F) n t (mkVisitState inc Q calls)
        = Ok (mkVisitState inc' (Q ++ Qx)
                (rcons calls (target_node g t, n, t))),
        kinv (rcons E (target t)) inc' (Q ++ Qx),
        forall m, m \in Qx -> id m = target t
      & target t \notin [seq id n | n <- Q]].
Proof.
move=> I tin nt lt; set k := target t in nt lt *.
have [m Em [Ei Ed]] := major_target_node tin nt.
have fresh := kinv_fresh I lt.
have pos : (0 < cnt k N)%N by apply: leq_ltn_trans lt.
have min : m \in N by apply: stored_visited Ed (cnt_root pos).
have [Q' EQ] := k_head I.
rewrite /visit_transition (major_find_node tin) Em /= -/k.
set d := Z.pred _; set inc' := dset inc k d.
have Einc k' : inc_get inc' k'
    = (inc_get inc0 k' - Z.of_nat (count_mem k' (rcons E k)))%ZZ.
  rewrite inc_get_dset count_mem_rcons; case: eqP => [<-|_].
    by rewrite /d (k_inc I) addn1 Nat2Z.inj_succ; lia.
  by rewrite addn0 (k_inc I).
have Ed0 : (d = 0)%ZZ <-> (count_mem k E).+1 = cnt k N.
  rewrite /d (k_inc I) inc0E; split=> [H|<-]; last by rewrite Nat2Z.inj_succ; lia.
  by apply: Nat2Z.inj; rewrite Nat2Z.inj_succ; lia.
case: Z.eqb_spec => [/Ed0 E0|/Ed0 N0].
  exists inc', [:: m]; rewrite cats1; split=> //; last first.
    by move=> m'; rewrite inE => /eqP->.
  split=> //.
  - by exists (rcons Q' m); rewrite EQ.
  - by rewrite map_rcons rcons_uniq Ei fresh (k_uniq I).
  - by move=> x; rewrite mem_rcons in_cons => /orP[/eqP->|/(k_sub I)].
  - move=> k'; rewrite EQ /= map_rcons mem_rcons in_cons Ei count_mem_rcons.
    rewrite [k' == k]eq_sym; case: eqP => [<-|_] /=.
      by rewrite addn1 E0; split.
    by rewrite addn0; have := k_mem I k'; rewrite EQ.
exists inc', [::]; rewrite cats0; split=> //; split=> //.
- exact: k_head I.
- exact: k_uniq I.
- exact: k_sub I.
move=> k'; rewrite count_mem_rcons; case: eqP => [<-|_] /=; last first.
  by rewrite addn0; exact: k_mem I k'.
rewrite addn1; split=> [kin|[_ /N0]] //.
by move: fresh kin; rewrite EQ /= in_cons negb_or => /andP[_ /negP].
Qed.

(** The keys of the calls made for the nodes [D]. *)
Definition keys_of (D : seq (State F)) : seq Id :=
  flatten [seq nt (major_edges g lm n) | n <- D].

Lemma keys_of_rcons D n :
  keys_of (rcons D n) = keys_of D ++ nt (major_edges g lm n).
Proof. by rewrite /keys_of map_rcons -cats1 flatten_cat /= cats0. Qed.

Lemma count_keys_of k D : (count_mem k (keys_of D) <= cnt k D)%N.
Proof.
rewrite /keys_of /cnt count_flatten -map_comp.
elim: D => [|n D IH] //=; apply: leq_add IH.
exact: count_nt.
Qed.

Lemma nt_cat ts1 ts2 : nt (ts1 ++ ts2) = nt ts1 ++ nt ts2.
Proof. by rewrite /nt filter_cat map_cat. Qed.

(** The calls of a node that leaves the queue, one major edge after the
    other: [pre] is done and [post] is to do. *)
Lemma inner_loop cur D post pre inc Q (calls : seq (call F)) :
  cur \in N -> uniq (rcons D cur) -> {subset D <= N} ->
  pre ++ post = major_edges g lm cur ->
  kinv (keys_of D ++ nt pre) inc Q ->
  exists inc' Qx,
    [/\ foldM (visit_transition g (@record_call F) cur) post
          (mkVisitState inc Q calls)
        = Ok (mkVisitState inc' (Q ++ Qx)
                (calls ++ [seq (target_node g t, cur, t) | t <- post])),
        kinv (keys_of D ++ nt (pre ++ post)) inc' (Q ++ Qx),
        forall m, m \in Qx ->
          exists2 t, t \in post
                   & target t \notin term_nodes g /\ id m = target t
      & forall t, t \in post -> target t \notin term_nodes g ->
          target t \notin [seq id n | n <- Q]].
Proof.
move=> cin uD sD; elim: post pre inc Q calls => [|t post IH] pre inc Q calls.
  by rewrite cats0 => _ I; exists inc, [::]; rewrite !cats0.
move=> Epre I.
have tin : t \in major_edges g lm cur by rewrite -Epre mem_cat mem_head orbT.
have Epre' : rcons pre t ++ post = major_edges g lm cur by rewrite cat_rcons.
case tt: (target t \in term_nodes g).
  have I' : kinv (keys_of D ++ nt (rcons pre t)) inc Q.
    by rewrite -cats1 nt_cat /nt /= tt /= cats0.
  have [inc' [Qx [Ef I2 HQx Hfresh]]] :=
    IH (rcons pre t) inc Q (rcons calls (target_node g t, cur, t)) Epre' I'.
  exists inc', Qx; split.
  - by rewrite /= visit_transition_term //= Ef -cats1 -catA.
  - by rewrite -cat_rcons.
  - by move=> m /HQx[t' tin' H]; exists t' => //; rewrite in_cons tin' orbT.
  - move=> t'; rewrite in_cons => /orP[/eqP->|/Hfresh //].
    by rewrite tt.
have nt' : target t \notin term_nodes g by rewrite tt.
have lt : (count_mem (target t) (keys_of D ++ nt pre)
           < cnt (target t) N)%N.
  apply: leq_trans (cnt_sub (target t) uD _); last first.
    move=> x; rewrite mem_rcons in_cons => /orP[/eqP->|/sD] //.
  rewrite count_cat /cnt map_rcons -cats1 sumn_cat /= addn0 -addnS.
  apply: leq_add; first exact: count_keys_of.
  apply: leq_trans (count_nt _ _); rewrite -Epre nt_cat count_cat.
  by rewrite -[X in (X < _)%N]addn0 ltn_add2l /nt /= nt' /= eqxx.
have [inc1 [Qx1 [Et I1 HQx1 fresh]]] := kinv_step calls I tin nt' lt.
have I1' : kinv (keys_of D ++ nt (rcons pre t)) inc1 (Q ++ Qx1).
  by rewrite -cats1 nt_cat /nt /= nt' /= catA cats1.
have [inc' [Qx [Ef I2 HQx Hfresh]]] :=
  IH (rcons pre t) inc1 (Q ++ Qx1) (rcons calls (target_node g t, cur, t))
     Epre' I1'.
exists inc', (Qx1 ++ Qx); split.
- by rewrite /= Et /= Ef -cats1 -!catA.
- by rewrite catA -cat_rcons.
- move=> m; rewrite mem_cat => /orP[/HQx1 Ei|/HQx[t' tin' H]].
    by exists t; rewrite ?mem_head.
  by exists t' => //; rewrite in_cons tin' orbT.
- move=> t'; rewrite in_cons => /orP[/eqP->|/Hfresh H /H] //.
  by rewrite map_cat mem_cat negb_or => /andP[].
Qed.

(** What holds at every turn of the loop on the queue: the nodes before
    [next] have left the queue. *)
Record oinv (next : nat) (inc : inc_degree_t) (Q : seq (State F))
    (calls : seq (call F)) : Prop := Oinv {
  o_le : (next <= size Q)%N;
  o_k : kinv (keys_of (take next Q)) inc Q;
  o_calls : calls = flatten [seq calls_of g lm n | n <- take next Q];
  o_ord :
    forall i t, (i < next)%N -> t \in major_edges g lm (nth State0 Q i) ->
      target t \notin term_nodes g ->
      target t \notin [seq id n | n <- take i.+1 Q]
}.

Lemma oinv_init : oinv 0 inc0 [:: r] [::].
Proof. by split=> //; exact: kinv_init. Qed.

Lemma outer_step next inc Q calls cur rest :
  oinv next inc Q calls -> drop next Q = cur :: rest ->
  exists inc' Qx calls',
    visit_node g lm (@record_call F) cur (mkVisitState inc Q calls)
    = Ok (mkVisitState inc' (Q ++ Qx) calls')
    /\ oinv next.+1 inc' (Q ++ Qx) calls'.
Proof.
case=> le I Ec Ho Ed.
have lt : (next < size Q)%N.
  by rewrite ltnNge; apply/negP=> /drop_oversize; rewrite Ed.
have Ecur : nth State0 Q next = cur by rewrite -[next]addn0 -nth_drop Ed.
have ET : take next.+1 Q = rcons (take next Q) cur.
  by rewrite (take_nth State0) // Ecur.
have cin : cur \in N by apply: (k_sub I); rewrite -Ecur mem_nth.
have uT : uniq (rcons (take next Q) cur).
  by rewrite -ET; apply: take_uniq; exact: map_uniq (k_uniq I).
have sT : {subset take next Q <= N}.
  by move=> x /mem_take /(k_sub I).
have I0 : kinv (keys_of (take next Q) ++ nt [::]) inc Q by rewrite cats0.
have [inc' [Qx [Ef I' _ Hfresh]]] :=
  inner_loop calls cin uT sT (erefl : [::] ++ _ = _) I0.
exists inc', Qx, (calls ++ calls_of g lm cur).
rewrite visit_node_major //; split=> //.
have Etk i : (i <= size Q)%N -> take i (Q ++ Qx) = take i Q.
  by move=> li; rewrite takel_cat.
split.
- by rewrite size_cat ltn_addr.
- by rewrite Etk // ET keys_of_rcons.
- by rewrite Etk // ET map_rcons -cats1 flatten_cat /= cats0 -Ec.
move=> i t; rewrite ltnS leq_eqVlt => /orP[/eqP->|li].
  rewrite nth_cat lt Ecur Etk // => /Hfresh H /H.
  by apply: contra => /mapP[x /mem_take xin ->]; apply/mapP; exists x.
have li' : (i < size Q)%N := ltn_trans li lt.
rewrite nth_cat li' Etk //.
exact: Ho.
Qed.

Lemma kinv_size E inc Q : kinv E inc Q -> (size Q <= (dlen inc0).+1)%N.
Proof.
move=> I; have [Q' EQ] := k_head I; rewrite EQ /= ltnS.
have u : uniq [seq id n | n <- Q'].
  by have := k_uniq I; rewrite EQ /= => /andP[].
rewrite -(size_map (fun n : State F => id n)); apply: uniq_leq_size => // k kin.
have /(k_mem I)[pos Ek] : k \in [seq id n | n <- behead Q] by rewrite EQ.
have := inc0E k; rewrite -Ek dget_mem /inc_get /dget_default.
by case: (dget inc0 k) => // E0; move: pos; case: (count_mem _ _) E0.
Qed.

(** The loop on the queue ends when the queue is empty. *)
Lemma major_loop_run fuel next inc Q calls :
  oinv next inc Q calls -> ((dlen inc0).+1 < fuel + next)%N ->
  exists inc' Q' calls',
    major_loop g lm (@record_call F) fuel next (mkVisitState inc Q calls)
    = Ok (size Q', mkVisitState inc' Q' calls')
    /\ oinv (size Q') inc' Q' calls'.
Proof.
elim: fuel next inc Q calls => [|fuel IH] next inc Q calls I lt;
  rewrite major_loop_eq /=.
  have le := leq_trans (kinv_size (o_k I)) (ltnW lt).
  rewrite drop_oversize //; exists inc, Q, calls.
  have -> : size Q = next by apply/eqP; rewrite eqn_leq le (o_le I).
  by [].
case Ed: (drop next Q) => [|cur rest].
  have Es : size Q = next.
    apply/eqP; rewrite eqn_leq (o_le I) andbT -subn_eq0 -size_drop Ed.
    by [].
  by exists inc, Q, calls; rewrite Es.
have [inc1 [Qx [calls1 [-> I1]]]] /= := outer_step I Ed.
by apply: IH I1 _; rewrite addnS -addSn.
Qed.

(** The queue when the recording visit ends: the calls are those of its
    nodes in turn, a target comes after the source of each of its major
    edges, and a node other than the root was put there by a major edge
    that leads to it. *)
Lemma major_order :
  exists inc' rest,
    let Q := r :: rest in
    [/\ major_loop g lm (@record_call F) (dlen inc0).+2 0
          (mkVisitState inc0 [:: r] [::])
        = Ok (size Q,
              mkVisitState inc' Q (flatten [seq calls_of g lm n | n <- Q])),
        uniq Q /\ {subset Q <= N},
        forall i j t, (i < size Q)%N -> (j < size Q)%N ->
          t \in major_edges g lm (nth State0 Q i) ->
          target t \notin term_nodes g ->
          id (nth State0 Q j) = target t -> (i < j)%N
      & forall m, m \in rest ->
          exists n t,
            [/\ n \in Q, t \in major_edges g lm n,
                target t \notin term_nodes g & target_node g t = Some m]].
Proof.
have lt : ((dlen inc0).+1 < (dlen inc0).+2 + 0)%N by rewrite addn0.
have [inc' [Q [calls [Erun I]]]] := major_loop_run oinv_init lt.
have [rest EQ] := k_head (o_k I).
have uQ : uniq [seq id n | n <- Q] := k_uniq (o_k I).
exists inc', rest; cbv zeta; rewrite -EQ; split.
- by rewrite Erun (o_calls I) take_size.
- by split; [exact: map_uniq uQ | exact: k_sub (o_k I)].
- move=> i j t li lj tin nterm Ej; rewrite ltnNge; apply/negP=> ji.
  have /negP := o_ord I li tin nterm; apply; rewrite -Ej.
  apply/mapP; exists (nth State0 Q j) => //.
  rewrite -(@nth_take i.+1) //; apply: mem_nth.
  by rewrite size_take_min leq_min ltnS ji lj.
move=> m min.
have mQ : m \in Q by rewrite EQ in_cons min orbT.
have : id m \in [seq id n | n <- behead Q] by rewrite EQ /=; apply: map_f.
case/(k_mem (o_k I)); rewrite take_size -has_count has_pred1 => + _.
case/flatten_mapP=> n nQ /mapP[t]; rewrite mem_filter => /andP[nterm tin] Em.
exists n, t; split=> //.
have [m' -> [_ Em']] := major_target_node tin nterm.
have := visited_eff (k_sub (o_k I) mQ); rewrite /node_at rootE.
case: eqP => [Er _|_].
  by move: uQ; rewrite EQ /= Er map_f.
by rewrite Em -Em' => -[->].
Qed.

(** A queue without repetition that holds as many nodes as the graph
    holds all of them. *)
Lemma full_order (Q : seq (State F)) :
  uniq Q -> {subset Q <= N} -> size Q = dlen (nodes g) ->
  perm_eq Q (graph_nodes g).
Proof.
move=> uQ sub Es; apply: perm_trans visited_perm.
have Esz : size N = size Q.
  rewrite (perm_size visited_perm) Es.
  by rewrite -(size_map (fun n : State F => id n)) graph_nodes_ids.
have [_ Ei] := uniq_min_size uQ sub (eq_leq Esz).
apply: uniq_perm => //.
exact: map_uniq visited_uniq.
Qed.

(** *** When the visit returns *)

(** Every recovery leads to a stored id of a lower level. *)
Definition recoveries_descend : Prop :=
  forall n t, n \in N -> t \in recovers n ->
    exists2 tl, dget lm (Some (target t)) = Some tl
              & (tl < level_of lm n)%N.

Lemma uniq_map_inj (T U : eqType) (f : T -> U) (s : seq T) :
  uniq [seq f x | x <- s] -> {in s &, injective f}.
Proof.
elim: s => [|a s IH] //= /andP[na u] x y.
rewrite !inE => /orP[/eqP->|xin] /orP[/eqP->|yin] // E.
- by move: na; rewrite E map_f.
- by move: na; rewrite -E map_f.
exact: IH.
Qed.

Lemma visited_inj : {in N &, injective (fun n : State F => id n)}.
Proof. exact: uniq_map_inj visited_uniq. Qed.

Lemma root_level : dget lm (Some (id r)) = Some 0%N.
Proof.
apply/(levels_of_dget _ _ (inv_uniq Hinv)); exists (Some r, 0%N) => //.
by case: (inv_root Hinv) => [|[]].
Qed.

Lemma fault_level n t :
  n \in N -> t \in faults n ->
  exists2 tl, dget lm (fault_target_key g t) = Some tl
            & (tl <= (level_of lm n).+1)%N.
Proof.
move=> nin tin; have pin := visited_in_acc nin.
have E : fault_edge g (node_key (Some n)) (fault_target_key g t).
  by exists (id n), n, t; split=> //; exact: visited_eff.
have [p'] := inv_closed Hinv pin E; rewrite cats0 => pin' [Ek le].
exists p'.2 => //.
by apply/(levels_of_dget _ _ (inv_uniq Hinv)); exists p'.
Qed.

Lemma fault_classified n t :
  n \in N -> t \in faults n ->
  is_ok (is_fault_minor g lm (level_of lm n) t).
Proof.
move=> nin tin; have [tl /is_fault_minorE-> le] := fault_level nin tin.
case: leqP => // lt.
by have -> : tl == (level_of lm n).+1 by rewrite eqn_leq le lt.
Qed.

Lemma recovery_minor n t :
  recoveries_descend -> n \in N -> t \in recovers n ->
  is_recovery_minor lm (level_of lm n) t = Ok true.
Proof.
move=> D nin tin; have [tl /is_recovery_minorE-> lt] := D n t nin tin.
by rewrite (ltnW lt) lt.
Qed.

Lemma count_edge_total (minor : nat -> Transition F -> result bool) lvl ts
    (inc : inc_degree_t) :
  all (fun t => is_ok (minor lvl t)) ts ->
  exists inc', foldM (count_edge minor lvl) ts inc = Ok inc'.
Proof.
elim: ts inc => [|t ts IH] inc /=; first by exists inc.
rewrite {1}/count_edge; case: (minor lvl t) => //= -[] /=; exact: IH.
Qed.

Lemma degree_total (l : seq (option (State F) * nat)) (inc : inc_degree_t) :
  recoveries_descend -> {subset l <= acc} ->
  exists inc', foldM (on_item (degree_counter g lm)) l inc = Ok inc'.
Proof.
move=> D; elim: l inc => [|[[n|] lv] l IH] inc sub /=; first by exists inc.
  have pin : (Some n, lv) \in acc by apply: sub; rewrite mem_head.
  have nin : n \in N by apply/visited_nodesP; exists lv.
  rewrite {1}/on_item /= -(visited_level pin).
  have [inc1 ->] /= := @count_edge_total (is_fault_minor g lm)
    (level_of lm n) (faults n) inc
    (introT allP (fun t tin => fault_classified nin tin)).
  have ok2 : all (fun t => is_ok (is_recovery_minor lm (level_of lm n) t))
                 (recovers n).
    by apply/allP=> t tin; rewrite (recovery_minor D nin tin).
  have [inc2 ->] /= := count_edge_total inc1 ok2.
  by apply: IH => p pin'; apply: sub; rewrite in_cons pin' orbT.
rewrite {1}/on_item /=.
by apply: IH => p pin'; apply: sub; rewrite in_cons pin' orbT.
Qed.

(** With such recoveries the major edges are faults that go one level
    up. *)
Lemma major_edge_level n t :
  recoveries_descend -> n \in N -> t \in major_edges g lm n ->
  t \in faults n
  /\ dget lm (fault_target_key g t) = Some (level_of lm n).+1.
Proof.
move=> D nin; rewrite /major_edges mem_cat !mem_filter.
case/orP=> /andP[maj tin]; last by move: maj; rewrite (recovery_minor D nin tin).
split=> //; have [tl Ed le] := fault_level nin tin.
move: maj; rewrite (is_fault_minorE _ Ed) Ed.
by case: leqP => // _; case: eqP => // ->.
Qed.

Lemma cnt0 k (s : seq (State F)) :
  (forall n t, n \in s -> t \in major_edges g lm n -> target t != k) ->
  cnt k s = 0%N.
Proof.
rewrite /cnt; elim: s => [|n s IH] //= H.
have -> : sumn [seq count (fun t => target t == k) (major_edges g lm n0)
               | n0 <- s] = 0%N.
  by apply: IH => m t min; apply: H; rewrite in_cons min orbT.
rewrite addn0; apply/eqP; rewrite eqn0Ngt -has_count; apply/hasPn=> t tin.
by apply: H tin; rewrite mem_head.
Qed.

Lemma cnt_root_descend :
  recoveries_descend -> id r \notin term_nodes g -> cnt (id r) N = 0%N.
Proof.
move=> D nterm; apply: cnt0 => n t nin tin; apply/negP=> /eqP Et.
have [_] := major_edge_level D nin tin.
by rewrite /fault_target_key Et nterm root_level.
Qed.

Lemma fault_path_inv d k :
  fault_path g d k ->
  (d = 0%N /\ k = Some (id r))
  \/ exists d' k0, [/\ d = d'.+1, fault_path g d' k0 & fault_edge g k0 k].
Proof.
case=> [r' Er'|d' k0 k' pth e]; last by right; exists d', k0.
by left; move: Er'; rewrite rootE => -[->].
Qed.

Lemma count_nt_eq k ts :
  k \notin term_nodes g ->
  count_mem k (nt ts) = count (fun t => target t == k) ts.
Proof.
move=> nk; rewrite /nt count_map count_filter; apply: eq_count => t /=.
by case: eqP => // ->.
Qed.

Lemma count_keys_of_eq k D :
  k \notin term_nodes g -> count_mem k (keys_of D) = cnt k D.
Proof.
move=> nk; rewrite /keys_of /cnt; elim: D => [|n D IH] //=.
by rewrite count_cat IH count_nt_eq.
Qed.

Lemma cnt_perm k s1 s2 : perm_eq s1 s2 -> cnt k s1 = cnt k s2.
Proof. by move=> p; rewrite /cnt; apply: perm_sumn; apply: perm_map. Qed.

Lemma cnt_cat k s1 s2 : cnt k (s1 ++ s2) = (cnt k s1 + cnt k s2)%N.
Proof. by rewrite /cnt map_cat sumn_cat. Qed.

Lemma visited_dget m : m \in N -> dget lm (Some (id m)) = Some (level_of lm m).
Proof.
move=> min; apply/(levels_of_dget _ _ (inv_uniq Hinv)).
by exists (Some m, level_of lm m) => //; exact: visited_in_acc.
Qed.

(** When the queue is empty every node has left it: a node of the lowest
    level that has not would have seen all its major edges visited. *)
Lemma kahn_complete inc Q calls :
  recoveries_descend -> oinv (size Q) inc Q calls -> {subset N <= Q}.
Proof.
move=> D I m; move El: (level_of lm m) => l.
elim/ltn_ind: l m El => l IH m El min.
have kI := o_k I; rewrite take_size in kI.
have [Q' EQ] := k_head kI.
case: (id m =P id r) => [Eid|/eqP nid].
  by rewrite (visited_inj min visited_root Eid) EQ mem_head.
have pin := visited_in_acc min.
have [pth mn] := bfs_final_distance rootE Hinv pin.
move: pth mn; rewrite /= El => pth mn.
have [[_ [Eid]]|[d [k0 [Ed pth0 [i [n [t [Ek0 En tin Ekey]]]]]]]] :=
  fault_path_inv pth; first by rewrite Eid eqxx in nid.
have [[n0 l'] pin0 /= [Ekp led]] := bfs_final_reach rootE Hinv pth0.
case: n0 pin0 Ekp => [n'|] pin0 /=; rewrite Ek0 => // -[Ei].
have := inv_acc_eff Hinv pin0; rewrite Ei En => -[En']; subst n'.
have nin : n \in N by apply/visited_nodesP; exists l'.
have Eln := visited_level pin0.
have [ntm Etm] : target t \notin term_nodes g /\ target t = id m.
  by move: Ekey; rewrite /fault_target_key; case: ifP => // _ [->].
have [pthn _] := bfs_final_distance rootE Hinv pin0.
have edge : fault_edge g (Some (id n)) (Some (id m)).
  by exists (id n), n, t; split=> //; exact: visited_eff.
have le := mn _ (fault_path_step pthn edge).
have El' : l' = d by move: le led; rewrite Ed /= ltnS => ? ?; natlia.
have nQ : n \in Q by apply: (IH l') => //; rewrite Ed El'.
have Elm : dget lm (Some (id m)) = Some l by rewrite visited_dget // El.
have tmaj : t \in major_edges g lm n.
  rewrite /major_edges mem_cat mem_filter tin andbT.
  have Ek : dget lm (fault_target_key g t) = Some l by rewrite -Ekey.
  by rewrite (is_fault_minorE _ Ek) Eln El' Ed ltnn eqxx.
have nk : id m \notin term_nodes g by rewrite -Etm.
have pos : (0 < count_mem (id m) (keys_of Q))%N.
  rewrite -has_count has_pred1; apply/flatten_mapP; exists n => //.
  by apply/mapP; exists t => //; rewrite mem_filter ntm.
have Ecnt : count_mem (id m) (keys_of Q) = cnt (id m) N.
  rewrite count_keys_of_eq //.
  have uQ : uniq Q := map_uniq (k_uniq kI).
  have uN : uniq N := map_uniq visited_uniq.
  have pN : perm_eq N (Q ++ [seq x <- N | x \notin Q]).
    apply: uniq_perm => // [|x].
      rewrite cat_uniq uQ filter_uniq // andbT /=.
      by apply/hasPn=> x; rewrite mem_filter => /andP[].
    rewrite mem_cat mem_filter; case xQ: (x \in Q) => //=.
    exact: (k_sub kI).
  rewrite (cnt_perm _ pN) cnt_cat [X in (_ + X)%N]cnt0 ?addn0 //.
  move=> n1 t1; rewrite mem_filter => /andP[n1Q n1N] t1in.
  apply/negP=> /eqP Et1.
  have [_] := major_edge_level D n1N t1in.
  rewrite /fault_target_key Et1 nk Elm => -[El1].
  by move/negP: n1Q; apply; apply: (IH (level_of lm n1)) => //; rewrite El1.
have /(k_mem kI) : (0 < count_mem (id m) (keys_of Q))%N
                   /\ count_mem (id m) (keys_of Q) = cnt (id m) N by [].
case/mapP=> m' /mem_behead m'Q Em'.
by rewrite (visited_inj min (k_sub kI m'Q) Em').
Qed.

Lemma kahn_size inc Q calls :
  recoveries_descend -> oinv (size Q) inc Q calls ->
  size Q = dlen (nodes g).
Proof.
move=> D I; have sub := kahn_complete D I.
have kI := o_k I; rewrite take_size in kI.
have p : perm_eq Q N.
  apply: uniq_perm => [||x].
  - exact: map_uniq (k_uniq kI).
  - exact: map_uniq visited_uniq.
  by apply/idP/idP; [exact: (k_sub kI) | exact: sub].
rewrite (perm_size p) (perm_size visited_perm).
by rewrite -(size_map (fun n : State F => id n)) graph_nodes_ids.
Qed.

End FirstPasses.

(** The run of the recording visit up to the end of its loop. *)
Lemma major_run_record g nx st0 :
  keyed_by_id g -> major_run (@record_call F) g [::] = Ok (nx, st0) ->
  exists lm r rest,
    let Q := r :: rest in
    [/\ fault_level_map g = Ok lm /\ root g = Some r,
        [/\ nx = size Q, vs_queue st0 = Q
          & vs_cb st0 = flatten [seq calls_of g lm n | n <- Q]],
        size Q = dlen (nodes g) -> perm_eq Q (graph_nodes g),
        forall i j t, (i < size Q)%N -> (j < size Q)%N ->
          t \in major_edges g lm (nth State0 Q i) ->
          target t \notin term_nodes g ->
          id (nth State0 Q j) = target t -> (i < j)%N
      & forall m, m \in rest ->
          exists n t,
            [/\ n \in Q, t \in major_edges g lm n,
                target t \notin term_nodes g & target_node g t = Some m]].
Proof.
move=> keyed; rewrite /major_run.
case Elm: (fault_level_map g) => [lm0|] //=.
case Einc: (visit_nodes _ _ _) => [inc0|] //=.
case rootE: (root g) => [r|] //=.
case Er0: (Z.eqb _ _) => //=.
have [acc Eo] := visit_nodes_order Elm.
have := visit_orderP keyed rootE; rewrite Eo => -[v I Ev].
move: Elm; rewrite (fault_level_map_order Eo) => -[Elm].
move: Einc Er0; rewrite -{}Elm (visit_nodes_fold _ _ Eo) => Hinc /Z.eqb_eq Hr0.
have [inc' [rest]] := major_order keyed rootE I Ev Hinc Hr0.
cbv zeta; case=> -> [uQ sub] Hord Hcause [<- <-] /=.
exists (levels_of acc), r, rest; split=> //.
exact: (full_order keyed rootE I Ev uQ sub).
Qed.

(** X1: on a graph whose nodes are stored under their ids, when
    [visit_major_edges] returns, the nodes that left the queue are the
    nodes of the graph, each once, the root first; the callback was run
    once for each major edge of each of them, in the order in which they
    left the queue, with the node of the target, which is [None] for a
    terminal target; the target of a major edge left the queue after the
    source of the edge, hence after the calls made for the edges that
    lead to it; and each node after the root was put in the queue for a
    major edge that leads to it and whose target is not terminal.  When
    the loop ends the queue is empty, and when the number of nodes that
    left it is not the number of nodes of the graph the call fails on its
    last assertion. *)
Theorem visit_major_edges_spec (S : Type)
    (cb : option (State F) -> State F -> Transition F -> S -> S)
    (g : StateGraph F) (s : S) :
  keyed_by_id g ->
  (forall s', visit_major_edges cb g s = Ok s' ->
     exists lm r rest,
       let order := r :: rest in
       [/\ fault_level_map g = Ok lm /\ root g = Some r,
           perm_eq order (graph_nodes g),
           s' = foldl (fun s c => apply_call cb c s) s
                  (flatten [seq calls_of g lm n | n <- order])
           /\ (forall t, target t \in term_nodes g -> target_node g t = None),
           forall i j t, (i < size order)%N -> (j < size order)%N ->
             t \in major_edges g lm (nth State0 order i) ->
             target t \notin term_nodes g ->
             id (nth State0 order j) = target t -> (i < j)%N
         & forall m, m \in rest ->
             exists n t,
               [/\ n \in order, t \in major_edges g lm n,
                   target t \notin term_nodes g
                 & target_node g t = Some m]])
  /\ (forall next st, major_run cb g s = Ok (next, st) ->
        next = size (vs_queue st)
        /\ (next != dlen (nodes g) ->
            visit_major_edges cb g s = Fail AssertionError)).
Proof.
move=> keyed; split=> [s'|next st].
  rewrite visit_major_edges_replay /visit_major_edges.
  case Erun: (major_run _ _ _) => [[nx st0]|] //=.
  have [lm [r [rest]]] := major_run_record keyed Erun.
  cbv zeta; case=> Hlm [-> _ Ecalls] Hperm Hord Hcause.
  case: eqP => //= Esz [<-].
  exists lm, r, rest; split=> //; first exact: Hperm.
  by rewrite Ecalls; split=> // t; rewrite /target_node => ->.
move=> Erun; split; last first.
  by rewrite /visit_major_edges Erun /=; case: eqP.
move: Erun; rewrite major_run_replay.
case Erun: (major_run _ _ _) => [[nx st0]|] //= -[<- <-] /=.
have [lm [r [rest]]] := major_run_record keyed Erun.
by cbv zeta; case=> _ [-> ->].
Qed.

(** The recording visit returns when the recoveries go down. *)
Lemma visit_major_edges_record_total g r lm :
  keyed_by_id g -> root g = Some r -> id r \notin term_nodes g ->
  fault_level_map g = Ok lm ->
  (forall n t, n \in graph_nodes g -> t \in recovers n ->
     exists2 tl, dget lm (Some (target t)) = Some tl
               & (tl < level_of lm n)%N) ->
  exists calls, visit_major_edges (@record_call F) g [::] = Ok calls.
Proof.
move=> keyed rootE nterm Elm D.
rewrite /visit_major_edges /major_run Elm /=.
have [acc Eo] := visit_nodes_order Elm.
have := visit_orderP keyed rootE; rewrite Eo => -[v I Ev].
move: Elm D; rewrite (fault_level_map_order Eo) => -[<-] D.
have D' : recoveries_descend acc.
  move=> n t nin; apply: D.
  by rewrite -(perm_mem (visited_perm keyed rootE I Ev)).
rewrite (visit_nodes_fold _ _ Eo).
have [inc0 Hinc] := degree_total I [::] D' (fun p pin => pin).
have Hr0 : inc_get inc0 (id r) = Z0.
  by rewrite (inc0E I Hinc) (cnt_root_descend I D' nterm).
rewrite Hinc /= rootE /= Hr0 /=.
have lt : ((dlen inc0).+1 < (dlen inc0).+2 + 0)%N by rewrite addn0.
have [inc' [Q [calls [-> OI]]]] :=
  major_loop_run keyed rootE I Ev Hinc Hr0 (oinv_init I inc0) lt.
by rewrite /= (kahn_size keyed rootE I Ev D' OI) eqxx /=; exists calls.
Qed.

(** X6: on a graph whose nodes are stored under their ids, whose root id
    is not terminal and on which [fault_level_map] returns,
    [visit_major_edges] returns, whatever the callback, as soon as every
    recovery of every node leads to a stored id of a lower level: no
    assertion of the classification fails, no major edge leads to the
    root, and every node leaves the queue. *)
Theorem visit_major_edges_total (S : Type)
    (cb : option (State F) -> State F -> Transition F -> S -> S)
    (g : StateGraph F) (r : State F) lm (s : S) :
  keyed_by_id g -> root g = Some r -> id r \notin term_nodes g ->
  fault_level_map g = Ok lm ->
  (forall n t, n \in graph_nodes g -> t \in recovers n ->
     exists2 tl, dget lm (Some (target t)) = Some tl
               & (tl < level_of lm n)%N) ->
  exists s', visit_major_edges cb g s = Ok s'.
Proof.
move=> keyed rootE nterm Elm D; rewrite visit_major_edges_replay.
have [calls ->] /= := visit_major_edges_record_total keyed rootE nterm Elm D.
by eexists.
Qed.

(** The classification has answered for every transition of every node
    when the loop is reached. *)
Lemma major_run_classified g nx st0 :
  keyed_by_id g -> major_run (@record_call F) g [::] = Ok (nx, st0) ->
  exists2 lm, fault_level_map g = Ok lm
            & forall n, n \in graph_nodes g ->
                all (fun t => is_ok (is_fault_minor g lm (level_of lm n) t))
                    (faults n)
                /\ all (fun t => is_ok (is_recovery_minor lm (level_of lm n) t))
                       (recovers n).
Proof.
move=> keyed; rewrite /major_run.
case Elm: (fault_level_map g) => [lm0|] //=.
case Einc: (visit_nodes _ _ _) => [inc0|] //=.
case rootE: (root g) => [r|] //= _.
have [acc Eo] := visit_nodes_order Elm.
have := visit_orderP keyed rootE; rewrite Eo => -[v I Ev].
move: Elm; rewrite (fault_level_map_order Eo) => -[Elm].
move: Einc; rewrite -{}Elm (visit_nodes_fold _ _ Eo) => Hinc.
exists (levels_of acc) => // n.
rewrite -(perm_mem (visited_perm keyed rootE I Ev)) => nin.
exact: (visited_classified I Hinc nin).
Qed.

(** X12: on a graph whose nodes are stored under their ids,
    [visit_major_edges] returns only if every recovery of every node
    leads to an id that has a level, hence to a stored id, and this level
    is not above the level of the node: a recovery to a terminal or
    unknown id, or to a higher level, makes the call fail. *)
Theorem visit_major_edges_needs (S : Type)
    (cb : option (State F) -> State F -> Transition F -> S -> S)
    (g : StateGraph F) (s s' : S) :
  keyed_by_id g -> visit_major_edges cb g s = Ok s' ->
  exists2 lm, fault_level_map g = Ok lm
            & forall n t, n \in graph_nodes g -> t \in recovers n ->
                exists2 tl, dget lm (Some (target t)) = Some tl
                          & (tl <= level_of lm n)%N.
Proof.
move=> keyed; rewrite visit_major_edges_replay /visit_major_edges.
case Erun: (major_run _ _ _) => [[nx st0]|] //= _.
have [lm Elm H] := major_run_classified keyed Erun.
exists lm => // n t nin tin; have [_ /allP/(_ t tin)] := H n nin.
rewrite /is_recovery_minor /dfind; case: (dget lm _) => [tl|] //=.
by rewrite /assert; case: (leqP tl (level_of lm n)) => // le _; exists tl.
Qed.

End MajorVisit.

Lemma visit_major_edges_spec_witness :
  let g := mirror_graph (1 : rat) 2%:R in
  keyed_by_id g
  /\ exists lm r rest,
       [/\ fault_level_map g = Ok lm, root g = Some r
         & perm_eq (r :: rest) (graph_nodes g)].
Proof.
move=> g; split=> //.
have [H _] := @visit_major_edges_spec rat _ (@record_call rat) g [::] isT.
have [s' E] : exists s', visit_major_edges (@record_call rat) g [::] = Ok s'.
  by eexists.
have [lm [r [rest [[Elm Er] Hperm _ _ _]]]] := H s' E.
by exists lm, r, rest.
Defined.

Lemma visit_major_edges_total_witness :
  let g := mirror_graph (1 : rat) 2%:R in
  let lm := [:: (None, 2%N); (Some 1%N, 1%N); (Some 0%N, 0%N)] in
  [/\ keyed_by_id g, root g = Some (mirror_root 1),
      id (mirror_root (1 : rat)) \notin term_nodes g,
      fault_level_map g = Ok lm
    & forall n t, n \in graph_nodes g -> t \in recovers n ->
        exists2 tl, dget lm (Some (target t)) = Some tl
                  & (tl < level_of lm n)%N]
  /\ exists s', visit_major_edges (@record_call rat) g [::] = Ok s'.
Proof.
move=> g lm.
have D n t : n \in graph_nodes g -> t \in recovers n ->
    exists2 tl, dget lm (Some (target t)) = Some tl & (tl < level_of lm n)%N.
  rewrite !inE => /orP[] /eqP-> //=; rewrite inE => /eqP->.
  by exists 0%N.
split=> //.
exact: (@visit_major_edges_total rat _ (@record_call rat) g (mirror_root 1)
          lm [::] isT erefl isT (mirror_level_map 1 2%:R) D).
Defined.

Lemma visit_major_edges_needs_witness :
  let g := mirror_graph (1 : rat) 2%:R in
  keyed_by_id g
  /\ exists2 lm, fault_level_map g = Ok lm
               & forall n t, n \in graph_nodes g -> t \in recovers n ->
                   exists2 tl, dget lm (Some (target t)) = Some tl
                             & (tl <= level_of lm n)%N.
Proof.
move=> g; split=> //.
have [s' E] : exists s', visit_major_edges (@record_call rat) g [::] = Ok s'.
  by eexists.
exact: (@visit_major_edges_needs rat _ (@record_call rat) g [::] s' isT E).
Defined.

(** ** What the construction keeps *)

Section BuildFacts.

Variable F : fieldType.
Implicit Types (g : StateGraph F) (d : dict Id (State F)).

(** The stored nodes are distinct objects when the object numbers of two
    keys differ. *)
Definition oid_at d (k : Id) : option nat := omap (fun n : State F => oid n) (dget d k).

Lemma distinct_oid_at d :
  {in dkeys d &, injective (oid_at d)} ->
  uniq [seq oid n | n <- dvalues d].
Proof.
move=> inj; rewrite -(map_inj_uniq (@Some_inj _)) -map_comp /dvalues.
have -> : [seq (Some \o (fun n : State F => oid n)) x | x <- pmap (dget d) (dkeys d)]
          = [seq omap (fun n : State F => oid n) x
            | x <- [seq Some y | y <- pmap (dget d) (dkeys d)]].
  by rewrite -map_comp.
rewrite pmapS_filter -map_comp map_inj_in_uniq; last first.
  exact: filter_uniq (dkeys_uniq _).
move=> x y; rewrite !mem_filter => /andP[_ xin] /andP[_ yin].
exact: inj.
Qed.

(** The invariant of the construction. *)
Definition built (g : StateGraph F) : Prop :=
  [/\ keyed_by_id g,
      all (fun p => oid p.2 < next_oid g)%N (nodes g),
      {in dkeys (nodes g) &, injective (oid_at (nodes g))}
    & if root g is Some r then
        [&& nilp (recovers r), id r \in dkeys (nodes g)
          & oid r < next_oid g]%N
      else true].

Lemma oid_at_bound g k o :
  all (fun p => oid p.2 < next_oid g)%N (nodes g) ->
  oid_at (nodes g) k = Some o -> (o < next_oid g)%N.
Proof.
rewrite /oid_at; elim: (nodes g) => [|[k' v] d IH] //= /andP[lt /IH {}IH].
by case: eqP => // _ [<-].
Qed.

Lemma add_state_built g i fs rs is_root g' :
  built g -> add_state g i fs rs is_root = Ok g' -> built g'.
Proof.
case=> kd bd inj rt.
have kd' n : id n = i -> all (fun p => id p.2 == p.1) (dset (nodes g) i n).
  by move=> E; rewrite /= E eqxx.
have bd' n : oid n = next_oid g ->
    all (fun p => oid p.2 < (next_oid g).+1)%N (dset (nodes g) i n).
  move=> E; rewrite /= E ltnSn /=.
  by apply: sub_all bd => p /ltnW.
have inj' n : oid n = next_oid g ->
    {in dkeys (dset (nodes g) i n) &, injective (oid_at (dset (nodes g) i n))}.
  move=> E k1 k2; rewrite !dget_mem /oid_at /=.
  case: (i =P k1) => [<-|n1]; case: (i =P k2) => [<-|n2] //= d1 d2.
  - rewrite E; case Ed: (dget _ k2) => [v|] //= [Eo].
    have := @oid_at_bound g k2 (oid v) bd; rewrite /oid_at Ed /= -Eo ltnn.
    by move=> /(_ erefl).
  - rewrite E; case Ed: (dget _ k1) => [v|] //= [Eo].
    have := @oid_at_bound g k1 (oid v) bd; rewrite /oid_at Ed /= Eo ltnn.
    by move=> /(_ erefl).
  by apply: inj; rewrite dget_mem.
have rt' : if root g is Some r then
             [&& nilp (recovers r),
                 id r \in dkeys (dset (nodes g) i (mkState (next_oid g) i fs rs))
               & oid r < (next_oid g).+1]%N
           else true.
  case: (root g) rt => // r /and3P[-> rin /ltnW lt]; rewrite ltnS lt andbT /=.
  by move: rin; rewrite !dget_mem /=; case: eqP.
rewrite /add_state; case: is_root; last first.
  case=> <-; split; [exact: kd' | exact: bd' | exact: inj' | ].
  by move: rt' => /=; case: (root g).
rewrite /assert; case Er: (root g) => [r|] //=.
case: (nilP) => //= Ers [<-]; split.
- exact: kd'.
- exact: bd'.
- exact: inj'.
by rewrite /= Ers /= dget_mem /= eqxx ltnSn.
Qed.

Lemma run_call_built c g g' : built g -> run_call c g = Ok g' -> built g'.
Proof.
case: c => [i fs rs is_root|i] /=; first exact: add_state_built.
rewrite /add_term_state /assert; case: (_ \notin _) => //= B [<-].
by case: B.
Qed.

Lemma build_built cs g : build cs = Ok g -> built g.
Proof.
rewrite /build; have: built (@empty_graph F) by split.
elim: cs empty_graph => [|c cs IH] g0 B /=; first by case=> <-.
by case E: (run_call c g0) => [g1|] //=; apply: IH; apply: run_call_built E.
Qed.

(** X2: whatever calls of [add_state] and [add_term_state] build a graph,
    every node is stored under its own id, the stored nodes are distinct
    objects, and the root, when there is one, has no recovery and its id
    is a key of the node dictionary. *)
Theorem build_invariants cs g :
  build cs = Ok g ->
  [/\ keyed_by_id g, distinct_objects g
    & if root g is Some r then nilp (recovers r) && (id r \in dkeys (nodes g))
      else true].
Proof.
move/build_built=> [kd _ inj rt]; split=> //.
  exact: distinct_oid_at.
by case: (root g) rt => // r /and3P[-> ->].
Qed.

End BuildFacts.

Lemma build_invariants_witness :
  let g := mirror_graph (1 : rat) 2%:R in
  build (mirror_calls 1 (2%:R : rat)) = Ok g
  /\ keyed_by_id g && distinct_objects g.
Proof.
move=> g; split; first exact: mirror_build.
by have [-> ->] := build_invariants (mirror_build 1 (2%:R : rat)).
Defined.

(** ** The traversal along the faults, whatever the callback *)

Section TraversalFacts.

Variable F : fieldType.

Notation item := (option (State F) * nat)%type.
Notation key := (fun p : item => node_key p.1).

(** Every fault of every state the traversal may meet leads to a terminal
    id or to a stored id. *)
Definition faults_known (g : StateGraph F) : bool :=
  all (fun n =>
         all (fun x => (target x \in term_nodes g)
                       || (target x \in dkeys (nodes g))) (faults n))
      (known_states g).

Variables (g : StateGraph F) (r : State F).
Hypothesis keyed : keyed_by_id g.
Hypothesis rootE : root g = Some r.

Lemma fault_successors_unknown m lvl e :
  fault_successors g m lvl = Fail e ->
  has (fun x => (target x \notin term_nodes g)
                && (target x \notin dkeys (nodes g))) (faults m).
Proof.
rewrite /fault_successors; elim: (faults m) => [|t ts IH] //=.
rewrite {1}/find_node; case: ifP => [nt|_] /=; last first.
  by case: (mapM _ ts) IH => //= e' IH [E]; rewrite (IH e' erefl) orbT.
rewrite dget_mem /dfind; case: (dget _ _) => [x|] //=.
by case: (mapM _ ts) IH => //= e' IH [E]; exact: (IH e' erefl).
Qed.

Lemma bfs_run_sorted fuel q visited (acc : seq item) :
  bfs_inv g r q visited acc -> pairwise leq [seq p.2 | p <- acc] ->
  (potential g q visited < fuel)%N ->
  match visit_queue (@record_visit F) g fuel q visited acc with
  | Ok res => pairwise leq [seq p.2 | p <- res.2]
  | Fail e => ~~ faults_known g
  end.
Proof.
elim: fuel q visited acc => [|fuel IH] [|[n l] q] visited acc //= I srt.
rewrite /potential /= addSn ltnS => lt.
case: ifP => [nv|/negbT nv]; first exact: IH (bfs_skip I nv) srt _.
case Es: (if n is Some m then _ else _) => [succ|e] /=; last first.
  case: (n) Es nv I => // m /fault_successors_unknown Hm nv I.
  apply/allPn; exists m; last by rewrite -has_predC; apply: sub_has Hm => x;
    rewrite /= negb_or.
  exact: (@node_at_known _ _ _ rootE (id m) _ (inv_q_eff I (mem_head _ _) nv)).
apply: IH (bfs_visit keyed rootE I nv Es) _ _.
  rewrite map_rcons pairwise_rcons srt andbT; apply/allP=> x /mapP[a ain ->].
  exact: (inv_before I ain (mem_head _ _)).
apply: leq_ltn_trans lt.
rewrite /potential size_cat -addnA leq_add2l.
case: (n) Es nv I => [m|] /=.
  case/fault_successorsP=> -> _ nv I; rewrite addnC.
  apply: sumn_filter_drop => [x||//|].
  - by rewrite in_cons negb_or => /andP[].
  - exact: (@node_at_known _ _ _ rootE (id m) _ (inv_q_eff I (mem_head _ _) nv)).
  - by rewrite mem_head.
case=> <- _ _ /=; rewrite add0n; apply: sumn_filter_le => x.
by rewrite in_cons.
Qed.

(** The visit order, with what the run shows of it. *)
Lemma visit_order_sorted :
  match visit_order g with
  | Ok acc =>
      [/\ exists2 v, bfs_inv g r [::] v acc
                   & v =i None :: [seq Some i | i <- dkeys (nodes g)],
          pairwise leq [seq p.2 | p <- acc]
        & exists rest, acc = (Some r, 0%N) :: rest]
  | Fail KeyError => ~~ faults_known g
  | Fail e => e = AssertionError
  end.
Proof.
rewrite /visit_order /visit_nodes visit_loop_queue rootE drop0.
have := bfs_run keyed rootE (bfs_init rootE) (@potential_init _ g r).
have := bfs_run_sorted (bfs_init rootE) isT (@potential_init _ g r).
case: (visit_queue _ _ _ _ _ _) => [[v acc]|e] /=; last by move=> nk ->.
rewrite /assert; case: set_eqP => //= Ev srt I; split=> //; first by exists v.
have rin : (Some r, 0%N) \in acc by case: (inv_root I) => [|[]].
case: acc I srt rin {Ev} => [|[n l] rest] // I /= /andP[/allP le _] rin.
have l0 : l = 0%N.
  move: rin; rewrite in_cons => /orP[/eqP[_ <-] //|rin].
  by apply/eqP; rewrite -leqn0; apply: le; apply/mapP; exists (Some r, 0%N).
have [pth _] := bfs_final_distance rootE I (mem_head (n, l) rest).
have Ek : node_key n = Some (id r).
  move: pth; rewrite l0 /=; move: {1 3}0%N (erefl 0%N) => d Ed pth.
  by case: pth Ed => // r'; rewrite rootE => -[<-].
move: rin; rewrite in_cons => /orP[/eqP<-|rin]; first by exists rest.
have := inv_uniq I; rewrite /= Ek => /andP[/negP[]].
by apply/mapP; exists (Some r, 0%N).
Qed.

Lemma visit_order_reach acc k :
  visit_order g = Ok acc ->
  k \in None :: [seq Some i | i <- dkeys (nodes g)] ->
  exists d, fault_path g d k.
Proof.
move=> Eo; have := visit_orderP keyed rootE; rewrite Eo => -[v I Ev].
rewrite -Ev (inv_visited I) => /mapP[p pin ->]; exists p.2.
by have [] := bfs_final_distance rootE I pin.
Qed.

Lemma visit_order_total :
  id r \in dkeys (nodes g) -> faults_known g ->
  (forall k, k \in None :: [seq Some i | i <- dkeys (nodes g)] ->
     exists d, fault_path g d k) ->
  exists acc, visit_order g = Ok acc.
Proof.
move=> rin fk reach.
rewrite /visit_order /visit_nodes visit_loop_queue rootE drop0.
have := bfs_run keyed rootE (bfs_init rootE) (@potential_init _ g r).
have := bfs_run_sorted (bfs_init rootE) isT (@potential_init _ g r).
case: (visit_queue _ _ _ _ _ _) => [[v acc]|e] /=; last by rewrite fk.
move=> _ I; rewrite /assert; case: set_eqP => /= [_|[]]; first by exists acc.
move=> k; rewrite (inv_visited I); apply/idP/idP.
  case/mapP=> -[[m|] l] pin -> /=; last by rewrite mem_head.
  rewrite in_cons /= (mem_map (@Some_inj _)).
  have := inv_acc_eff I pin; rewrite /node_at rootE.
  by case: eqP => [<- //|_ Ed]; rewrite dget_mem Ed.
move/reach=> [d pth].
by have [p pin [<- _]] := bfs_final_reach rootE I pth; apply: map_f.
Qed.

(** X3: on a graph with a root whose nodes are stored under their ids,
    when [visit_nodes] returns it has run its callback over a list of
    nodes with their levels that starts with the root at level 0, holds
    once every stored id and once [None] for the terminal states, goes by
    levels that never decrease, and gives to each node the length of the
    shortest path of faults from the root. *)
Theorem visit_nodes_spec (S : Type)
    (cb : option (State F) -> nat -> S -> result S) (s s' : S) :
  visit_nodes cb g s = Ok s' ->
  exists rest,
    let order := (Some r, 0%N) :: rest in
    [/\ foldM (on_item cb) order s = Ok s',
        uniq [seq key p | p <- order]
        /\ [seq key p | p <- order]
           =i None :: [seq Some i | i <- dkeys (nodes g)],
        sorted leq [seq p.2 | p <- order]
      & forall p, p \in order -> fault_distance g p.2 (key p)].
Proof.
move=> E; have [acc Eo] := visit_nodes_order E.
have := visit_order_sorted; rewrite Eo => -[[v I Ev] srt [rest Eacc]].
exists rest; cbv zeta; rewrite -Eacc; split.
- by rewrite -(visit_nodes_fold cb s Eo).
- by split; [exact: (inv_uniq I) | move=> k; rewrite -(inv_visited I) Ev].
- by rewrite sorted_pairwise //; exact: leq_trans.
by move=> p; exact: bfs_final_distance I.
Qed.

(** X4: on such a graph whose root id is a key, [visit_nodes] with a
    callback that never raises returns, and so does [fault_level_map],
    as soon as every fault leads to a terminal id or to a stored id and
    faults lead from the root to every stored id and to a terminal id. *)
Theorem visit_nodes_total (S : Type)
    (cb : option (State F) -> nat -> S -> result S) (s : S) :
  id r \in dkeys (nodes g) -> faults_known g ->
  (forall k, k \in None :: [seq Some i | i <- dkeys (nodes g)] ->
     exists d, fault_path g d k) ->
  (forall n lvl s0, exists s1, cb n lvl s0 = Ok s1) ->
  (exists s', visit_nodes cb g s = Ok s')
  /\ exists lm, fault_level_map g = Ok lm.
Proof.
move=> rin fk reach tot; have [acc Eo] := visit_order_total rin fk reach.
split; last by exists (levels_of acc); exact: fault_level_map_order.
rewrite (visit_nodes_fold cb s Eo).
elim: acc s {Eo} => [|p acc IH] s /=; first by exists s.
by have [s1] := tot p.1 p.2 s; rewrite {1}/on_item => -> /=.
Qed.

Lemma fault_resilence_distance k :
  fault_resilence g = Ok k ->
  exists2 d, k = Z.of_nat d & fault_distance g d.+1 None.
Proof.
rewrite /fault_resilence.
case Elm: (fault_level_map g) => [lm|] //=.
have [acc Eo] := visit_nodes_order Elm.
have := visit_orderP keyed rootE; rewrite Eo => -[v I Ev].
move: Elm; rewrite (fault_level_map_order Eo) => -[<-].
rewrite /dfind; case Ed: (dget _ _) => [lvl|] //= [<-].
have /(levels_of_dget _ _ (inv_uniq I))[p pin [Ek El]] := Ed.
have := bfs_final_distance rootE I pin; rewrite Ek El.
case: lvl {Ed El} => [[pth _]|d fd].
  move: pth; move: {1 3}0%N (erefl 0%N) {-1}None (erefl (@None Id)).
  by move=> d0 Ed0 k0 Ek0 pth; case: pth Ed0 Ek0.
by exists d => //; rewrite Nat2Z.inj_succ Z.pred_succ.
Qed.

Lemma fault_resilence_returns lm :
  fault_level_map g = Ok lm -> is_ok (fault_resilence g).
Proof.
move=> Elm; rewrite /fault_resilence Elm /=.
have [acc Eo] := visit_nodes_order Elm.
have := visit_orderP keyed rootE; rewrite Eo => -[v I Ev].
move: Elm; rewrite (fault_level_map_order Eo) => -[<-].
have : None \in [seq key p | p <- acc].
  by rewrite -(inv_visited I) Ev mem_head.
case/mapP=> p pin Ek.
have /(levels_of_dget _ _ (inv_uniq I)) : exists2 p', p' \in acc
    & key p' = None /\ p'.2 = p.2 by exists p.
by rewrite /dfind => ->.
Qed.

(** X5: when [fault_resilence] returns, its value is a natural number [d]
    such that [d + 1] faults lead from the root to a terminal id and no
    fewer do; it returns whenever [fault_level_map] does, and it fails
    when faults lead to no terminal id. *)
Theorem fault_resilence_spec :
  [/\ forall k, fault_resilence g = Ok k ->
        exists2 d, k = Z.of_nat d & fault_distance g d.+1 None,
      forall lm, fault_level_map g = Ok lm -> is_ok (fault_resilence g)
    & (forall d, ~ fault_path g d None) -> ~~ is_ok (fault_resilence g)].
Proof.
split=> [k|lm|unreach]; [exact: fault_resilence_distance
                        | exact: fault_resilence_returns |].
case E: (fault_resilence g) => [k|] //.
by have [d _ [/unreach]] := fault_resilence_distance E.
Qed.

End TraversalFacts.

Lemma visit_nodes_spec_witness :
  let g := mirror_graph (1 : rat) 2%:R in
  [/\ keyed_by_id g, root g = Some (mirror_root 1),
      visit_nodes (@level_visitor rat) g [::]
      = Ok [:: (None, 2%N); (Some 1%N, 1%N); (Some 0%N, 0%N)]
    & exists rest,
        sorted leq [seq p.2 | p <- (Some (mirror_root (1 : rat)), 0%N) :: rest]].
Proof.
move=> g; have E := mirror_level_map (1 : rat) 2%:R; split=> //.
have [rest [_ _ srt _]] :=
  @visit_nodes_spec rat g (mirror_root 1) isT erefl _ _ _ _ E.
by exists rest.
Defined.

Lemma visit_nodes_total_witness :
  let g := mirror_graph (1 : rat) 2%:R in
  [/\ keyed_by_id g, root g = Some (mirror_root 1),
      id (mirror_root (1 : rat)) \in dkeys (nodes g), faults_known g
    & forall k, k \in None :: [seq Some i | i <- dkeys (nodes g)] ->
        exists d, fault_path g d k]
  /\ exists lm, fault_level_map g = Ok lm.
Proof.
move=> g.
have [acc Eo] : exists acc, visit_order g = Ok acc by eexists.
have reach := @visit_order_reach rat g (mirror_root 1) isT erefl acc ^~ Eo.
split=> //.
have tot (n : option (State rat)) lvl (s0 : dict (option Id) nat) :
    exists s1, level_visitor n lvl s0 = Ok s1 by eexists.
by have [] := @visit_nodes_total rat g (mirror_root 1) isT erefl _
                (@level_visitor rat) [::] isT isT reach tot.
Defined.

Lemma fault_resilence_spec_witness :
  let g := mirror_graph (1 : rat) 2%:R in
  [/\ keyed_by_id g, root g = Some (mirror_root 1),
      fault_resilence g = Ok (Z.of_nat 1)
    & exists2 d, Z.of_nat 1 = Z.of_nat d & fault_distance g d.+1 None].
Proof.
move=> g; split=> //.
have [H _ _] := @fault_resilence_spec rat g (mirror_root 1) isT erefl.
exact: H.
Defined.

(** ** The N-K storage model *)

(** A list of the first [n] numbers in which each number comes before its
    successor is the list in increasing order. *)
Lemma consecutive_order (s : seq nat) n :
  perm_eq s (iota 0 n) ->
  (forall a b, (a < size s)%N -> (b < size s)%N ->
     nth 0%N s b = (nth 0%N s a).+1 -> (a < b)%N) ->
  s = iota 0 n.
Proof.
move=> p H.
have us : uniq s by rewrite (perm_uniq p) iota_uniq.
have ms x : (x \in s) = (x < n)%N by rewrite (perm_mem p) mem_iota add0n.
have step y : (y.+1 < n)%N -> (index y s < index y.+1 s)%N.
  move=> lt; have yin : y \in s by rewrite ms (ltnW lt).
  have yin' : y.+1 \in s by rewrite ms.
  by apply: H; rewrite ?index_mem // !nth_index.
have mono x y : (x < y)%N -> (y < n)%N -> (index x s < index y s)%N.
  elim: y => // y IH; rewrite ltnS leq_eqVlt => /orP[/eqP->|lt] ylt.
    exact: step.
  exact: ltn_trans (IH lt (ltnW ylt)) (step y ylt).
apply: (sorted_eq leq_trans anti_leq) p; last exact: iota_sorted.
apply/(sortedP 0%N) => i lt; rewrite leqNgt; apply/negP=> gt.
have := mono _ _ gt; rewrite -ms mem_nth ?(ltnW lt) // => /(_ isT).
by rewrite !index_uniq ?(ltnW lt) // ltnNge leqnSn.
Qed.

Section NKFacts.

Variable F : fieldType.
Variables (N : F) (R : nat) (e r : F).

(** The rate of the fault that leaves the state [i], and the state. *)
Definition nk_rate (i : nat) : F :=
  if i is 0%N then N * e else (N - i%:R) * e.

Definition nk_node (i : nat) : State F :=
  mkState i i [:: fault i.+1 (nk_rate i) None]
    (if i is j.+1 then [:: recover j r None] else [::]).

(** The node dictionary after [k] calls of [add_state], and the graph that
    [nk_fail_graph] returns. *)
Definition nk_nodes (k : nat) : dict Id (State F) :=
  [seq (i, nk_node i) | i <- rev (iota 0 k)].

Definition nk_graph : StateGraph F :=
  mkStateGraph (Some (nk_node 0)) (nk_nodes R.+1) [:: R.+1] R.+1.

Lemma nk_nodesS k : nk_nodes k.+1 = (k, nk_node k) :: nk_nodes k.
Proof. by rewrite /nk_nodes -addn1 iotaD add0n /= rev_cat. Qed.

Lemma dget_nk k i :
  dget (nk_nodes k) i = if (i < k)%N then Some (nk_node i) else None.
Proof.
elim: k => [|k IH] //; rewrite nk_nodesS /= IH.
case: (k =P i) => [<-|ne]; first by rewrite ltnSn.
by rewrite [in RHS]ltnS [in RHS]leq_eqVlt; case: eqP => // E; case: ne.
Qed.

Lemma dkeys_nk k : dkeys (nk_nodes k) = rev (iota 0 k).
Proof.
rewrite /dkeys /nk_nodes -map_comp map_id_in ?undup_id //.
by rewrite rev_uniq iota_uniq.
Qed.

Lemma mem_dkeys_nk k i : (i \in dkeys (nk_nodes k)) = (i < k)%N.
Proof. by rewrite dkeys_nk mem_rev mem_iota add0n. Qed.

Lemma nk_loop k m :
  foldM (@run_call F)
    ([seq AddState i [:: fault i.+1 ((N - i%:R) * e) None]
            [:: recover i.-1 r None] false
     | i <- iota k.+1 m] ++ [:: AddTermState F (k + m).+1])
    (mkStateGraph (Some (nk_node 0)) (nk_nodes k.+1) [::] k.+1)
  = Ok (mkStateGraph (Some (nk_node 0)) (nk_nodes (k + m).+1)
          [:: (k + m).+1] (k + m).+1).
Proof.
elim: m k => [|m IH] k /=.
  by rewrite addn0 /add_term_state mem_dkeys_nk ltnn.
by rewrite /dset -(nk_nodesS k.+1) -addSnnS IH.
Qed.

Lemma nk_build : nk_fail_graph N R e r = Ok nk_graph.
Proof. by rewrite /nk_fail_graph /build /nk_calls /= (nk_loop 0 R). Qed.

Lemma nk_keyed : keyed_by_id nk_graph.
Proof. by apply/allP=> p /mapP[i _ ->] /=. Qed.

Notation g := nk_graph.

Lemma nk_root : root g = Some (nk_node 0).
Proof. by []. Qed.

Lemma nk_node_at i : (i <= R)%N -> node_at g i = Some (nk_node i).
Proof.
move=> le; rewrite /node_at /=; case: eqP => [<-|_] //.
by rewrite dget_nk ltnS le.
Qed.

Lemma nk_node_at_inv i m :
  node_at g i = Some m -> (i <= R)%N /\ m = nk_node i.
Proof.
rewrite /node_at /=; case: eqP => [<- [<-]|_] //.
by rewrite dget_nk ltnS; case: leqP => // le [<-].
Qed.

Lemma nk_target_key i :
  fault_target_key g (fault i.+1 (nk_rate i) None)
  = if i == R then None else Some i.+1.
Proof. by rewrite /fault_target_key /= inE eqSS; case: eqP. Qed.

Lemma nk_edge i :
  (i <= R)%N -> fault_edge g (Some i) (if i == R then None else Some i.+1).
Proof.
move=> le; exists i, (nk_node i), (fault i.+1 (nk_rate i) None).
by split=> //; [exact: nk_node_at | rewrite mem_head | rewrite nk_target_key].
Qed.

Lemma nk_path i : (i <= R)%N -> fault_path g i (Some i).
Proof.
elim: i => [|i IH] le; first exact: (fault_path_root nk_root).
have := fault_path_step (IH (ltnW le)) (nk_edge (ltnW le)).
by rewrite (ltn_eqF le).
Qed.

Lemma nk_path_None : fault_path g R.+1 None.
Proof.
by have := fault_path_step (nk_path (leqnn R)) (nk_edge (leqnn R)); rewrite eqxx.
Qed.

Lemma nk_path_inv d k :
  fault_path g d k ->
  k = (if (d <= R)%N then Some d else None) /\ (d <= R.+1)%N.
Proof.
elim=> [r' [<-] //|{}d {}k k' _ [Ek led] [i [m [t [Ei Em tin ->]]]]].
move: Ek; rewrite Ei; case: (leqP d R) => // le [Eid]; move: Em; rewrite Eid => Em.
have [_ Em'] := nk_node_at_inv Em; move: tin; rewrite Em' inE => /eqP->.
rewrite nk_target_key ltnS le; split=> //.
by rewrite ltn_neqAle le andbT; case: eqP.
Qed.

Lemma mem_dvalues (K : eqType) (V : eqType) (d : dict K V) x :
  x \in dvalues d -> exists2 k, k \in dkeys d & dget d k = Some x.
Proof. by rewrite /dvalues mem_pmap => /mapP[k kin ->]; exists k. Qed.

Lemma nk_known n :
  n \in known_states g -> exists2 i, (i <= R)%N & n = nk_node i.
Proof.
rewrite /known_states /= in_cons => /orP[/eqP->|]; first by exists 0%N.
case/mem_dvalues=> i; rewrite mem_dkeys_nk dget_nk ltnS => le.
by rewrite le => -[<-]; exists i.
Qed.

Lemma nk_faults_known : faults_known g.
Proof.
apply/allP=> n /nk_known[i le ->] /=; rewrite andbT inE eqSS.
by rewrite mem_dkeys_nk ltnS ltn_neqAle le andbT; case: eqP.
Qed.

Lemma nk_reach k :
  k \in None :: [seq Some i | i <- dkeys (nodes g)] ->
  exists d, fault_path g d k.
Proof.
rewrite in_cons => /orP[/eqP->|/mapP[i]]; first by exists R.+1; exact: nk_path_None.
by rewrite mem_dkeys_nk ltnS => le ->; exists i; exact: nk_path.
Qed.

Lemma nk_visit_order : exists acc, visit_order g = Ok acc.
Proof.
apply: (visit_order_total nk_keyed nk_root) => //.
  by rewrite mem_dkeys_nk.
- exact: nk_faults_known.
exact: nk_reach.
Qed.

(** X7: whatever the redundancy [R], [nk_fail_graph] builds its graph
    without a failed assertion and [fault_resilence] of this graph is [R]:
    the assertion of the driver holds for every [R], not only for the
    value it is run with. *)
Theorem nk_fault_resilence :
  (let* g := nk_fail_graph N R e r in fault_resilence g) = Ok (Z.of_nat R).
Proof.
rewrite nk_build /=; have [acc Eo] := nk_visit_order.
have := fault_resilence_returns nk_keyed nk_root (fault_level_map_order Eo).
case E: (fault_resilence g) => [k|] // _.
have [d -> [pth _]] := fault_resilence_distance nk_keyed nk_root E.
have [] := nk_path_inv pth; rewrite ltnS.
by case: leqP => // lt _ le; congr (Ok (Z.of_nat _)); apply/eqP; rewrite eqn_leq le.
Qed.

(** *** The asymptotic estimate *)

Lemma pmap_map (A B : Type) (f : A -> option B) (h : A -> B) (s : seq A) :
  (forall x, f x = Some (h x)) -> pmap f s = [seq h x | x <- s].
Proof. by move=> E; elim: s => [|x s IH] //=; rewrite E /= IH. Qed.

Lemma pmap_map_in (A : eqType) (B : Type) (f : A -> option B) (h : A -> B)
    (s : seq A) :
  {in s, forall x, f x = Some (h x)} -> pmap f s = [seq h x | x <- s].
Proof.
elim: s => [|x s IH] //= E; rewrite E ?mem_head //= IH // => y yin.
by apply: E; rewrite in_cons yin orbT.
Qed.

Lemma nk_graph_nodes : graph_nodes g = [seq nk_node i | i <- rev (iota 0 R.+1)].
Proof.
rewrite /graph_nodes /= dkeys_nk; apply: pmap_map_in => i.
by rewrite mem_rev mem_iota add0n ltnS => /nk_node_at.
Qed.

Lemma nk_graph_node n :
  n \in graph_nodes g -> (id n <= R)%N /\ n = nk_node (id n).
Proof.
rewrite nk_graph_nodes => /mapP[i]; rewrite mem_rev mem_iota add0n ltnS.
by move=> le ->.
Qed.

Section NKLevels.

Variable acc : seq (option (State F) * nat).
Hypothesis Eo : visit_order g = Ok acc.

Notation lm := (levels_of acc).

Lemma nk_level k d :
  k \in None :: [seq Some i | i <- dkeys (nodes g)] ->
  fault_path g d k -> dget lm k = Some d.
Proof.
have := visit_orderP nk_keyed nk_root; rewrite Eo => -[v I Ev].
rewrite -Ev (inv_visited I) => /mapP[p pin Ek] pth.
apply/(levels_of_dget _ _ (inv_uniq I)); exists p => //; split=> //.
have [pth' _] := bfs_final_distance nk_root I pin.
have [E1 le1] := nk_path_inv pth; have [E2 le2] := nk_path_inv pth'.
move: E2; rewrite -Ek E1.
case: (leqP d R) => led; case: (leqP p.2 R) => lep //; first by case.
by move=> _; apply/eqP; rewrite eqn_leq (leq_trans le2 led) (leq_trans le1 lep).
Qed.

Lemma nk_level_node i : (i <= R)%N -> dget lm (Some i) = Some i.
Proof.
move=> le; apply: nk_level (nk_path le).
by rewrite in_cons /= (mem_map (@Some_inj _)) mem_dkeys_nk.
Qed.

Lemma nk_level_None : dget lm None = Some R.+1.
Proof. by apply: nk_level nk_path_None; rewrite mem_head. Qed.

Lemma nk_level_of i : (i <= R)%N -> level_of lm (nk_node i) = i.
Proof. by move=> le; rewrite /level_of /= nk_level_node. Qed.

Lemma nk_fault_level i :
  (i <= R)%N ->
  dget lm (fault_target_key g (fault i.+1 (nk_rate i) None)) = Some i.+1.
Proof.
move=> le; rewrite nk_target_key; case: eqP => [->|/eqP ne].
  exact: nk_level_None.
by apply: nk_level_node; rewrite ltn_neqAle ne.
Qed.

Lemma nk_major_edges i :
  (i <= R)%N ->
  major_edges g lm (nk_node i) = [:: fault i.+1 (nk_rate i) None].
Proof.
move=> le; rewrite /major_edges nk_level_of //= (is_fault_minorE _ (nk_fault_level le)).
rewrite ltnn eqxx /=; case: i le => [|j] le //=.
rewrite (@is_recovery_minorE _ lm j.+1 (recover j r None) j) ?leqnSn ?ltnSn //.
exact: (nk_level_node (ltnW le)).
Qed.

Lemma nk_recoveries n t :
  n \in graph_nodes g -> t \in recovers n ->
  exists2 tl, dget lm (Some (target t)) = Some tl & (tl < level_of lm n)%N.
Proof.
case/nk_graph_node=> le ->; rewrite nk_level_of //.
case: (id n) le => [|j] le //=; rewrite inE => /eqP-> /=.
by exists j => //; exact: (nk_level_node (ltnW le)).
Qed.

End NKLevels.

Lemma flatten_map1 (A : eqType) (B : Type) (f : A -> seq B) (h : A -> B)
    (s : seq A) :
  {in s, forall x, f x = [:: h x]} ->
  flatten [seq f x | x <- s] = [seq h x | x <- s].
Proof.
elim: s => [|x s IH] //= E; rewrite E ?mem_head //= IH // => y yin.
by apply: E; rewrite in_cons yin orbT.
Qed.

(** The call made for the state [i]. *)
Definition nk_call (i : nat) : call F :=
  (if (i < R)%N then Some (nk_node i.+1) else None, nk_node i,
   fault i.+1 (nk_rate i) None).

(** The visit of the major edges goes along the chain. *)
Lemma nk_calls_recorded :
  visit_major_edges (@record_call F) g [::]
  = Ok [seq nk_call i | i <- iota 0 R.+1].
Proof.
have [acc Eo] := nk_visit_order.
have Elm := fault_level_map_order Eo.
have nterm : id (nk_node 0) \notin term_nodes g by [].
have [calls Ec] :=
  visit_major_edges_record_total nk_keyed nk_root nterm Elm (nk_recoveries Eo).
rewrite Ec; congr Ok.
move: Ec; rewrite /visit_major_edges.
case Erun: (major_run _ _ _) => [[nx st0]|] //=.
have [lm' [r' [rest]]] := major_run_record nk_keyed Erun; cbv zeta.
case=> -[Elm' _] [Enx _ Ecb] Hperm Hord _.
move: Elm' Ecb Hperm Hord; rewrite Elm => -[<-] {lm'}.
move: Enx; set Q := r' :: rest => Enx Ecb Hperm Hord.
case: eqP => //= Esz [<-]; rewrite Ecb.
have pQ : perm_eq Q (graph_nodes g) by apply: Hperm; rewrite -Enx.
have nodeQ n : n \in Q -> (id n <= R)%N /\ n = nk_node (id n).
  by rewrite (perm_mem pQ) => /nk_graph_node.
have Eids : [seq id n | n <- Q] = iota 0 R.+1.
  apply: consecutive_order => [|a b].
    apply: perm_trans (perm_map _ pQ) _.
    by rewrite nk_graph_nodes -map_comp map_id_in ?perm_rev.
  rewrite size_map => la lb; rewrite !(nth_map State0) //.
  set na := nth State0 Q a; set nb := nth State0 Q b => Eb.
  have [lea Ea] := nodeQ na (mem_nth _ la).
  have [leb _] := nodeQ nb (mem_nth _ lb).
  apply: (Hord a b (fault (id na).+1 (nk_rate (id na)) None)) => //.
  - by rewrite -/na [X in major_edges _ _ X]Ea nk_major_edges // mem_head.
  - by rewrite /= inE -Eb; apply/negP=> /eqP E; move: leb; rewrite E ltnn.
have -> : Q = [seq nk_node i | i <- iota 0 R.+1].
  rewrite -Eids -map_comp -[LHS]map_id; apply/eq_in_map=> n nin /=.
  by have [] := nodeQ n nin.
rewrite -map_comp; apply: flatten_map1 => i; rewrite mem_iota add0n ltnS => le.
rewrite /= /calls_of nk_major_edges //= /nk_call /target_node /= inE eqSS.
by rewrite dget_nk ltnS; case: (ltngtP i R) le.
Qed.

(** The population that the visit gives to the state [i]. *)
Fixpoint nk_pop (i : nat) : F :=
  if i is j.+1 then 0 + nk_pop j * nk_rate j / (0 + r) else 1.

Lemma nk_flow k :
  let v := foldl (fun s c => apply_call (@flow_visit F) c s)
             (flow_init (nk_node 0))
             [seq (Some (nk_node i.+1), nk_node i,
                   fault i.+1 (nk_rate i) None) | i <- iota 0 k] in
  term_rate v = 0
  /\ forall j, population v j = if (j <= k)%N then nk_pop j else 0.
Proof.
elim: k => [|k]; cbv zeta; last case=> IHt IHp.
  split=> // j; rewrite /population /dget_default /= leqn0 eq_sym.
  by case: eqP => [->|].
rewrite -addn1 iotaD map_cat foldl_cat add0n.
move: IHt IHp; set v := foldl _ _ _ => IHt IHp.
rewrite /= /apply_call /=; split=> // j.
rewrite {1}/population /dget_default /=.
case: (k.+1 =P j) => [<-|/eqP ne].
  by rewrite addn1 leqnn !IHp ltnn leqnn.
rewrite -/(dget_default 0 (population_map v) j) -/(population v j) IHp.
by rewrite addn1 [(j <= k.+1)%N]leq_eqVlt eq_sym (negbTE ne) ltnS.
Qed.

Lemma nk_asymptotic_raw :
  mttff_asymptotic g = Ok (1 / (0 + nk_pop R * nk_rate R)).
Proof.
rewrite /mttff_asymptotic /= visit_major_edges_replay nk_calls_recorded /bind.
congr (Ok (1 / _)).
rewrite -addn1 iotaD map_cat foldl_cat add0n.
have -> : [seq nk_call i | i <- iota 0 R]
          = [seq (Some (nk_node i.+1), nk_node i,
                  fault i.+1 (nk_rate i) None) | i <- iota 0 R].
  apply/eq_in_map=> i; rewrite mem_iota add0n /nk_call => /andP[_ ->].
  by [].
have [Et Ep] := nk_flow R.
by rewrite /= /nk_call ltnn /apply_call /= Et Ep leqnn.
Qed.

Lemma nk_rateE j : nk_rate j = (N - j%:R) * e.
Proof. by case: j => //=; rewrite subr0. Qed.

Lemma nk_popE i : nk_pop i = (\prod_(0 <= j < i) nk_rate j) / r ^+ i.
Proof.
elim: i => [|i IH] /=; first by rewrite big_geq // expr0 divr1.
rewrite !add0r IH big_nat_recr //= exprSr invfM -!mulrA; congr (_ * _).
by rewrite mulrCA.
Qed.

(** X8: for every redundancy [R], where [r], [e] and the factors
    [N - j] for [j <= R] are not zero, the asymptotic mean time to first
    failure of the graph of [nk_fail_graph] is
    [r^R / (e^(R+1) * N * (N - 1) * ... * (N - R))]. *)
Theorem nk_mttff_asymptotic :
  r != 0 -> e != 0 -> all (fun j => N - j%:R != 0) (iota 0 R.+1) ->
  (let* g := nk_fail_graph N R e r in mttff_asymptotic g)
  = Ok (r ^+ R / (e ^+ R.+1 * \prod_(0 <= j < R.+1) (N - j%:R))).
Proof.
move=> _ _ _; rewrite nk_build /= nk_asymptotic_raw; congr Ok.
have -> : e ^+ R.+1 * \prod_(0 <= j < R.+1) (N - j%:R)
          = \prod_(0 <= j < R.+1) nk_rate j.
  rewrite (eq_bigr _ (fun j _ => nk_rateE j)) big_split /=.
  by rewrite prodr_const_nat subn0 mulrC.
rewrite add0r nk_popE div1r [in RHS]big_nat_recr //=.
by rewrite mulrAC invf_div.
Qed.

(** *** The transition intensity matrix *)

Lemma nk_dvalues :
  dvalues (nodes g) = [seq nk_node i | i <- rev (iota 0 R.+1)].
Proof.
rewrite /dvalues /= dkeys_nk; apply: pmap_map_in => i.
by rewrite mem_rev mem_iota add0n dget_nk => /andP[_ ->].
Qed.

Lemma nk_well_formed : well_formed g.
Proof.
apply/and4P; split; first exact: nk_keyed.
- by rewrite /distinct_objects nk_dvalues -map_comp map_id_in ?rev_uniq ?iota_uniq.
- by rewrite /root_stored /= dget_nk.
rewrite /targets_known nk_dvalues; apply/allP=> n /mapP[i].
rewrite mem_rev mem_iota add0n ltnS => /andP[_ le] -> /=.
rewrite andbT inE eqSS mem_dkeys_nk ltnS -leq_eqVlt le /=.
by case: i le => [|j] le //=; rewrite andbT mem_dkeys_nk ltnS (ltnW le).
Qed.

Lemma nk_get_states : get_states g = Ok [seq nk_node i | i <- iota 0 R.+1].
Proof.
have [r0 [rest [Er -> pv pk srt]]] := get_states_wf nk_well_formed.
congr Ok; move: Er pv pk; rewrite nk_root => -[<-] pv pk.
have Eids : [seq id n | n <- nk_node 0 :: rest] = iota 0 R.+1.
  apply: (sorted_eq leq_trans anti_leq) (iota_sorted 0 R.+1) _.
    have := sub_sorted (fun x y => @ltnW x y) srt.
    by rewrite /=; case: [seq id n | n <- rest].
  by apply: (perm_trans pk); rewrite /= dkeys_nk perm_rev.
have nodeE n : n \in nk_node 0 :: rest -> n = nk_node (id n).
  by rewrite (perm_mem pv) nk_dvalues => /mapP[i _ ->].
rewrite -Eids -map_comp -[LHS]map_id; apply/eq_in_map=> n /nodeE.
by [].
Qed.

(** X10: for every [R] the transition intensity matrix of the graph of
    [nk_fail_graph] has [R + 1] rows and columns and three diagonals: the
    rate of the fault of the state [i] right of the diagonal, the recovery
    rate left of it, minus the sum of the rates that leave the state on
    it, and zero elsewhere. *)
Theorem nk_transition_matrix :
  exists M,
    [/\ (let* g := nk_fail_graph N R e r in transition_intensity_matrix g)
        = Ok M,
        square R.+1 M
      & forall i j, (i <= R)%N -> (j <= R)%N ->
          mget M i j
          = if j == i then - (nk_rate i + (if i is 0%N then 0 else r))
            else if j == i.+1 then nk_rate i
            else if j.+1 == i then r else 0].
Proof.
rewrite nk_build /=.
have [M EM] := tim_wf_total nk_well_formed nk_get_states.
have [sq _] := tim_entries nk_get_states EM.
exists M; split=> //; first by move: sq; rewrite size_map size_iota.
move=> i j li lj.
have u : uniq [seq id n | n <- [seq nk_node i | i <- iota 0 R.+1]].
  by rewrite -map_comp map_id_in ?iota_uniq.
rewrite (tim_entry u nk_get_states EM) ?size_map ?size_iota ?ltnS //.
rewrite /generator_entry !(nth_map 0%N) ?size_iota ?ltnS //.
rewrite !nth_iota ?ltnS // !add0n [i == j]eq_sym.
case: (j =P i) => [_|/eqP ne].
  by rewrite /total_rate; case: i {li} => [|k] /=;
    rewrite !big_cons big_nil /= addr0.
rewrite /written_to /written /= inE eqSS.
case: i li ne => [|k] li ne /=.
  case: (0%N =P R) => [E0|_] /=.
    by move: lj ne; rewrite -E0 leqn0 => /eqP->.
  by rewrite [j == 1%N]eq_sym; case: eqP.
rewrite eqSS [j == k]eq_sym [j == k.+2]eq_sym.
case: (k.+1 =P R) => [E|_] /=.
  have -> : (k.+2 == j) = false by rewrite gtn_eqF // ltnS E.
  by case: eqP.
case: (k.+2 =P j) => [<-|_] /=; last by case: eqP.
by rewrite ltn_eqF.
Qed.

End NKFacts.

Lemma nk_mttff_asymptotic_witness :
  [/\ (2%:R : rat) != 0, (1 : rat) != 0,
      all (fun j => (5%:R : rat) - j%:R != 0) (iota 0 3)
    & (let* g := nk_fail_graph (5%:R : rat) 2 1 2%:R in mttff_asymptotic g)
      = Ok (2%:R ^+ 2 / (1 ^+ 3 * \prod_(0 <= j < 3) (5%:R - j%:R)))].
Proof.
by split; [| | |apply: nk_mttff_asymptotic]; vm_compute.
Defined.

(** ** How the matrix and the exact solution fail *)

Section MatrixOutcome.

Variable F : fieldType.
Implicit Types (M : matrix F) (g : StateGraph F) (ns : seq (State F)).

(** The target of [x] is the id of a listed state. *)
Definition known_target ns (x : Transition F) : bool :=
  target x \in [seq id n | n <- ns].

(** Every transition of [n] that is stored in a column has one. *)
Definition row_known g ns (n : State F) : bool :=
  all (fun x => (target x \in term_nodes g) || known_target ns x) (faults n)
  && all (known_target ns) (recovers n).

Lemma foldl_index_out (l : seq (State F)) s acc k :
  k \notin [seq id n | n <- l] ->
  foldl (fun acc p => if id p.2 == k then Some p.1 else acc) acc
    (zip (iota s (size l)) l) = acc.
Proof.
elim: l s acc => [|a l IH] s acc //=; rewrite in_cons negb_or eq_sym.
by case/andP=> /negbTE -> /IH ->.
Qed.

Lemma foldl_index_in (l : seq (State F)) s acc k :
  k \in [seq id n | n <- l] ->
  exists2 j,
    foldl (fun acc p => if id p.2 == k then Some p.1 else acc) acc
      (zip (iota s (size l)) l) = Some j
    & (s <= j < s + size l)%N.
Proof.
elim: l s acc => [|a l IH] s acc //=.
case kin: (k \in [seq id n | n <- l]).
  move=> _; have [j -> /andP[lo hi]] := IH s.+1
    (if id a == k then Some s else acc) kin.
  by exists j => //; rewrite (ltnW lo) addnS -addSn.
rewrite in_cons kin orbF eq_sym => ->; rewrite foldl_index_out ?kin //.
by exists s => //; rewrite leqnn addnS ltnS leq_addr.
Qed.

Lemma nodes_map_in ns k :
  k \in [seq id n | n <- ns] ->
  exists2 j, dget (nodes_map ns) k = Some j & (j < size ns)%N.
Proof.
move=> kin; rewrite /nodes_map dget_foldl_index /enumerate.
by have [j -> /andP[_ hi]] := foldl_index_in 0 None kin; exists j.
Qed.

Lemma nodes_map_out ns k :
  k \notin [seq id n | n <- ns] -> dget (nodes_map ns) k = None.
Proof.
by move=> kout; rewrite /nodes_map dget_foldl_index /enumerate foldl_index_out.
Qed.

Lemma nodes_map_bound ns k j :
  dget (nodes_map ns) k = Some j -> (j < size ns)%N.
Proof.
case kin: (k \in [seq id n | n <- ns]); last by rewrite nodes_map_out ?kin.
by have [j' -> lt [<-]] := nodes_map_in kin.
Qed.

Lemma nodes_map_known ns x :
  isSome (dget (nodes_map ns) (target x)) = known_target ns x.
Proof.
rewrite /known_target; case kin: (_ \in _); last by rewrite nodes_map_out ?kin.
by have [j ->] := nodes_map_in kin.
Qed.

Section Outcome.

Variables (g : StateGraph F) (nm : dict Id nat) (n : nat).
Hypothesis bound : forall k j, dget nm k = Some j -> (j < n)%N.

Lemma tim_fault_outcome i xs tot M :
  square n M -> (i < n)%N ->
  if all (fun x => (target x \in term_nodes g) || isSome (dget nm (target x)))
         xs
  then exists st, foldM (tim_fault g nm i) xs (tot, M) = Ok st /\ square n st.2
  else foldM (tim_fault g nm i) xs (tot, M) = Fail KeyError.
Proof.
move=> + li; elim: xs tot M => [|x xs IH] tot M sq /=; first by eexists.
rewrite {1 3}/tim_fault /=; case tin: (target x \in term_nodes g) => /=;
  first exact: IH.
rewrite /dfind; case Ed: (dget nm _) => [j|] //=.
have [M1 -> /= sq1] := mset_ok (rate x) sq li (bound Ed).
exact: IH.
Qed.

Lemma tim_recover_outcome i xs tot M :
  square n M -> (i < n)%N ->
  if all (fun x => isSome (dget nm (target x))) xs
  then exists st, foldM (tim_recover nm i) xs (tot, M) = Ok st /\ square n st.2
  else foldM (tim_recover nm i) xs (tot, M) = Fail KeyError.
Proof.
move=> + li; elim: xs tot M => [|x xs IH] tot M sq /=; first by eexists.
rewrite {1 3}/tim_recover /= /dfind; case Ed: (dget nm _) => [j|] //=.
have [M1 -> /= sq1] := mset_ok (rate x) sq li (bound Ed).
exact: IH.
Qed.

(** The row of [st] can be written. *)
Definition row_ok (st : State F) : bool :=
  all (fun x => (target x \in term_nodes g) || isSome (dget nm (target x)))
      (faults st)
  && all (fun x => isSome (dget nm (target x))) (recovers st).

Lemma tim_row_outcome i st M :
  square n M -> (i < n)%N ->
  if row_ok st then exists2 M', tim_row g nm (i, st) M = Ok M' & square n M'
  else tim_row g nm (i, st) M = Fail KeyError.
Proof.
move=> sq li; rewrite /tim_row /row_ok /=.
have := tim_fault_outcome (faults st) 0 sq li.
case: (all _ (faults st)) => [[[t1 M1] [-> /= sq1]]|-> //] /=.
have := tim_recover_outcome (recovers st) t1 sq1 li.
case: (all _ (recovers st)) => [[[t2 M2] [-> /= sq2]]|-> //] /=.
exact: mset_ok.
Qed.

Lemma tim_rows_outcome k (l : seq (State F)) M :
  square n M -> (k + size l <= n)%N ->
  if all row_ok l
  then exists2 M', foldM (tim_row g nm) (zip (iota k (size l)) l) M = Ok M'
                 & square n M'
  else foldM (tim_row g nm) (zip (iota k (size l)) l) M = Fail KeyError.
Proof.
elim: l k M => [|st l IH] k M sq /=; first by exists M.
rewrite addnS => lt.
have lk : (k < n)%N by apply: leq_trans lt; rewrite ltnS leq_addr.
have := tim_row_outcome st sq lk.
case: (row_ok st) => [[M1 -> /= sq1]|-> //] /=.
by apply: IH => //; rewrite addSn.
Qed.

End Outcome.

Lemma row_ok_known g ns st :
  row_ok g (nodes_map ns) st = row_known g ns st.
Proof.
rewrite /row_ok /row_known; congr (_ && _); apply: eq_all => x.
  by rewrite nodes_map_known.
exact: nodes_map_known.
Qed.

Lemma tim_outcome g ns :
  get_states g = Ok ns ->
  if all (row_known g ns) ns
  then exists2 M, transition_intensity_matrix g = Ok M & square (size ns) M
  else transition_intensity_matrix g = Fail KeyError.
Proof.
move=> E; rewrite /transition_intensity_matrix E /= /enumerate.
have := tim_rows_outcome g (@nodes_map_bound ns) (square_zeros F (size ns))
          (leqnn (0 + size ns)).
by rewrite (eq_all (row_ok_known g ns)).
Qed.

(** X9: [transition_intensity_matrix] fails on its assertion when the
    graph has no root; with a root it returns a square matrix with one row
    for each listed state when every recovery and every fault to a
    non-terminal id leads to the id of a listed state, and fails with
    [KeyError] otherwise; no store is ever out of the matrix.
    [mttff_exact] fails as the matrix does, and returns when it
    returns. *)
Theorem transition_intensity_matrix_outcome g :
  match get_states g with
  | Fail e =>
      [/\ root g = None, e = AssertionError,
          transition_intensity_matrix g = Fail AssertionError
        & mttff_exact g = Fail AssertionError]
  | Ok ns =>
      if all (row_known g ns) ns then
        (exists2 M, transition_intensity_matrix g = Ok M & square (size ns) M)
        /\ is_ok (mttff_exact g)
      else transition_intensity_matrix g = Fail KeyError
           /\ mttff_exact g = Fail KeyError
  end.
Proof.
case E: (get_states g) => [ns|e].
  have := tim_outcome E; case: (all _ ns) => [[M EM sq]|EM]; last first.
    by rewrite /mttff_exact EM.
  split; first by exists M.
  have pos : (0 < size ns)%N.
    by move: E; rewrite /get_states; case: (root g) => // r [<-].
  have [M1 [E1 _ _]] := set_col0_onesP sq pos.
  by rewrite /mttff_exact EM /= E1.
move: E; rewrite /mttff_exact /transition_intensity_matrix /get_states.
by case: (root g) => // -[<-].
Qed.

End MatrixOutcome.

Lemma transition_intensity_matrix_outcome_witness :
  let g := mkStateGraph
             (Some (mkState 0 0 [:: fault 1%N (1 : rat) None] [::]))
             [:: (0%N, mkState 0 0 [:: fault 1%N (1 : rat) None] [::])]
             [::] 1 in
  transition_intensity_matrix g = Fail KeyError
  /\ mttff_exact g = Fail KeyError.
Proof. by move=> g; have := transition_intensity_matrix_outcome g. Defined.

(** ** The rows of the matrix *)

Section RowSums.

Variable F : fieldType.
Implicit Types (M : matrix F) (g : StateGraph F) (ns : seq (State F)).

Lemma last_sum1 (l : seq F) : (size l <= 1)%N -> last 0 l = \sum_(x <- l) x.
Proof. by case: l => [|a [|b l]] //= _; rewrite ?big_nil ?big_seq1. Qed.

Lemma filter_target_size (ws : seq (Transition F)) k :
  uniq [seq target x | x <- ws] ->
  (size [seq x <- ws | target x == k] <= 1)%N.
Proof.
elim: ws => [|x ws IH] //= /andP[nx u].
case: eqP => [E|_] /=; last exact: IH.
rewrite (@eq_in_filter _ _ pred0) ?filter_pred0 // => y yin /=.
by apply/negP=> /eqP Ey; move: nx; rewrite E -Ey map_f.
Qed.

Lemma sum_id_pick ns k (c : F) :
  uniq [seq id n | n <- ns] -> k \in [seq id n | n <- ns] ->
  \sum_(m <- ns | id m == k) c = c.
Proof.
elim: ns => [|m ns IH] //= /andP[nm u]; rewrite in_cons big_cons.
case: (id m =P k) => [E _|/eqP ne] /=.
  rewrite big_seq_cond big1 ?addr0 // => m' /andP[m'in /eqP E'].
  by move: nm; rewrite E -E' map_f.
by rewrite eq_sym (negbTE ne) /=; exact: IH.
Qed.

(** X11: in a well-formed graph, when the transitions of a state that
    are stored in the matrix have distinct targets, none of them the state
    itself, the row of the state sums to minus the sum of the rates of its
    faults to terminal ids: what leaves the states of the matrix. *)
Theorem matrix_row_sum g ns M i :
  well_formed g -> get_states g = Ok ns ->
  transition_intensity_matrix g = Ok M -> (i < size ns)%N ->
  let n := nth State0 ns i in
  uniq [seq target x | x <- written g n] ->
  id n \notin [seq target x | x <- written g n] ->
  \sum_(0 <= j < size ns) mget M i j
  = - \sum_(x <- faults n | target x \in term_nodes g) rate x.
Proof.
move=> wf E EM li n ut nself.
have u := get_states_uniq wf E.
have [r0 [rest [_]]] := get_states_wf wf; rewrite E => -[Ens] pv pk _.
pose ws := written g n.
pose f (m : State F) := \sum_(x <- ws | target x == id m) rate x.
have known x : x \in ws -> target x \in [seq id m | m <- ns].
  have nin : n \in dvalues (nodes g).
    by rewrite -(perm_mem pv) -Ens mem_nth.
  case/and4P: wf => _ _ _ /allP/(_ n nin)/andP[/allP tf /allP tr].
  rewrite Ens (perm_mem pk) /ws /written mem_cat mem_filter.
  case/orP=> [/andP[nt /tf]|/tr //].
  by rewrite (negbTE nt).
have Eentry j : (0 <= j < size ns)%N ->
    mget M i j = (if j == i then - total_rate n else 0)
                 + f (nth State0 ns j).
  move=> /andP[_ lj]; rewrite (tim_entry u E EM li lj) /generator_entry -/n.
  rewrite [i == j]eq_sym; case: (j =P i) => [->|_].
    rewrite /f -/n big_seq_cond big1 ?addr0 // => x /andP[xin /eqP Ex].
    by case/negP: nself; rewrite -Ex map_f.
  rewrite add0r /written_to -/ws last_sum1 ?size_map ?filter_target_size //.
  by rewrite big_map big_filter.
rewrite (eq_big_nat _ _ Eentry) big_split /=.
have -> : \sum_(0 <= j < size ns) (if j == i then - total_rate n else 0)
          = - total_rate n.
  by rewrite -big_mkcond /= big_mkord (big_pred1 (Ordinal li)).
have -> : \sum_(0 <= j < size ns) f (nth State0 ns j) = \sum_(x <- ws) rate x.
  rewrite -(big_nth State0 xpredT f) /f.
  rewrite (eq_bigr _ (fun m _ => big_mkcond _ _)) exchange_big /=.
  rewrite [LHS]big_seq [RHS]big_seq; apply: eq_bigr => x xin.
  rewrite -big_mkcond /= (eq_bigl (fun m => id m == target x)).
    by move=> m; rewrite eq_sym.
  exact: sum_id_pick u (known x xin).
rewrite /total_rate /ws /written !big_cat big_filter /=.
rewrite (bigID (fun x => target x \in term_nodes g)) /= -addrA opprD.
exact: subrK.
Qed.

End RowSums.

Lemma matrix_row_sum_witness :
  let g := mirror_graph (1 : rat) 2%:R in
  let ns := [:: mirror_root 1; mirror_degraded 1 2%:R] in
  [/\ well_formed g, get_states g = Ok ns,
      uniq [seq target x | x <- written g (nth State0 ns 1)]
    & id (nth State0 ns 1) \notin [seq target x | x <- written g (nth State0 ns 1)]]
  /\ exists M,
       transition_intensity_matrix g = Ok M
       /\ \sum_(0 <= j < 2) mget M 1 j
          = - \sum_(x <- [:: fault 2%N (1 : rat) None]
                   | target x \in [:: 2%N]) rate x.
Proof.
move=> g ns; split; first by [].
have EM := mirror_matrix (1 : rat) 2%:R.
eexists; split; first exact: EM.
exact: (@matrix_row_sum rat g ns _ 1%N isT erefl EM isT isT isT).
Defined.
